(** * Aho-Corasick (Ken Steele variant): the ACKS matcher of ac_ks.go

    A shallow embedding of the matcher and the verification of its
    specification.  Conventions of the embedding:

    - Go's [int], [uint] and [uint64] are 64-bit; slice lengths, loop
      indices and counters are bounded by addressable memory and never
      wrap, so they are natural numbers (or [N] for pattern ids).  The
      narrower types keep their truncation: [uint8] symbols are taken
      modulo 256 and the [int32] entries of the state table wrap at 2^31.
    - A run-time panic (index or slice bounds out of range, write to a nil
      map) is the outcome [Panic]; a loop that has no syntactic bound runs
      on an iteration budget and yields [Diverge] when it is exhausted.
    - Go iterates over a map in an unspecified order.  The order is a
      parameter [range_order] of [Build], constrained only to permute the
      entries of the map.
    - [[256]T] arrays are lists of length 256 indexed by the byte value. *)

From Stdlib Require Import ZArith NArith Lia.
From Stdlib Require Import Strings.Byte.
From Stdlib Require Strings.String.
From stdpp Require Import base option list gmap sets.
Import String.StringSyntax.
Bind Scope string_scope with String.string.

Open Scope nat_scope.

#[global] Set Warnings "-clear-no-such-hyp".

(** ** Outcomes of a computation *)

Inductive result (E A : Type) : Type :=
| Ok (a : A)
| Err (e : E)
| Panic
| Diverge.

Arguments Ok {E A} a.
Arguments Err {E A} e.
Arguments Panic {E A}.
Arguments Diverge {E A}.

Definition rbind {E A B} (r : result E A) (k : A -> result E B) : result E B :=
  match r with
  | Ok a => k a
  | Err e => Err e
  | Panic => Panic
  | Diverge => Diverge
  end.

#[global] Instance result_bind {E} : MBind (result E) := fun A B k r => rbind r k.
#[global] Instance result_ret {E} : MRet (result E) := fun A a => Ok a.

Fixpoint foldM {E A B} (f : A -> B -> result E A) (l : list B) (a : A)
  : result E A :=
  match l with
  | [] => Ok a
  | x :: l' => a' ← f a x; foldM f l' a'
  end.

(** [l[i]] and [l[i] = x] on a slice: out of range panics. *)
Definition index {E A} (l : list A) (i : nat) : result E A :=
  match l !! i with
  | Some x => Ok x
  | None => Panic
  end.

Definition store {E A} (l : list A) (i : nat) (x : A) : result E (list A) :=
  if decide (i < length l) then Ok (<[i:=x]> l) else Panic.

(** Indexing by a signed machine integer. *)
Definition indexZ {E A} (l : list A) (i : Z) : result E A :=
  if (i <? 0)%Z then Panic else index l (Z.to_nat i).

(** ** Machine integers *)

Definition uint8 (n : nat) : nat := n mod 256.

Definition int32 (z : Z) : Z := ((z + 2 ^ 31) mod 2 ^ 32 - 2 ^ 31)%Z.

Definition byte_of (n : nat) : byte := default x00 (Byte.of_nat (uint8 n)).

(** ** Patterns and the matcher *)

Definition Flag := N.
Definition Caseless : Flag := 1%N.
Definition SingleMatch : Flag := 2%N.

(** [f & g > 0] *)
Definition has_flag (f g : Flag) : bool := (0 <? N.land f g)%N.

Record Pattern := mkPattern {
  Content : list byte;
  ID : N;
  Flags : Flag;
  strlen : Z
}.

Record ACKS := mkACKS {
  patterns : list Pattern;
  translateTable : list nat;
  alphabetSize : nat;
  stateTable : list Z;
  outputTable : list (list nat);
  size : nat;
  maxID : N;
  stateCount : nat;
  hasSingleMatch : bool
}.

Definition NewACKS : ACKS :=
  {| patterns := [];
     translateTable := replicate 256 0;
     alphabetSize := 0;
     stateTable := [];
     outputTable := [];
     size := 0;
     maxID := 0%N;
     stateCount := 0;
     hasSingleMatch := false |}.

(** [AddPattern] returns the updated matcher and its [error] result
    ([None] is [nil]). *)
Definition AddPattern {E} (ac : ACKS) (p : Pattern) : ACKS * option E :=
  let p := {| Content := Content p; ID := ID p; Flags := Flags p;
              strlen := Z.of_nat (length (Content p)) |} in
  let pats := patterns ac ++ [p] in
  ({| patterns := pats;
      translateTable := translateTable ac;
      alphabetSize := alphabetSize ac;
      stateTable := stateTable ac;
      outputTable := outputTable ac;
      size := length pats;
      maxID := if (maxID ac <? ID p)%N then ID p else maxID ac;
      stateCount := stateCount ac;
      hasSingleMatch :=
        if has_flag (Flags p) SingleMatch then true else hasSingleMatch ac |},
   None).

Definition toLower (b : byte) : byte :=
  let n := Byte.to_nat b in
  if (65 <=? n) && (n <=? 90) then byte_of (n + 32) else b.

(** ** initTranslateTable *)

Definition count_byte (counts : list nat) (b : byte) : list nat :=
  let i := Byte.to_nat (toLower b) in
  <[i := S (counts !!! i)]> counts.

Definition count_pattern (counts : list nat) (p : Pattern) : list nat :=
  fold_left count_byte (Content p) counts.

Definition assign_symbol (counts : list nat) (acc : list nat * nat) (i : nat)
  : list nat * nat :=
  let '(tr, asz) := acc in
  if (65 <=? i) && (i <=? 90) then (tr, asz)
  else if 0 <? counts !!! i then (<[i := uint8 asz]> tr, S asz)
  else (<[i := 0]> tr, asz).

Definition map_upper (tr : list nat) (i : nat) : list nat :=
  <[i := tr !!! (i + 32)]> tr.

Definition initTranslateTable (ps : list Pattern) (tr0 : list nat)
  : list nat * nat :=
  let counts := fold_left count_pattern ps (replicate 256 0) in
  let '(tr, asz) := fold_left (assign_symbol counts) (seq 0 256) (tr0, 1) in
  (fold_left map_upper (seq 65 26) tr, asz).

(** ** buildStateMachine *)

Definition trie_get (trie : gmap nat (gmap nat nat)) (s c : nat) : option nat :=
  trie !! s ≫= (fun m => m !! c).

Record goto := mkGoto {
  g_trie : gmap nat (gmap nat nat);
  g_count : nat;
  g_out : list (list nat)
}.

(** One byte of one pattern (lines 111-129). *)
Definition goto_byte (tr : list nat) (acc : goto * nat) (b : byte) : goto * nat :=
  let '(g, currentState) := acc in
  let tc := tr !!! Byte.to_nat (toLower b) in
  let trie :=
    match g_trie g !! currentState with
    | None => <[currentState := ∅]> (g_trie g)
    | Some _ => g_trie g
    end in
  match trie_get trie currentState tc with
  | Some next => (mkGoto trie (g_count g) (g_out g), next)
  | None =>
      let newState := g_count g in
      (mkGoto (<[currentState := <[tc := newState]> (default ∅ (trie !! currentState))]> trie)
              (S (g_count g)) (g_out g ++ [[]]),
       newState)
  end.

(** One pattern [p] of index [k] (lines 109-131). *)
Definition goto_pattern (tr : list nat) (g : goto) (kp : nat * Pattern)
  : result Empty_set goto :=
  let '(g', currentState) := fold_left (goto_byte tr) (Content kp.2) (g, 0) in
  o ← index (g_out g') currentState;
  out ← store (g_out g') currentState (o ++ [kp.1]);
  Ok (mkGoto (g_trie g') (g_count g') out).

Definition build_goto (tr : list nat) (ps : list Pattern) : result Empty_set goto :=
  foldM (goto_pattern tr) (zip (seq 0 (length ps)) ps) (mkGoto ∅ 1 [[]]).

(** The failure walk of lines 155-167. *)
Fixpoint fail_loop (fuel : nat) (trie : gmap nat (gmap nat nat))
    (failure : list nat) (nextState charCode fState : nat)
  : result Empty_set (list nat) :=
  match fuel with
  | 0 => Diverge
  | S fuel' =>
      match trie_get trie fState charCode with
      | Some val => store failure nextState val
      | None =>
          if fState =? 0 then store failure nextState 0
          else f' ← index failure fState;
               fail_loop fuel' trie failure nextState charCode f'
      end
  end.

(** The transition walk of lines 184-200. *)
Fixpoint delta_loop (fuel : nat) (trie : gmap nat (gmap nat nat))
    (failure : list nat) (charIdx curr : nat) : result Empty_set nat :=
  match fuel with
  | 0 => Diverge
  | S fuel' =>
      match trie_get trie curr (uint8 charIdx) with
      | Some val => Ok val
      | None =>
          if curr =? 0 then Ok 0
          else c' ← index failure curr;
               delta_loop fuel' trie failure charIdx c'
      end
  end.

Section Build.

(** The order in which [range] visits the entries of a map. *)
Variable range_order : list (nat * nat) -> list (nat * nat).

(** Lines 138-143: the states of depth one. *)
Definition bfs_root (acc : list nat * list nat) (e : nat * nat)
  : result Empty_set (list nat * list nat) :=
  let '(queue, failure) := acc in
  failure' ← store failure e.2 0;
  Ok (queue ++ [e.2], failure').

(** Lines 151-170: one transition of the dequeued state. *)
Definition bfs_child (fuel : nat) (trie : gmap nat (gmap nat nat)) (rState : nat)
    (acc : list nat * list nat * list (list nat)) (e : nat * nat)
  : result Empty_set (list nat * list nat * list (list nat)) :=
  let '(queue, failure, out) := acc in
  let '(charCode, nextState) := e in
  fState ← index failure rState;
  failure' ← fail_loop fuel trie failure nextState charCode fState;
  o ← index out nextState;
  f ← index failure' nextState;
  o' ← index out f;
  out' ← store out nextState (o ++ o');
  Ok (queue ++ [nextState], failure', out').

(** Lines 146-172: the breadth-first loop. *)
Fixpoint bfs (walk fuel : nat) (trie : gmap nat (gmap nat nat))
    (queue failure : list nat) (out : list (list nat))
  : result Empty_set (list nat * list (list nat)) :=
  match queue with
  | [] => Ok (failure, out)
  | rState :: queue' =>
      match fuel with
      | 0 => Diverge
      | S fuel' =>
          match trie !! rState with
          | Some transitions =>
              '(q, f, o) ← foldM (bfs_child walk trie rState)
                               (range_order (map_to_list transitions))
                               (queue', failure, out);
              bfs walk fuel' trie q f o
          | None => bfs walk fuel' trie queue' failure out
          end
      end
  end.

Definition build_failure (g : goto) : result Empty_set (list nat * list (list nat)) :=
  let failure := replicate (g_count g) 0 in
  '(queue, failure') ←
      match g_trie g !! 0 with
      | Some rootTrans =>
          foldM bfs_root (range_order (map_to_list rootTrans)) ([], failure)
      | None => Ok ([], failure)
      end;
  bfs (S (g_count g)) (S (g_count g)) (g_trie g) queue failure' (g_out g).

(** Lines 177-204: one cell of the dense table. *)
Definition delta_cell (g : goto) (asz : nat) (failure : list nat) (state : nat)
    (tbl : list Z) (charIdx : nat) : result Empty_set (list Z) :=
  nextState ← delta_loop (S (g_count g)) (g_trie g) failure charIdx state;
  store tbl (state * asz + charIdx) (int32 (Z.of_nat nextState)).

Definition build_delta (g : goto) (asz : nat) (failure : list nat)
  : result Empty_set (list Z) :=
  foldM (fun tbl state => foldM (delta_cell g asz failure state) (seq 0 asz) tbl)
        (seq 0 (g_count g)) (replicate (g_count g * asz) 0%Z).

Definition Build (ac : ACKS) : result Empty_set ACKS :=
  let '(tr, asz) := initTranslateTable (patterns ac) (translateTable ac) in
  g ← build_goto tr (patterns ac);
  '(failure, out) ← build_failure g;
  tbl ← build_delta g asz failure;
  Ok {| patterns := patterns ac;
        translateTable := tr;
        alphabetSize := asz;
        stateTable := tbl;
        outputTable := out;
        size := size ac;
        maxID := maxID ac;
        stateCount := g_count g;
        hasSingleMatch := hasSingleMatch ac |}.

End Build.

(** ** Search and Scan *)

#[global] Instance byte_eq_dec : EqDecision byte := Byte.byte_eq_dec.

(** The per-call record of reported ids: the bit-indexed slice and the map
    ([None] is the nil map). *)
Record dedup := mkDedup {
  recordSlice : list Z;
  recordMap : option (gset N)
}.

Definition memcmp {E} (a b : list byte) (l : Z) : result E bool :=
  if ((Z.of_nat (length b) <? l) || (Z.of_nat (length a) <? l))%Z then Ok false
  else if (l <? 0)%Z then Panic
  else Ok (bool_decide (take (Z.to_nat l) a = take (Z.to_nat l) b)).

(** Lines 266-280; the boolean is [true] when the loop [continue]s. *)
Definition check_once {E} (useSlice : bool) (pat : Pattern) (rec : dedup)
  : result E (bool * dedup) :=
  if has_flag (Flags pat) SingleMatch then
    if useSlice then
      let idx := N.to_nat (ID pat / 64) in
      let mask := Z.shiftl 1 (Z.of_N (ID pat mod 64)) in
      w ← index (recordSlice rec) idx;
      if negb (Z.land w mask =? 0)%Z then Ok (true, rec)
      else
        slice ← store (recordSlice rec) idx (Z.lor w mask);
        Ok (false, mkDedup slice (recordMap rec))
    else
      match recordMap rec with
      | Some m =>
          if decide (ID pat ∈ m) then Ok (true, rec)
          else Ok (false, mkDedup (recordSlice rec) (Some ({[ID pat]} ∪ m)))
      | None => Panic
      end
  else Ok (false, rec).

Section Search.

Context {St E : Type}.

(** [matchedPattern]: the handler is a closure; [St] is the state it
    captures. *)
Definition matchedPattern := nat -> Pattern -> St -> St * option E.

Definition call (matched : matchedPattern) (pos : nat) (pat : Pattern) (h : St)
  : St * result E unit :=
  let '(h', err) := matched pos pat h in
  (h', match err with Some e => Err e | None => Ok () end).

(** Lines 282-294. *)
Definition report (text : list byte) (matched : matchedPattern) (i : nat)
    (pat : Pattern) (h : St) : St * result E unit :=
  if has_flag (Flags pat) Caseless then call matched (S i) pat h
  else
    let lo := (Z.of_nat i - strlen pat + 1)%Z in
    if ((lo <? 0) || (Z.of_nat (length text) <? lo))%Z then (h, Panic)
    else
      match memcmp (E:=E) (Content pat) (drop (Z.to_nat lo) text) (strlen pat) with
      | Ok true => call matched (S i) pat h
      | Ok false => (h, Ok ())
      | Err e => (h, Err e)
      | Panic => (h, Panic)
      | Diverge => (h, Diverge)
      end.

(** Lines 264-295: the patterns of the output set of the current state. *)
Fixpoint out_loop (ac : ACKS) (useSlice : bool) (text : list byte)
    (matched : matchedPattern) (i : nat) (ids : list nat) (rec : dedup) (h : St)
  : dedup * St * result E unit :=
  match ids with
  | [] => (rec, h, Ok ())
  | id :: ids' =>
      match index (E:=E) (patterns ac) id with
      | Ok pat =>
          match check_once (E:=E) useSlice pat rec with
          | Ok (true, rec') => out_loop ac useSlice text matched i ids' rec' h
          | Ok (false, rec') =>
              match report text matched i pat h with
              | (h', Ok _) => out_loop ac useSlice text matched i ids' rec' h'
              | (h', r) => (rec', h', r)
              end
          | Err e => (rec, h, Err e)
          | Panic => (rec, h, Panic)
          | Diverge => (rec, h, Diverge)
          end
      | Err e => (rec, h, Err e)
      | Panic => (rec, h, Panic)
      | Diverge => (rec, h, Diverge)
      end
  end.

(** Lines 255-260: the transition, with its defensive reset. *)
Definition next_state (ac : ACKS) (currentState : Z) (tc : nat) : result E Z :=
  let idx := (currentState * Z.of_nat (alphabetSize ac) + Z.of_nat tc)%Z in
  if (Z.of_nat (length (stateTable ac)) <=? idx)%Z then Ok 0%Z
  else indexZ (stateTable ac) idx.

(** Lines 251-297: the loop over the text; [i] is the index of the head
    of [rest] in [text]. *)
Fixpoint text_loop (ac : ACKS) (useSlice : bool) (text : list byte)
    (matched : matchedPattern) (i : nat) (rest : list byte)
    (currentState : Z) (rec : dedup) (h : St) : St * result E unit :=
  match rest with
  | [] => (h, Ok ())
  | b :: rest' =>
      let tc := translateTable ac !!! Byte.to_nat b in
      match next_state ac currentState tc with
      | Ok cs =>
          match indexZ (E:=E) (outputTable ac) cs with
          | Ok out =>
              match (if 0 <? length out
                     then out_loop ac useSlice text matched i out rec h
                     else (rec, h, Ok ())) with
              | (rec', h', Ok _) =>
                  text_loop ac useSlice text matched (S i) rest' cs rec' h'
              | (_, h', r) => (h', r)
              end
          | Err e => (h, Err e)
          | Panic => (h, Panic)
          | Diverge => (h, Diverge)
          end
      | Err e => (h, Err e)
      | Panic => (h, Panic)
      | Diverge => (h, Diverge)
      end
  end.

(** [searchPatterns] with the threshold [maxSliceSize] as a parameter. *)
Definition searchPatterns_with (maxSliceSize : N) (ac : ACKS) (text : list byte)
    (matched : matchedPattern) (h : St) : St * result E unit :=
  let useSlice := (maxID ac <=? maxSliceSize)%N in
  let rec :=
    if hasSingleMatch ac then
      if useSlice
      then mkDedup (replicate (N.to_nat (maxID ac / 64) + 1) 0%Z) None
      else mkDedup [] (Some ∅)
    else mkDedup [] None in
  text_loop ac useSlice text matched 0 text 0%Z rec h.

Definition maxSliceSize : N := (16 * 1024 * 1024)%N.

Definition searchPatterns (ac : ACKS) (text : list byte)
    (matched : matchedPattern) (h : St) : St * result E unit :=
  searchPatterns_with maxSliceSize ac text matched h.

(** [MatchedHandler]: the caller's callback [m(id, from, to)], closed
    over a state [St]. *)
Definition MatchedHandler := N -> nat -> nat -> St -> St * option E.

Definition Scan (ac : ACKS) (text : list byte) (m : MatchedHandler) (s : St)
  : St * result E unit :=
  let h := fun (pos : nat) (ps : Pattern) (s : St) => m (ID ps) 0 pos s in
  searchPatterns ac text h s.

End Search.

(** The current state of the search loop after the bytes [text]: the
    transitions of lines 252-260 alone. *)
Definition dfa_run {E} (ac : ACKS) (text : list byte) : result E Z :=
  foldM (fun cs b => next_state ac cs (translateTable ac !!! Byte.to_nat b))
        text 0%Z.

Definition Search {E} (ac : ACKS) (text : list byte) : result E (list N) :=
  let h := fun (pos : nat) (ps : Pattern) (matches : list N) =>
             (matches ++ [ID ps], None) in
  match searchPatterns (E:=E) ac text h [] with
  | (matches, Ok _) => Ok matches
  | (_, Err e) => Err e
  | (_, Panic) => Panic
  | (_, Diverge) => Diverge
  end.

(** Registration of a list of patterns on a fresh matcher, then [Build]. *)
Definition add_all (ac : ACKS) (ps : list Pattern) : ACKS :=
  fold_left (fun ac p => (AddPattern (E:=Empty_set) ac p).1) ps ac.

Definition compile (range_order : list (nat * nat) -> list (nat * nat))
    (ps : list Pattern) : result Empty_set ACKS :=
  Build range_order (add_all NewACKS ps).


(** * Verification *)

(** ** The outcome monad and the checked slice operations *)

Lemma index_Ok {E A} (l : list A) i x :
  l !! i = Some x -> index (E:=E) l i = Ok x.
Proof. unfold index. by intros ->. Qed.

Lemma index_total {E A} `{!Inhabited A} (l : list A) i :
  i < length l -> index (E:=E) l i = Ok (l !!! i).
Proof.
  intros Hi. destruct (lookup_lt_is_Some_2 l i Hi) as [x Hx].
  rewrite (index_Ok _ _ _ Hx). f_equal. symmetry.
  by apply list_lookup_total_correct.
Qed.

Lemma store_Ok {E A} (l : list A) i x :
  i < length l -> store (E:=E) l i x = Ok (<[i:=x]> l).
Proof. unfold store. intros Hi. by rewrite decide_True. Qed.

Lemma indexZ_Ok {E A} (l : list A) (i : nat) x :
  l !! i = Some x -> indexZ (E:=E) l (Z.of_nat i) = Ok x.
Proof.
  intros Hx. unfold indexZ.
  destruct (Z.ltb_spec (Z.of_nat i) 0); [lia|].
  rewrite Nat2Z.id. by apply index_Ok.
Qed.

Lemma rbind_Ok {E A B} (r : result E A) (k : A -> result E B) a :
  r = Ok a -> (r ≫= k) = k a.
Proof. by intros ->. Qed.

(** Reduce the binds whose first computation is a value. *)
Ltac bind_ok := cbn [mbind result_bind rbind].

(** A loop over a list keeps an invariant indexed by the part of the list
    already visited. *)
Lemma foldM_inv {E A B} (f : A -> B -> result E A) (Inv : list B -> A -> Prop)
    (l : list B) (a : A) :
  Inv [] a ->
  (forall pre x post a, l = pre ++ x :: post -> Inv pre a ->
     exists a', f a x = Ok a' /\ Inv (pre ++ [x]) a') ->
  exists a', foldM f l a = Ok a' /\ Inv l a'.
Proof.
  intros H0 Hstep.
  assert (forall post pre a, l = pre ++ post -> Inv pre a ->
            exists a', foldM f post a = Ok a' /\ Inv l a') as Hgen.
  { induction post as [|x post IH]; intros pre a0 Hl Hpre.
    - rewrite app_nil_r in Hl. subst pre. by exists a0.
    - destruct (Hstep pre x post a0 Hl Hpre) as (a1 & Hf & Hinv).
      destruct (IH (pre ++ [x]) a1) as (a2 & Hfold & Hfin).
      + by rewrite <- app_assoc.
      + done.
      + exists a2. split; [|done]. simpl. by rewrite Hf. }
  by apply (Hgen l [] a).
Qed.

Lemma fold_left_inv {A B} (f : A -> B -> A) (Inv : list B -> A -> Prop)
    (l : list B) (a : A) :
  Inv [] a ->
  (forall pre x post a, l = pre ++ x :: post -> Inv pre a -> Inv (pre ++ [x]) (f a x)) ->
  Inv l (fold_left f l a).
Proof.
  intros H0 Hstep.
  assert (forall post pre a, l = pre ++ post -> Inv pre a ->
            Inv l (fold_left f post a)) as Hgen.
  { induction post as [|x post IH]; intros pre a0 Hl Hpre.
    - rewrite app_nil_r in Hl. by subst pre.
    - simpl. apply (IH (pre ++ [x])).
      + by rewrite <- app_assoc.
      + by eapply Hstep. }
  by apply (Hgen l [] a).
Qed.

(** ** Bytes and case folding *)

Definition is_upper (n : nat) : bool := (65 <=? n) && (n <=? 90).

Lemma to_nat_lt b : Byte.to_nat b < 256.
Proof. pose proof (Byte.to_nat_bounded b). lia. Qed.

Lemma to_nat_inj b1 b2 : Byte.to_nat b1 = Byte.to_nat b2 -> b1 = b2.
Proof.
  intros Heq. pose proof (Byte.of_to_nat b1) as H1.
  rewrite Heq, Byte.of_to_nat in H1. congruence.
Qed.

Lemma to_nat_byte_of n : n < 256 -> Byte.to_nat (byte_of n) = n.
Proof.
  intros Hn. unfold byte_of, uint8. rewrite Nat.mod_small by done.
  destruct (Byte.of_nat n) as [b|] eqn:Hb.
  - by apply Byte.to_of_nat.
  - apply Byte.of_nat_None_iff in Hb. lia.
Qed.

Lemma to_nat_toLower b :
  Byte.to_nat (toLower b) =
    if is_upper (Byte.to_nat b) then Byte.to_nat b + 32 else Byte.to_nat b.
Proof.
  unfold toLower, is_upper.
  destruct ((65 <=? Byte.to_nat b) && (Byte.to_nat b <=? 90)) eqn:Hu; [|done].
  apply andb_prop in Hu as [_ H2%Nat.leb_le].
  apply to_nat_byte_of. lia.
Qed.

Lemma toLower_not_upper b : is_upper (Byte.to_nat (toLower b)) = false.
Proof. by destruct b. Qed.

Lemma toLower_idem b : toLower (toLower b) = toLower b.
Proof.
  apply to_nat_inj. rewrite (to_nat_toLower (toLower b)).
  by rewrite toLower_not_upper.
Qed.


(** ** The translation table *)

(** The symbol of a byte. *)
Definition sym (tr : list nat) (b : byte) : nat := tr !!! Byte.to_nat b.

Record xlat_ok (ps : list Pattern) (tr : list nat) (asz : nat) : Prop := {
  xl_len : length tr = 256;
  xl_asz : 1 <= asz <= 231;
  xl_lt : forall b, sym tr b < asz;
  xl_fold : forall b, sym tr (toLower b) = sym tr b;
  xl_used : forall p b, p ∈ ps -> b ∈ Content p -> sym tr b <> 0;
  xl_inj : forall b1 b2,
    sym tr b1 = sym tr b2 -> sym tr b1 <> 0 -> toLower b1 = toLower b2
}.

(** Number of byte values below [n] that are not upper-case letters. *)
Definition non_upper_below (n : nat) : nat := n - (Nat.min n 91 - Nat.min n 65).

Lemma is_upper_false i : is_upper i = false <-> i < 65 \/ 90 < i.
Proof.
  unfold is_upper.
  destruct (Nat.leb_spec 65 i), (Nat.leb_spec i 90); simpl; split; intros; try done; lia.
Qed.

Lemma is_upper_true i : is_upper i = true <-> 65 <= i <= 90.
Proof.
  unfold is_upper.
  destruct (Nat.leb_spec 65 i), (Nat.leb_spec i 90); simpl; split; intros; try done; lia.
Qed.

Lemma count_bytes_spec bs counts :
  let counts' := fold_left count_byte bs counts in
  length counts = 256 ->
  length counts' = 256 /\
  (forall i, counts !!! i <= counts' !!! i) /\
  (forall b, b ∈ bs -> 0 < counts' !!! Byte.to_nat (toLower b)).
Proof.
  revert counts. induction bs as [|b bs IH]; intros counts; simpl; intros Hlen.
  - split; [done|]. split; [done|]. intros b Hb. by apply elem_of_nil in Hb.
  - destruct (IH (count_byte counts b)) as (Hl & Hmono & Hhit).
    { unfold count_byte. by rewrite length_insert. }
    assert (forall i, counts !!! i <= count_byte counts b !!! i) as Hstep.
    { intros i. unfold count_byte.
      destruct (decide (i = Byte.to_nat (toLower b))) as [->|Hne].
      - rewrite list_lookup_total_insert_eq; [lia|].
        rewrite Hlen. apply to_nat_lt.
      - by rewrite list_lookup_total_insert_ne. }
    split; [done|]. split.
    + intros i. etrans; [apply Hstep | apply Hmono].
    + intros b' [->|Hb']%elem_of_cons; [|by apply Hhit].
      eapply Nat.lt_le_trans; [|apply Hmono].
      unfold count_byte. rewrite list_lookup_total_insert_eq; [lia|].
      rewrite Hlen. apply to_nat_lt.
Qed.

Lemma count_patterns_spec ps counts :
  let counts' := fold_left count_pattern ps counts in
  length counts = 256 ->
  length counts' = 256 /\
  (forall i, counts !!! i <= counts' !!! i) /\
  (forall p b, p ∈ ps -> b ∈ Content p -> 0 < counts' !!! Byte.to_nat (toLower b)).
Proof.
  revert counts. induction ps as [|p ps IH]; intros counts; simpl; intros Hlen.
  - split; [done|]. split; [done|]. intros p b Hp. by apply elem_of_nil in Hp.
  - destruct (count_bytes_spec (Content p) counts Hlen) as (Hl1 & Hm1 & Hh1).
    destruct (IH (count_pattern counts p) Hl1) as (Hl & Hmono & Hhit).
    split; [done|]. split.
    + intros i. etrans; [apply Hm1 | apply Hmono].
    + intros p' b [->|Hp']%elem_of_cons Hb; [|by eapply Hhit].
      eapply Nat.lt_le_trans; [by apply Hh1 | apply Hmono].
Qed.

(** The state of the second loop of [initTranslateTable] after the byte
    values below [n]. *)
Definition assigned (counts : list nat) (n : nat) (acc : list nat * nat) : Prop :=
  let '(tr, asz) := acc in
  length tr = 256 /\ 1 <= asz /\ asz <= 1 + non_upper_below n /\
  (forall i, i < n -> is_upper i = false ->
     tr !!! i < asz /\ (0 < counts !!! i -> tr !!! i <> 0)) /\
  (forall i j, i < n -> j < n -> is_upper i = false -> is_upper j = false ->
     tr !!! i = tr !!! j -> tr !!! i <> 0 -> i = j).

Lemma assign_symbol_spec counts tr0 n :
  length tr0 = 256 -> n <= 256 ->
  assigned counts n (fold_left (assign_symbol counts) (seq 0 n) (tr0, 1)).
Proof.
  intros Hlen0. induction n as [|n IH]; intros Hn.
  - simpl. unfold non_upper_below. repeat split; intros; lia.
  - rewrite seq_S, fold_left_app. simpl.
    destruct (fold_left (assign_symbol counts) (seq 0 n) (tr0, 1)) as [tr asz].
    destruct IH as (Hlen & H1 & Hle & Hlt & Hinj); [lia|].
    unfold assign_symbol. fold (is_upper n).
    destruct (is_upper n) eqn:Hu.
    { apply is_upper_true in Hu.
      split; [done|]. split; [done|]. split; [unfold non_upper_below in *; lia|].
      split.
      - intros i Hi Hui. apply Hlt; [|done].
        apply is_upper_false in Hui. lia.
      - intros i j Hi Hj Hui Huj. apply Hinj; try done.
        + apply is_upper_false in Hui. lia.
        + apply is_upper_false in Huj. lia. }
    apply is_upper_false in Hu.
    assert (non_upper_below (S n) = S (non_upper_below n)) as Hnu
      by (unfold non_upper_below; lia).
    assert (asz < 256) as Hasz by (unfold non_upper_below in Hle; lia).
    destruct (Nat.ltb_spec 0 (counts !!! n)) as [Hc|Hc].
    + unfold uint8. rewrite Nat.mod_small by done.
      split; [by rewrite length_insert|]. split; [lia|]. split; [lia|].
      assert (forall i, i < S n -> <[n:=asz]> tr !!! i = if decide (i = n) then asz else tr !!! i)
        as Hlk.
      { intros i Hi. case_decide as Hin.
        - subst i. rewrite list_lookup_total_insert_eq; [done|lia].
        - by rewrite list_lookup_total_insert_ne. }
      split.
      * intros i Hi Hui. rewrite Hlk by done. case_decide; [lia|].
        destruct (Hlt i) as [Ha Hb]; [lia|done|]. split; [lia|done].
      * intros i j Hi Hj Hui Huj. rewrite !Hlk by done.
        repeat case_decide; subst; try done.
        -- intros Heq _. destruct (Hlt j) as [Ha _]; [lia|done|]. lia.
        -- intros Heq _. destruct (Hlt i) as [Ha _]; [lia|done|]. lia.
        -- apply Hinj; try done; lia.
    + split; [by rewrite length_insert|]. split; [lia|]. split; [lia|].
      assert (forall i, i < S n -> <[n:=0]> tr !!! i = if decide (i = n) then 0 else tr !!! i)
        as Hlk.
      { intros i Hi. case_decide as Hin.
        - subst i. rewrite list_lookup_total_insert_eq; [done|lia].
        - by rewrite list_lookup_total_insert_ne. }
      split.
      * intros i Hi Hui. rewrite Hlk by done. case_decide; [subst; split; lia|].
        apply Hlt; [lia|done].
      * intros i j Hi Hj Hui Huj. rewrite !Hlk by done.
        repeat case_decide; subst; try done.
        all: try (intros Heq Hz; exfalso; apply Hz; by rewrite ?Heq).
        apply Hinj; try done; lia.
Qed.

Lemma map_upper_spec tr k :
  length tr = 256 -> k <= 26 ->
  let tr' := fold_left map_upper (seq 65 k) tr in
  length tr' = 256 /\
  forall i, tr' !!! i = if decide (65 <= i < 65 + k) then tr !!! (i + 32) else tr !!! i.
Proof.
  intros Hlen. induction k as [|k IH]; intros Hk; cbv zeta.
  - simpl. split; [done|]. intros i. case_decide; [lia|done].
  - rewrite seq_S, fold_left_app. cbn [fold_left].
    destruct IH as [Hl Hlk]; [lia|]. unfold map_upper in *.
    split; [by rewrite length_insert|].
    intros i. destruct (decide (i = 65 + k)) as [->|Hne].
    + rewrite list_lookup_total_insert_eq by (rewrite Hl; lia).
      rewrite Hlk. rewrite decide_False by lia. by rewrite decide_True by lia.
    + rewrite list_lookup_total_insert_ne by done. rewrite Hlk.
      repeat case_decide; try done; lia.
Qed.

Lemma initTranslateTable_ok ps tr0 :
  length tr0 = 256 ->
  xlat_ok ps (initTranslateTable ps tr0).1 (initTranslateTable ps tr0).2.
Proof.
  intros Hlen0. unfold initTranslateTable.
  set (counts := fold_left count_pattern ps (replicate 256 0)).
  destruct (count_patterns_spec ps (replicate 256 0)) as (Hcl & _ & Hhit).
  { by rewrite length_replicate. }
  fold counts in Hcl, Hhit.
  pose proof (assign_symbol_spec counts tr0 256 Hlen0 (le_n _)) as Has.
  destruct (fold_left (assign_symbol counts) (seq 0 256) (tr0, 1)) as [tr asz].
  destruct Has as (Hlen & H1 & Hle & Hlt & Hinj).
  destruct (map_upper_spec tr 26 Hlen (le_n _)) as [Hl' Hlk].
  cbv beta iota zeta delta [fst snd].
  set (tr' := fold_left map_upper (seq 65 26) tr) in *.
  assert (forall b, sym tr' b = tr !!! Byte.to_nat (toLower b)) as Hsym.
  { intros b. unfold sym. rewrite Hlk, to_nat_toLower.
    destruct (is_upper (Byte.to_nat b)) eqn:Hu.
    - apply is_upper_true in Hu. by rewrite decide_True by lia.
    - apply is_upper_false in Hu. by rewrite decide_False by lia. }
  split.
  - done.
  - unfold non_upper_below in Hle. lia.
  - intros b. rewrite Hsym. apply Hlt; [apply to_nat_lt | apply toLower_not_upper].
  - intros b. by rewrite !Hsym, toLower_idem.
  - intros p b Hp Hb. rewrite Hsym.
    apply Hlt; [apply to_nat_lt | apply toLower_not_upper | by eapply Hhit].
  - intros b1 b2. rewrite !Hsym. intros Heq Hnz.
    apply to_nat_inj. apply Hinj; try done;
      try apply to_nat_lt; apply toLower_not_upper.
Qed.


(** ** Tries, suffix links and the dense transition function *)

(** [paths] gives, for each state, the word of symbols that leads to it
    from the root. *)
Record trie_wf (trie : gmap nat (gmap nat nat)) (paths : list (list nat)) : Prop := {
  twf_root : paths !! 0 = Some [];
  twf_nodup : NoDup paths;
  twf_edge : forall s c s',
    trie_get trie s c = Some s' <->
    exists w, paths !! s = Some w /\ paths !! s' = Some (w ++ [c]);
  twf_closed : forall s w c,
    paths !! s = Some (w ++ [c]) -> exists r, paths !! r = Some w;
  twf_depth : forall s w, paths !! s = Some w -> length w <= s
}.

(** [t] is the state of the longest suffix of [x] that is a word of the
    trie. *)
Definition longest_node (paths : list (list nat)) (x : list nat) (t : nat) : Prop :=
  exists v, paths !! t = Some v /\ v `suffix_of` x /\
    forall t' v', paths !! t' = Some v' -> v' `suffix_of` x -> length v' <= length v.

(** The failure link of [s] is right. *)
Definition fail_ok (paths : list (list nat)) (failure : list nat) (s : nat) : Prop :=
  forall w, paths !! s = Some w -> w <> [] ->
    longest_node paths (tail w) (failure !!! s).

Section Trie.

Variable trie : gmap nat (gmap nat nat).
Variable paths : list (list nat).
Hypothesis wf : trie_wf trie paths.

Lemma path_inj s1 s2 w : paths !! s1 = Some w -> paths !! s2 = Some w -> s1 = s2.
Proof. apply NoDup_lookup, wf. Qed.

Lemma path_root s : paths !! s = Some [] -> s = 0.
Proof. intros Hs. eapply path_inj; [done | apply wf]. Qed.

Lemma trie_get_path s c s' w :
  trie_get trie s c = Some s' -> paths !! s = Some w -> paths !! s' = Some (w ++ [c]).
Proof.
  intros Hg Hs. apply (twf_edge _ _ wf) in Hg as (w' & Hs' & Ht). congruence.
Qed.

Lemma trie_get_None s c w t :
  trie_get trie s c = None -> paths !! s = Some w -> paths !! t <> Some (w ++ [c]).
Proof.
  intros Hg Hs Ht.
  assert (trie_get trie s c = Some t) as Hg'; [|congruence].
  apply (twf_edge _ _ wf). eauto.
Qed.

Lemma suffix_of_shorter (v1 v2 x : list nat) :
  v1 `suffix_of` x -> v2 `suffix_of` x -> length v1 <= length v2 -> v1 `suffix_of` v2.
Proof.
  intros H1 H2 Hlen. destruct (suffix_weak_total _ _ _ H1 H2) as [|Hs]; [done|].
  by rewrite (suffix_length_eq _ _ Hs Hlen).
Qed.

Lemma longest_node_lt x t : longest_node paths x t -> t < length paths.
Proof. intros (v & Hv & _). by eapply lookup_lt_Some. Qed.

Lemma longest_node_unique x t1 t2 :
  longest_node paths x t1 -> longest_node paths x t2 -> t1 = t2.
Proof.
  intros (v1 & Hv1 & Hs1 & Hm1) (v2 & Hv2 & Hs2 & Hm2).
  pose proof (Hm1 _ _ Hv2 Hs2). pose proof (Hm2 _ _ Hv1 Hs1).
  assert (v1 = v2) as ->.
  { apply suffix_length_eq; [|lia]. apply (suffix_of_shorter _ _ x); try done; lia. }
  by eapply path_inj.
Qed.

Lemma longest_node_nil : longest_node paths [] 0.
Proof.
  exists []. split; [apply wf|]. split; [done|].
  intros t' v' _ Hs%suffix_nil_inv. by subst.
Qed.

Lemma longest_node_self s w : paths !! s = Some w -> longest_node paths w s.
Proof.
  intros Hs. exists w. split; [done|]. split; [done|].
  intros t' v' _. apply suffix_length.
Qed.

(** Every word of the trie that is a suffix of [x] is a suffix of the
    longest one. *)
Lemma longest_node_suffix x t v t' v' :
  longest_node paths x t -> paths !! t = Some v ->
  paths !! t' = Some v' -> v' `suffix_of` x -> v' `suffix_of` v.
Proof.
  intros (v0 & Hv0 & Hs & Hm) Hv Hv' Hs'. simplify_eq.
  apply (suffix_of_shorter _ _ x); eauto.
Qed.

(** One more symbol: the longest node of [x ++ [c]] is found from the
    longest node of [x]. *)
Lemma longest_node_step x s w c t :
  longest_node paths x s -> paths !! s = Some w ->
  longest_node paths (w ++ [c]) t -> longest_node paths (x ++ [c]) t.
Proof.
  intros Hx Hw (v & Hv & Hs & Hm).
  assert (w `suffix_of` x) as Hwx.
  { destruct Hx as (w' & Hw' & ? & _). congruence. }
  exists v. split; [done|]. split.
  { etrans; [done|]. by apply suffix_snoc. }
  intros t' v' Hv' Hs'.
  destruct (decide (v' = [])) as [->|Hne]; [simpl; lia|].
  destruct (exists_last Hne) as (v'' & c' & ->).
  pose proof (suffix_snoc_inv_1 _ _ _ _ Hs') as ->.
  apply suffix_snoc_inv_2 in Hs'.
  destruct (twf_closed _ _ wf _ _ _ Hv') as (r & Hr).
  apply (Hm t'); [done|]. apply suffix_snoc.
  by eapply longest_node_suffix.
Qed.

(** The words below the longest node. *)
Lemma longest_node_tail a w c t :
  (forall t', paths !! t' <> Some ((a :: w) ++ [c])) ->
  longest_node paths (w ++ [c]) t -> longest_node paths ((a :: w) ++ [c]) t.
Proof.
  intros Hnot (v & Hv & Hs & Hm).
  exists v. split; [done|]. split; [by apply suffix_cons_r|].
  intros t' v' Hv' Hs'.
  destruct v' as [|b v']; [simpl; lia|].
  simpl in Hs'. apply suffix_cons_inv in Hs' as [Heq|Hs'].
  - exfalso. apply (Hnot t'). by rewrite Hv', Heq.
  - by apply (Hm t').
Qed.

Lemma fail_ok_shorter failure s w :
  fail_ok paths failure s -> paths !! s = Some w -> w <> [] ->
  exists v, paths !! (failure !!! s) = Some v /\ v `suffix_of` tail w /\
            length v < length w.
Proof.
  intros Hf Hs Hne. destruct (Hf w Hs Hne) as (v & Hv & Hsuf & _).
  exists v. split; [done|]. split; [done|].
  apply suffix_length in Hsuf. destruct w; [done|]. simpl in *. lia.
Qed.

(** The walk along the failure links finds the transition. *)
Lemma delta_loop_spec failure fuel c curr w :
  length failure = length paths ->
  paths !! curr = Some w ->
  (forall s v, paths !! s = Some v -> length v <= length w -> fail_ok paths failure s) ->
  length w < fuel ->
  exists t, delta_loop fuel trie failure c curr = Ok t /\
            longest_node paths (w ++ [uint8 c]) t.
Proof.
  intros Hlen. revert curr w.
  induction fuel as [|fuel IH]; intros curr w Hw Hfail Hfuel; [lia|].
  simpl. destruct (trie_get trie curr (uint8 c)) as [val|] eqn:Hg.
  { exists val. split; [done|]. apply longest_node_self. by eapply trie_get_path. }
  destruct (Nat.eqb_spec curr 0) as [->|Hnz].
  { exists 0. split; [done|].
    pose proof (twf_root _ _ wf) as H0. simplify_eq. simpl.
    exists []. split; [done|]. split; [apply suffix_nil|].
    intros t' v' Hv' Hs'. destruct v' as [|b v']; [done|].
    apply suffix_cons_inv in Hs' as [Heq|Hs'].
    - exfalso. eapply (trie_get_None 0); [done..|]. by rewrite Hv', Heq.
    - apply suffix_nil_inv in Hs'. done. }
  assert (w <> []) as Hne.
  { intros ->. by apply Hnz, path_root. }
  destruct (fail_ok_shorter failure curr w) as (v & Hv & Hsuf & Hlt);
    [by eapply Hfail | done | done |].
  rewrite (index_total failure curr); [|rewrite Hlen; by eapply lookup_lt_Some].
  simpl. destruct (IH (failure !!! curr) v) as (t & Hrun & Ht).
  - done.
  - intros s v' Hs Hle. eapply Hfail; [done|lia].
  - lia.
  - exists t. split; [done|].
    destruct w as [|a w]; [done|]. simpl in *.
    apply longest_node_tail.
    { intros t'. by eapply trie_get_None. }
    apply (longest_node_step w (failure !!! curr) v); [|done..].
    apply (Hfail curr _ Hw (le_n _) _ Hw Hne).
Qed.

Lemma fail_loop_delta_loop failure fuel next c f :
  c < 256 ->
  fail_loop fuel trie failure next c f =
    delta_loop fuel trie failure c f ≫= store failure next.
Proof.
  intros Hc. revert f. induction fuel as [|fuel IH]; intros f; [done|].
  simpl. unfold uint8. rewrite Nat.mod_small by done.
  destruct (trie_get trie f c); [done|].
  destruct (f =? 0); [done|].
  destruct (index failure f) as [f'|e| |]; simpl; [apply IH|done..].
Qed.

End Trie.


(** ** The goto function (the trie of the patterns) *)

(** The word of symbols of a pattern. *)
Definition tword (tr : list nat) (bs : list byte) : list nat :=
  map (fun b => sym tr (toLower b)) bs.

(** The patterns among the first [m] whose word is [w], in order. *)
Definition owners (tr : list nat) (ps : list Pattern) (m : nat) (w : list nat)
  : list nat :=
  filter (fun k => (tword tr ∘ Content) <$> ps !! k = Some w) (seq 0 m).

(** What the first loop of [buildStateMachine] has established after the
    first [m] patterns. *)
Record goto_inv (tr : list nat) (asz : nat) (ps : list Pattern) (m : nat)
    (g : goto) (paths : list (list nat)) : Prop := {
  gi_wf : trie_wf (g_trie g) paths;
  gi_count : length paths = g_count g;
  gi_out_len : length (g_out g) = g_count g;
  gi_label : forall s c s', trie_get (g_trie g) s c = Some s' -> c < asz;
  gi_nodes : forall k p, k < m -> ps !! k = Some p -> tword tr (Content p) ∈ paths;
  gi_out : forall s w, paths !! s = Some w -> g_out g !! s = Some (owners tr ps m w)
}.

Lemma owners_S tr ps m w :
  owners tr ps (S m) w =
    owners tr ps m w ++
    (if decide ((tword tr ∘ Content) <$> ps !! m = Some w) then [m] else []).
Proof.
  unfold owners. rewrite seq_S, filter_app. by f_equal.
Qed.

Lemma owners_lt tr ps m w k : k ∈ owners tr ps m w -> k < m.
Proof.
  unfold owners. intros [_ Hk%elem_of_seq]%list_elem_of_filter. lia.
Qed.

Lemma owners_nil tr ps m w :
  (forall k p, k < m -> ps !! k = Some p -> tword tr (Content p) <> w) ->
  owners tr ps m w = [].
Proof.
  intros Hno. unfold owners. induction m as [|m IH]; [done|].
  rewrite seq_S, filter_app, IH by (intros k p ? ?; apply (Hno k p); [lia|done]).
  change (seq (0 + m) 1) with [m].
  rewrite filter_cons, filter_nil. case_decide as Hm; [|done].
  change (0 + m) with m in *.
  destruct (ps !! m) as [p|] eqn:Hp; [|done].
  simpl in Hm. exfalso. eapply (Hno m p); [lia|done|congruence].
Qed.

Lemma elem_of_owners tr ps m w k :
  k ∈ owners tr ps m w <->
  k < m /\ exists p, ps !! k = Some p /\ tword tr (Content p) = w.
Proof.
  unfold owners. rewrite list_elem_of_filter, elem_of_seq. split.
  - intros [Hk ?]. split; [lia|].
    destruct (ps !! k) as [p|]; [|done]. exists p. split; [done|].
    simpl in Hk. congruence.
  - intros [? (p & Hp & Hw)]. split; [|lia]. rewrite Hp. simpl. by rewrite Hw.
Qed.

Lemma NoDup_owners tr ps m w : NoDup (owners tr ps m w).
Proof. apply NoDup_filter, NoDup_seq. Qed.

(** Reading the trie after one edge was added. *)
Lemma trie_get_insert trie s c n s' c' :
  trie_get (<[s := <[c := n]> (default ∅ (trie !! s))]> trie) s' c' =
    if decide (s' = s /\ c' = c) then Some n else trie_get trie s' c'.
Proof.
  unfold trie_get. destruct (decide (s' = s)) as [->|Hs].
  - rewrite lookup_insert_eq. simpl.
    destruct (decide (c' = c)) as [->|Hc].
    + rewrite lookup_insert_eq. by rewrite decide_True.
    + rewrite lookup_insert_ne by done. rewrite decide_False by naive_solver.
      destruct (trie !! s); simpl; [done|]. apply lookup_empty.
  - rewrite lookup_insert_ne by done. by rewrite decide_False by naive_solver.
Qed.

(** [goto_byte] either follows an edge or adds one. *)
Lemma goto_byte_eq tr trie count out cur b :
  let c := sym tr (toLower b) in
  goto_byte tr (mkGoto trie count out, cur) b =
    match trie_get trie cur c with
    | Some next => (mkGoto trie count out, next)
    | None =>
        (mkGoto (<[cur := <[c := count]> (default ∅ (trie !! cur))]> trie)
                (S count) (out ++ [[]]), count)
    end.
Proof.
  intros c. unfold goto_byte, sym in *. simpl. fold c.
  destruct (trie !! cur) as [m|] eqn:Hm.
  - destruct (trie_get trie cur c); [done|]. by rewrite Hm.
  - assert (trie_get trie cur c = None) as -> by (unfold trie_get; by rewrite Hm).
    assert (trie_get (<[cur:=∅]> trie) cur c = None) as ->.
    { unfold trie_get. rewrite lookup_insert_eq. simpl. apply lookup_empty. }
    f_equal. f_equal. rewrite lookup_insert_eq. simpl.
    by rewrite insert_insert_eq.
Qed.

(** The state of the loop over the bytes of pattern [m]: [x] is the word
    read so far and [cur] its state. *)
Record byte_inv (tr : list nat) (asz : nat) (ps : list Pattern) (m : nat)
    (g : goto) (cur : nat) (paths : list (list nat)) (x : list nat) : Prop := {
  bi_goto : goto_inv tr asz ps m g paths;
  bi_cur : paths !! cur = Some x
}.

Lemma goto_byte_inv tr asz ps m g cur paths x b :
  sym tr (toLower b) < asz ->
  byte_inv tr asz ps m g cur paths x ->
  exists paths',
    byte_inv tr asz ps m (goto_byte tr (g, cur) b).1 (goto_byte tr (g, cur) b).2
             paths' (x ++ [sym tr (toLower b)]).
Proof.
  intros Hc [[Hwf Hcount Hol Hlab Hnodes Hout] Hcur].
  destruct g as [trie count out]. rewrite goto_byte_eq. simpl in *.
  set (c := sym tr (toLower b)) in *.
  destruct (trie_get trie cur c) as [next|] eqn:Hg; simpl.
  { exists paths. split; [by split|]. by eapply trie_get_path. }
  assert (forall t, paths !! t <> Some (x ++ [c])) as Hfresh.
  { intros t. by eapply trie_get_None. }
  assert (cur < length paths) as Hcurlt by (by eapply lookup_lt_Some).
  exists (paths ++ [x ++ [c]]).
  assert (forall s w, (paths ++ [x ++ [c]]) !! s = Some w ->
            (s < count /\ paths !! s = Some w) \/ (s = count /\ w = x ++ [c])) as Hlk.
  { intros s w Hs. apply lookup_snoc_Some in Hs as [[? ?]|[? ?]]; [left|right].
    - split; [lia|done].
    - split; [lia|done]. }
  split; [split|]; simpl.
  - (* the trie is well formed *)
    split.
    + apply lookup_app_l_Some, Hwf.
    + apply NoDup_app. split; [apply Hwf|]. split; [|apply NoDup_singleton].
      intros w Hw ->%list_elem_of_singleton.
      apply list_elem_of_lookup in Hw as [t Ht]. by eapply Hfresh.
    + intros s c' s'. rewrite trie_get_insert. case_decide as Hd.
      * destruct Hd as [-> ->]. split.
        -- intros [= <-]. exists x. split; [by apply lookup_app_l_Some|].
           rewrite lookup_app_r by lia. by rewrite Hcount, Nat.sub_diag.
        -- intros (w & Hs & Hs').
           apply Hlk in Hs as [[_ Hs]|[-> ->]]; [|lia]. simplify_eq.
           apply Hlk in Hs' as [[_ Hs']|[-> _]]; [|done].
           by apply Hfresh in Hs'.
      * split.
        -- intros Hg'. apply (twf_edge _ _ Hwf) in Hg' as (w & Hs & Hs').
           exists w. split; by apply lookup_app_l_Some.
        -- intros (w & Hs & Hs').
           apply Hlk in Hs' as [[_ Hs']|[-> Heq]].
           ++ apply Hlk in Hs as [[_ Hs]|[-> ->]].
              ** apply (twf_edge _ _ Hwf). eauto.
              ** destruct (twf_closed _ _ Hwf _ _ _ Hs') as (r & Hr).
                 by apply Hfresh in Hr.
           ++ apply app_inj_tail in Heq as [-> ->].
              apply Hlk in Hs as [[_ Hs]|[-> Heq]].
              ** exfalso. apply Hd. split; [|done]. by eapply path_inj.
              ** exfalso. apply (f_equal length) in Heq.
                 rewrite length_app in Heq. simpl in Heq. lia.
    + intros s w c' Hs. apply Hlk in Hs as [[_ Hs]|[-> Heq]].
      * destruct (twf_closed _ _ Hwf _ _ _ Hs) as (r & Hr).
        exists r. by apply lookup_app_l_Some.
      * apply app_inj_tail in Heq as [-> ->]. exists cur. by apply lookup_app_l_Some.
    + intros s w Hs. apply Hlk in Hs as [[_ Hs]|[-> ->]].
      * by apply (twf_depth _ _ Hwf).
      * pose proof (twf_depth _ _ Hwf _ _ Hcur). rewrite length_app. simpl. lia.
  - rewrite length_app. simpl. lia.
  - rewrite length_app. simpl. lia.
  - intros s c' s'. rewrite trie_get_insert. case_decide as Hd.
    + destruct Hd as [_ ->]. done.
    + apply Hlab.
  - intros k p Hk Hp. apply elem_of_app. left. by eapply Hnodes.
  - intros s w Hs. apply Hlk in Hs as [[Hlt Hs]|[-> ->]].
    + rewrite lookup_app_l by lia. by apply Hout.
    + rewrite lookup_app_r by lia. rewrite Hol, Nat.sub_diag. simpl. f_equal.
      symmetry. apply owners_nil. intros k p Hk Hp Heq.
      pose proof (Hnodes k p Hk Hp) as Hin. rewrite Heq in Hin.
      apply list_elem_of_lookup in Hin as [t Ht]. by eapply Hfresh.
  - rewrite lookup_app_r by lia. by rewrite Hcount, Nat.sub_diag.
Qed.

Lemma goto_bytes_inv tr asz ps m bs g cur paths x :
  (forall b, sym tr b < asz) ->
  byte_inv tr asz ps m g cur paths x ->
  exists paths',
    byte_inv tr asz ps m (fold_left (goto_byte tr) bs (g, cur)).1
             (fold_left (goto_byte tr) bs (g, cur)).2 paths' (x ++ tword tr bs).
Proof.
  intros Hlt. revert g cur paths x.
  induction bs as [|b bs IH]; intros g cur paths x Hinv; cbn [fold_left].
  - exists paths. simpl. by rewrite app_nil_r.
  - destruct (goto_byte_inv tr asz ps m g cur paths x b (Hlt _) Hinv) as (paths1 & H1).
    destruct (goto_byte tr (g, cur) b) as [g1 cur1] eqn:Hstep.
    destruct (IH _ _ _ _ H1) as (paths2 & H2).
    exists paths2. simpl in H2. by rewrite <- app_assoc in H2.
Qed.

Lemma goto_pattern_inv tr asz ps m p g paths :
  (forall b, sym tr b < asz) ->
  ps !! m = Some p ->
  goto_inv tr asz ps m g paths ->
  exists g' paths',
    goto_pattern tr g (m, p) = Ok g' /\ goto_inv tr asz ps (S m) g' paths'.
Proof.
  intros Hlt Hp Hinv.
  destruct (goto_bytes_inv tr asz ps m (Content p) g 0 paths [] Hlt) as (paths' & Hb).
  { split; [done|]. apply Hinv. }
  unfold goto_pattern. simpl in *.
  destruct (fold_left (goto_byte tr) (Content p) (g, 0)) as [g1 cur].
  destruct Hb as [[Hwf Hcount Hol Hlab Hnodes Hout] Hcur]. simpl in *.
  pose proof (Hout _ _ Hcur) as Hocur.
  rewrite (index_Ok _ _ _ Hocur). simpl.
  rewrite store_Ok by (by eapply lookup_lt_Some). simpl.
  eexists _, paths'. split; [done|].
  split; simpl; try done.
  - by rewrite length_insert.
  - intros k p' Hk Hp'. destruct (decide (k = m)) as [->|Hne].
    + simplify_eq. by eapply list_elem_of_lookup_2.
    + apply (Hnodes k); [lia|done].
  - intros s w Hs. rewrite owners_S, Hp. simpl.
    destruct (decide (s = cur)) as [->|Hne].
    + simplify_eq. rewrite list_lookup_insert_eq by (by eapply lookup_lt_Some).
      by rewrite decide_True.
    + rewrite list_lookup_insert_ne by done.
      rewrite decide_False, app_nil_r; [by apply Hout|].
      intros [= Heq]. apply Hne. eapply path_inj; [done..|]. by rewrite <- Heq.
Qed.

Lemma zip_seq_middle {A} (l : list A) pre k (x : A) post :
  zip (seq 0 (length l)) l = pre ++ (k, x) :: post ->
  k = length pre /\ l !! k = Some x.
Proof.
  intros Hz.
  assert (zip (seq 0 (length l)) l !! length pre = Some (k, x)) as Hlk.
  { rewrite Hz. apply list_lookup_middle. done. }
  apply lookup_zip_with_Some in Hlk as (k' & x' & [= -> ->] & Hk & Hx).
  apply lookup_seq in Hk as [-> _]. done.
Qed.

Lemma trie_wf_init : trie_wf ∅ [[]].
Proof.
  split.
  - done.
  - apply NoDup_singleton.
  - intros s c s'. unfold trie_get. rewrite lookup_empty. simpl. split; [done|].
    intros (w & _ & Hs'). apply list_lookup_singleton_Some in Hs' as [_ Hw].
    by destruct w.
  - intros s w c Hs. apply list_lookup_singleton_Some in Hs as [_ Hw].
    by destruct w.
  - intros s w Hs. apply list_lookup_singleton_Some in Hs as [_ <-]. simpl. lia.
Qed.

Lemma build_goto_ok tr asz ps :
  (forall b, sym tr b < asz) ->
  exists g paths,
    build_goto tr ps = Ok g /\ goto_inv tr asz ps (length ps) g paths.
Proof.
  intros Hlt. unfold build_goto.
  destruct (foldM_inv (goto_pattern tr)
              (fun pre g => exists paths, goto_inv tr asz ps (length pre) g paths)
              (zip (seq 0 (length ps)) ps) (mkGoto ∅ 1 [[]])) as (g & Hg & paths & Hinv).
  - exists [[]]. split; simpl; try done.
    + apply trie_wf_init.
    + intros k p Hk. lia.
    + intros s w Hs. apply list_lookup_singleton_Some in Hs as [-> <-]. done.
  - intros pre [k p] post g Hz (paths & Hinv).
    apply zip_seq_middle in Hz as [-> Hp].
    destruct (goto_pattern_inv tr asz ps _ p g paths Hlt Hp Hinv) as (g' & paths' & Hg' & Hinv').
    exists g'. split; [done|]. exists paths'. rewrite length_app. simpl.
    by rewrite Nat.add_1_r.
  - exists g, paths. split; [done|].
    rewrite length_zip, length_seq, Nat.min_id in Hinv. done.
Qed.


(** ** The failure links and the merged output sets *)

(** The states whose failure link and output set are final: those of
    depth at most [d], and the states of [L2] (depth [d + 1]) reached so
    far. *)
Definition reached (d : nat) (L2 : list nat) (s : nat) (w : list nat) : Prop :=
  1 <= length w <= d \/ s ∈ L2.

Definition linked (paths : list (list nat)) (own : list (list nat))
    (failure : list nat) (out : list (list nat)) (s : nat) (w : list nat) : Prop :=
  fail_ok paths failure s /\
  out !! s =
    Some (own !!! s ++ (if decide (length w <= 1) then [] else out !!! (failure !!! s))).

Record links_inv (paths : list (list nat)) (own : list (list nat)) (d : nat)
    (L2 : list nat) (failure : list nat) (out : list (list nat)) : Prop := {
  li_flen : length failure = length paths;
  li_olen : length out = length paths;
  li_done : forall s w, paths !! s = Some w -> reached d L2 s w ->
              linked paths own failure out s w;
  li_todo : forall s w, paths !! s = Some w -> ~ reached d L2 s w ->
              out !! s = own !! s
}.

(** The queue of the breadth-first loop is [L1 ++ L2]: the states of depth
    [d] still to be dequeued, then the children of those already
    dequeued. *)
Record queue_inv (trie : gmap nat (gmap nat nat)) (paths : list (list nat))
    (d : nat) (processed L1 L2 : list nat) : Prop := {
  qi_d : 1 <= d;
  qi_nodup : NoDup (processed ++ L1 ++ L2);
  qi_proc : forall s, s ∈ processed -> exists w, paths !! s = Some w /\ 1 <= length w <= d;
  qi_L1 : forall s, s ∈ L1 -> exists w, paths !! s = Some w /\ length w = d;
  qi_L2 : forall s, s ∈ L2 -> exists w, paths !! s = Some w /\ length w = S d;
  qi_level : forall r w c s, paths !! r = Some w -> length w = d ->
               trie_get trie r c = Some s -> r ∈ L1 \/ s ∈ L2;
  qi_fresh : forall r c s, r ∈ L1 -> trie_get trie r c = Some s -> s ∉ L2
}.

Section Failure.

Variable range_order : list (nat * nat) -> list (nat * nat).
Hypothesis range_order_perm : forall l, range_order l ≡ₚ l.

Variable trie : gmap nat (gmap nat nat).
Variable paths : list (list nat).
Variable own : list (list nat).
Hypothesis wf : trie_wf trie paths.
Hypothesis own_len : length own = length paths.
Hypothesis label_lt : forall s c s', trie_get trie s c = Some s' -> c < 256.

Lemma node_parent s w c :
  paths !! s = Some (w ++ [c]) ->
  exists r, paths !! r = Some w /\ trie_get trie r c = Some s.
Proof.
  intros Hs. destruct (twf_closed _ _ wf _ _ _ Hs) as (r & Hr).
  exists r. split; [done|]. apply (twf_edge _ _ wf). eauto.
Qed.

Lemma node_prefix s u v : paths !! s = Some (u ++ v) -> exists r, paths !! r = Some u.
Proof.
  revert s. induction v as [|c v IH] using rev_ind; intros s Hs.
  - rewrite app_nil_r in Hs. eauto.
  - rewrite app_assoc in Hs. apply node_parent in Hs as (r & Hr & _). eauto.
Qed.

Lemma parent_unique r c r' c' s :
  trie_get trie r c = Some s -> trie_get trie r' c' = Some s -> r = r' /\ c = c'.
Proof.
  intros (w & Hr & Hs)%(twf_edge _ _ wf) (w' & Hr' & Hs')%(twf_edge _ _ wf).
  rewrite Hs in Hs'. injection Hs' as Heq.
  apply app_inj_tail in Heq as [-> ->]. split; [|done]. by eapply path_inj.
Qed.

Lemma children_elem r transitions c s :
  trie !! r = Some transitions ->
  (c, s) ∈ range_order (map_to_list transitions) <-> trie_get trie r c = Some s.
Proof.
  intros Hr. rewrite range_order_perm, elem_of_map_to_list.
  unfold trie_get. by rewrite Hr.
Qed.

Lemma children_NoDup r transitions :
  trie !! r = Some transitions ->
  NoDup (range_order (map_to_list transitions)).*2.
Proof.
  intros Hr. apply NoDup_fmap_2_strong.
  - intros [c1 s1] [c2 s2] H1 H2 Heq. simpl in Heq. subst s2.
    apply (children_elem r _ _ _ Hr) in H1, H2.
    destruct (parent_unique _ _ _ _ _ H1 H2) as [_ ->]. done.
  - rewrite range_order_perm. apply NoDup_map_to_list.
Qed.

Lemma no_children r : trie !! r = None -> forall c, trie_get trie r c = None.
Proof. intros Hr c. unfold trie_get. by rewrite Hr. Qed.

Lemma fail_ok_insert failure s t x :
  x <> s -> fail_ok paths (<[s:=t]> failure) x <-> fail_ok paths failure x.
Proof.
  intros Hne. unfold fail_ok. by rewrite list_lookup_total_insert_ne.
Qed.

(** One child of the dequeued state (lines 151-170). *)
Lemma bfs_child_spec d L2 r w c s queue failure out :
  1 <= d ->
  paths !! r = Some w -> length w = d ->
  trie_get trie r c = Some s ->
  s ∉ L2 ->
  (forall x, x ∈ L2 -> exists v, paths !! x = Some v /\ length v = S d) ->
  links_inv paths own d L2 failure out ->
  exists failure' out',
    bfs_child (S (length paths)) trie r (queue, failure, out) (c, s)
      = Ok (queue ++ [s], failure', out') /\
    links_inv paths own d (L2 ++ [s]) failure' out'.
Proof.
  intros Hd Hr Hw Hg HsL2 HL2 [Hfl Hol Hdone Htodo].
  assert (w <> []) as Hne by (intros ->; simpl in *; lia).
  assert (r < length paths) as Hrlt by (by eapply lookup_lt_Some).
  pose proof (trie_get_path _ _ wf _ _ _ _ Hg Hr) as Hs.
  assert (s < length paths) as Hslt by (by eapply lookup_lt_Some).
  assert (forall x v, paths !! x = Some v -> length v <= d -> fail_ok paths failure x) as Hfok.
  { intros x v Hx Hle. destruct (decide (v = [])) as [->|Hv].
    - intros v' Hx' Hne'. congruence.
    - apply (Hdone x v Hx). left. destruct v; [done|]. simpl in *. lia. }
  pose proof (Hfok r w Hr ltac:(lia)) as Hfr.
  destruct (fail_ok_shorter paths failure r w Hfr Hr Hne) as (v0 & Hv0 & Hsuf0 & Hlt0).
  set (f0 := failure !!! r) in *.
  destruct (delta_loop_spec trie paths wf failure (S (length paths)) c f0 v0)
    as (t & Hwalk & Ht); try done.
  { intros x v Hx Hle. apply (Hfok x v Hx). lia. }
  { pose proof (twf_depth _ _ wf _ _ Hv0).
    assert (f0 < length paths) by (by eapply lookup_lt_Some). lia. }
  unfold uint8 in Ht. rewrite Nat.mod_small in Ht by (by eapply label_lt).
  assert (longest_node paths (tail w ++ [c]) t) as Hlong.
  { apply (longest_node_step trie paths wf (tail w) f0 v0); [|done..].
    by apply Hfr. }
  assert (t < length paths) as Htlt by (by eapply longest_node_lt).
  assert (exists vt, paths !! t = Some vt /\ length vt <= d) as (vt & Hvt & Hvtlen).
  { destruct Hlong as (vt & Hvt & Hsuf & _). exists vt. split; [done|].
    apply suffix_length in Hsuf. rewrite length_app in Hsuf.
    destruct w; [done|]. simpl in *. lia. }
  assert (t <> s) as Hts.
  { intros ->. rewrite Hs in Hvt. injection Hvt as <-.
    rewrite length_app in Hvtlen. simpl in Hvtlen. lia. }
  assert (~ reached d L2 s (w ++ [c])) as Hnot.
  { intros [Hle|Hin]; [|done]. rewrite length_app in Hle. simpl in Hle. lia. }
  pose proof (Htodo _ _ Hs Hnot) as Hos.
  exists (<[s:=t]> failure), (<[s:=own !!! s ++ out !!! t]> out).
  split.
  { unfold bfs_child.
    rewrite (index_total failure r) by lia. bind_ok. fold f0.
    rewrite (fail_loop_delta_loop trie failure _ s c f0) by (by eapply label_lt).
    rewrite Hwalk. bind_ok.
    rewrite store_Ok by lia. bind_ok.
    rewrite (index_total out s) by lia. bind_ok.
    rewrite (index_Ok (<[s:=t]> failure) s t)
      by (apply list_lookup_insert_eq; lia). bind_ok.
    rewrite (index_total out t) by lia. bind_ok.
    rewrite store_Ok by lia. bind_ok.
    do 3 f_equal. rewrite !list_lookup_total_alt, Hos. done. }
  split.
  - by rewrite length_insert.
  - by rewrite length_insert.
  - intros x v Hx Hreach. destruct (decide (x = s)) as [->|Hxs].
    + rewrite Hs in Hx. injection Hx as <-. split.
      * intros w' Hs' Hne'. rewrite Hs in Hs'. injection Hs' as <-.
        rewrite list_lookup_total_insert_eq by lia.
        destruct w; [done|]. done.
      * rewrite list_lookup_insert_eq by lia. f_equal. f_equal.
        rewrite decide_False by (rewrite length_app; simpl; lia).
        rewrite list_lookup_total_insert_eq by lia.
        by rewrite list_lookup_total_insert_ne.
    + assert (reached d L2 x v) as Hold.
      { destruct Hreach as [?|Hin]; [by left|].
        apply elem_of_app in Hin as [?|Hin%list_elem_of_singleton]; [by right|done]. }
      destruct (Hdone x v Hx Hold) as [Hfx Hox]. split.
      * by apply fail_ok_insert.
      * rewrite list_lookup_insert_ne by done. rewrite Hox. f_equal. f_equal.
        case_decide as Hlen; [done|].
        rewrite (list_lookup_total_insert_ne failure s x) by done.
        rewrite list_lookup_total_insert_ne; [done|].
        assert (v <> []) as Hv by (intros ->; simpl in *; lia).
        destruct (fail_ok_shorter paths failure x v Hfx Hx Hv) as (u & Hu & _ & Hult).
        intros Heq. rewrite Heq, Hu in Hs. injection Hs as ->.
        rewrite length_app in Hult. simpl in Hult.
        destruct Hold as [?|Hin]; [lia|].
        destruct (HL2 x Hin) as (v' & Hx' & Hlen'). simplify_eq. lia.
  - intros x v Hx Hnreach. destruct (decide (x = s)) as [->|Hxs].
    + exfalso. apply Hnreach. right. apply elem_of_app. right.
      by apply list_elem_of_singleton.
    + rewrite list_lookup_insert_ne by done. apply (Htodo x v Hx).
      intros [?|Hin]; apply Hnreach; [by left|].
      right. apply elem_of_app. by left.
Qed.

Lemma queue_elem_bounds d processed L1 L2 x :
  queue_inv trie paths d processed L1 L2 ->
  x ∈ processed ++ L1 ++ L2 -> 1 <= x < length paths.
Proof.
  intros Hq Hx.
  assert (exists w, paths !! x = Some w /\ 1 <= length w) as (w & Hw & Hlen).
  { pose proof (qi_d _ _ _ _ _ _ Hq).
    rewrite !elem_of_app in Hx. destruct Hx as [Hx|[Hx|Hx]].
    - destruct (qi_proc _ _ _ _ _ _ Hq x Hx) as (w & ? & ?). exists w. split; [done|lia].
    - destruct (qi_L1 _ _ _ _ _ _ Hq x Hx) as (w & ? & ?). exists w. split; [done|lia].
    - destruct (qi_L2 _ _ _ _ _ _ Hq x Hx) as (w & ? & ?). exists w. split; [done|lia]. }
  split; [|by eapply lookup_lt_Some].
  destruct x; [|lia]. rewrite (twf_root _ _ wf) in Hw. injection Hw as <-. simpl in Hlen. lia.
Qed.

Lemma queue_length d processed L1 L2 :
  queue_inv trie paths d processed L1 L2 ->
  length (processed ++ L1 ++ L2) < length paths.
Proof.
  intros Hq.
  assert (0 < length paths) as Hn.
  { eapply lookup_lt_Some. apply wf. }
  assert (processed ++ L1 ++ L2 ⊆+ seq 1 (length paths - 1)) as Hsub.
  { apply NoDup_submseteq; [apply Hq|].
    intros x Hx. apply (queue_elem_bounds _ _ _ _ _ Hq) in Hx.
    apply elem_of_seq. lia. }
  apply submseteq_length in Hsub. rewrite length_seq in Hsub. lia.
Qed.

(** The dequeued state [r] is done once its children [kids] are in the
    queue. *)
Lemma queue_inv_next d processed r L1 L2 kids :
  queue_inv trie paths d processed (r :: L1) L2 ->
  NoDup kids ->
  (forall s, s ∈ kids <-> exists c, trie_get trie r c = Some s) ->
  queue_inv trie paths d (processed ++ [r]) L1 (L2 ++ kids).
Proof.
  intros [Hd Hnd Hproc HL1 HL2 Hlevel Hfresh] Hkn Hkids.
  destruct (HL1 r) as (w & Hr & Hw); [by left|].
  assert (forall s, s ∈ kids -> exists v, paths !! s = Some v /\ length v = S d) as Hkd.
  { intros s (c & Hc)%Hkids. exists (w ++ [c]).
    split; [by eapply trie_get_path|]. rewrite length_app. simpl. lia. }
  split.
  - done.
  - rewrite <- app_assoc. simpl.
    assert (NoDup ((processed ++ r :: L1 ++ L2) ++ kids)) as Hall.
    { apply NoDup_app. split; [done|]. split; [|done].
      intros x Hx Hk. destruct (Hkd x Hk) as (v & Hv & Hlen).
      rewrite elem_of_app, elem_of_cons, elem_of_app in Hx.
      destruct Hx as [Hx|[->|[Hx|Hx]]].
      - destruct (Hproc x Hx) as (v' & ? & ?). simplify_eq. lia.
      - simplify_eq. lia.
      - destruct (HL1 x) as (v' & ? & ?); [by right|]. simplify_eq. lia.
      - apply Hkids in Hk as (c & Hc). eapply (Hfresh r c x); [by left|done|done]. }
    rewrite <- app_assoc in Hall. simpl in Hall. by rewrite <- app_assoc in Hall.
  - intros s [Hs|Hs%list_elem_of_singleton]%elem_of_app.
    + by apply Hproc.
    + subst s. exists w. split; [done|lia].
  - intros s Hs. apply HL1. by right.
  - intros s [Hs|Hs]%elem_of_app; [by apply HL2 | by apply Hkd].
  - intros r' w' c s Hr' Hw' Hg.
    destruct (Hlevel r' w' c s Hr' Hw' Hg) as [[->|Hin]%elem_of_cons|Hin].
    + right. apply elem_of_app. right. apply Hkids. eauto.
    + by left.
    + right. apply elem_of_app. by left.
  - intros r' c s Hr' Hg [Hs|Hs]%elem_of_app.
    + eapply (Hfresh r' c s); [by right|done|done].
    + apply Hkids in Hs as (c' & Hc').
      destruct (parent_unique _ _ _ _ _ Hg Hc') as [-> _].
      rewrite NoDup_app in Hnd. destruct Hnd as (_ & _ & Hnd).
      apply NoDup_cons in Hnd as [Hnotin _].
      apply Hnotin. apply elem_of_app. by left.
Qed.

(** The next level: when no state of depth [d] is left, the queue holds
    the states of depth [d + 1]. *)
Lemma queue_inv_shift d processed L2 :
  queue_inv trie paths d processed [] L2 ->
  queue_inv trie paths (S d) processed L2 [].
Proof.
  intros [Hd Hnd Hproc HL1 HL2 Hlevel Hfresh].
  split.
  - lia.
  - by rewrite app_nil_r.
  - intros s Hs. destruct (Hproc s Hs) as (w & ? & ?). exists w. split; [done|lia].
  - done.
  - intros s Hs. by apply elem_of_nil in Hs.
  - intros r w c s Hr Hw Hg. left.
    destruct w as [|a w _] using rev_ind; [done|].
    destruct (node_parent _ _ _ Hr) as (r0 & Hr0 & Hg0).
    rewrite length_app in Hw. simpl in Hw.
    destruct (Hlevel r0 w a r Hr0 ltac:(lia) Hg0) as [Hin|Hin]; [|done].
    by apply elem_of_nil in Hin.
  - intros r c s _ _ Hs. by apply elem_of_nil in Hs.
Qed.

Lemma reached_shift d processed L2 s w :
  queue_inv trie paths d processed [] L2 ->
  paths !! s = Some w ->
  reached (S d) [] s w <-> reached d L2 s w.
Proof.
  intros Hq Hs. unfold reached. split.
  - intros [Hlen|Hin]; [|by apply elem_of_nil in Hin].
    destruct (decide (length w <= d)); [left; lia|]. right.
    destruct w as [|a w _] using rev_ind; [simpl in *; lia|].
    destruct (node_parent _ _ _ Hs) as (r0 & Hr0 & Hg0).
    rewrite length_app in Hlen, n. simpl in *.
    destruct (qi_level _ _ _ _ _ _ Hq r0 w a s Hr0 ltac:(lia) Hg0) as [Hin|Hin]; [|done].
    by apply elem_of_nil in Hin.
  - intros [Hlen|Hin]; [left; lia|]. left.
    destruct (qi_L2 _ _ _ _ _ _ Hq s Hin) as (w' & ? & ?). simplify_eq. lia.
Qed.

Lemma links_inv_shift d processed L2 failure out :
  queue_inv trie paths d processed [] L2 ->
  links_inv paths own d L2 failure out ->
  links_inv paths own (S d) [] failure out.
Proof.
  intros Hq [Hfl Hol Hdone Htodo]. split; try done.
  - intros s w Hs Hr. apply (Hdone s w Hs). by eapply reached_shift.
  - intros s w Hs Hr. apply (Htodo s w Hs). intros Hr'. apply Hr.
    by eapply reached_shift.
Qed.

(** The loop over the transitions of the dequeued state [r]. *)
Lemma bfs_children_spec d processed r L1 L2 transitions failure out :
  queue_inv trie paths d processed (r :: L1) L2 ->
  links_inv paths own d L2 failure out ->
  trie !! r = Some transitions ->
  let cs := range_order (map_to_list transitions) in
  exists failure' out',
    foldM (bfs_child (S (length paths)) trie r) cs (L1 ++ L2, failure, out)
      = Ok (L1 ++ L2 ++ cs.*2, failure', out') /\
    links_inv paths own d (L2 ++ cs.*2) failure' out'.
Proof.
  intros Hq Hl Hr cs.
  destruct (qi_L1 _ _ _ _ _ _ Hq r) as (w & Hw & Hlen); [by left|].
  pose proof (children_NoDup r transitions Hr) as Hnd. fold cs in Hnd.
  destruct (foldM_inv (bfs_child (S (length paths)) trie r)
    (fun pre acc => exists f o,
       acc = ((L1 ++ L2) ++ pre.*2, f, o) /\ links_inv paths own d (L2 ++ pre.*2) f o)
    cs (L1 ++ L2, failure, out)) as (acc & Hrun & f & o & -> & Hfin).
  - exists failure, out. simpl. by rewrite !app_nil_r.
  - intros pre [c s] post acc Hcs (f & o & -> & Hinv).
    assert (trie_get trie r c = Some s) as Hg.
    { apply (children_elem r transitions); [done|]. fold cs. rewrite Hcs.
      apply elem_of_app. right. by left. }
    rewrite Hcs, fmap_app, fmap_cons in Hnd. simpl in Hnd.
    apply NoDup_app in Hnd as (_ & Hdisj & Hnd2).
    destruct (bfs_child_spec d (L2 ++ pre.*2) r w c s ((L1 ++ L2) ++ pre.*2) f o)
      as (f' & o' & Hstep & Hinv'); try done.
    + apply Hq.
    + intros [Hin|Hin]%elem_of_app.
      * eapply (qi_fresh _ _ _ _ _ _ Hq r c s); [by left|done..].
      * eapply Hdisj; [done|by left].
    + intros x [Hin|Hin]%elem_of_app; [by eapply (qi_L2 _ _ _ _ _ _ Hq)|].
      apply list_elem_of_fmap in Hin as ([c' x'] & -> & Hin). simpl.
      assert (trie_get trie r c' = Some x') as Hg'.
      { apply (children_elem r transitions); [done|]. fold cs. rewrite Hcs.
        apply elem_of_app. by left. }
      exists (w ++ [c']). split; [by eapply trie_get_path|].
      rewrite length_app. simpl. lia.
    + eexists. split; [done|]. exists f', o'.
      rewrite fmap_app. simpl. rewrite !app_assoc. by split.
  - exists f, o. split; [|done]. rewrite Hrun. by rewrite <- app_assoc.
Qed.

(** All states are linked when the loop ends. *)
Definition links_final (failure : list nat) (out : list (list nat)) : Prop :=
  length failure = length paths /\ length out = length paths /\
  forall s w, paths !! s = Some w ->
    (w <> [] -> linked paths own failure out s w) /\
    (w = [] -> out !! s = own !! s).

Lemma links_inv_final d processed failure out :
  queue_inv trie paths d processed [] [] ->
  links_inv paths own d [] failure out ->
  links_final failure out.
Proof.
  intros Hq [Hfl Hol Hdone Htodo]. split; [done|]. split; [done|].
  intros s w Hs. split.
  - intros Hne. apply (Hdone s w Hs). left.
    split; [destruct w; [done|simpl; lia]|].
    destruct (decide (length w <= d)) as [|Hgt]; [done|exfalso].
    rewrite <- (take_drop (S d) w) in Hs.
    assert (length (take (S d) w) = S d) as Hlen by (rewrite length_take; lia).
    destruct (take (S d) w) as [|a u _] using rev_ind; [done|].
    rewrite length_app in Hlen. simpl in Hlen.
    destruct (node_prefix _ _ _ Hs) as (r1 & Hr1).
    destruct (node_parent _ _ _ Hr1) as (r0 & Hr0 & Hg0).
    destruct (qi_level _ _ _ _ _ _ Hq r0 u a r1 Hr0 ltac:(lia) Hg0) as [Hin|Hin];
      by apply elem_of_nil in Hin.
  - intros ->. apply (Htodo s [] Hs). intros [Hlen|Hin].
    + simpl in Hlen. lia.
    + by apply elem_of_nil in Hin.
Qed.

(** The breadth-first loop (lines 146-172). *)
Lemma bfs_spec fuel : forall queue failure out d processed L1 L2,
  queue = L1 ++ L2 ->
  queue_inv trie paths d processed L1 L2 ->
  links_inv paths own d L2 failure out ->
  length paths <= length processed + fuel ->
  exists failure' out',
    bfs range_order (S (length paths)) fuel trie queue failure out
      = Ok (failure', out') /\
    links_final failure' out'.
Proof.
  induction fuel as [|fuel IH]; intros queue failure out d processed L1 L2 -> Hq Hl Hfuel.
  - pose proof (queue_length _ _ _ _ Hq) as Hlen. rewrite length_app in Hlen.
    destruct (L1 ++ L2) as [|r q'] eqn:Hqueue; [|simpl in Hlen; lia].
    apply app_eq_nil in Hqueue as [-> ->].
    exists failure, out. split; [done|]. by eapply links_inv_final.
  - destruct (L1 ++ L2) as [|r q'] eqn:Hqueue.
    { apply app_eq_nil in Hqueue as [-> ->].
      exists failure, out. split; [done|]. by eapply links_inv_final. }
    assert (exists d' L1' L2', q' = L1' ++ L2' /\
              queue_inv trie paths d' processed (r :: L1') L2' /\
              links_inv paths own d' L2' failure out) as (d' & L1' & L2' & -> & Hq' & Hl').
    { destruct L1 as [|r' L1'].
      - simpl in Hqueue. subst L2. exists (S d), q', [].
        split; [by rewrite app_nil_r|]. split.
        + by apply queue_inv_shift.
        + by eapply links_inv_shift.
      - simpl in Hqueue. injection Hqueue as -> <-. by exists d, L1', L2. }
    clear Hq Hl Hqueue d L1 L2.
    cbn [bfs]. destruct (trie !! r) as [transitions|] eqn:Hr.
    + destruct (bfs_children_spec d' processed r L1' L2' transitions failure out Hq' Hl' Hr)
        as (f1 & o1 & Hrun & Hl1).
      rewrite Hrun. bind_ok.
      eapply (IH _ _ _ d' (processed ++ [r]) L1'); [done| |done|].
      * apply queue_inv_next; [done|by eapply children_NoDup|].
        intros s. rewrite list_elem_of_fmap. split.
        -- intros ([c s'] & -> & Hin). exists c. by eapply children_elem.
        -- intros (c & Hc). exists (c, s). split; [done|]. by eapply children_elem.
      * rewrite length_app. simpl. lia.
    + eapply (IH _ _ _ d' (processed ++ [r]) L1' L2'); [done| |done|].
      * rewrite <- (app_nil_r L2').
        apply queue_inv_next; [done|apply NoDup_nil_2|].
        intros s. split; [intros Hin; by apply elem_of_nil in Hin|].
        intros (c & Hc). by rewrite no_children in Hc.
      * rewrite length_app. simpl. lia.
Qed.

(** The states of depth one (lines 138-143). *)
Lemma bfs_root_spec (cs : list (nat * nat)) n queue :
  (forall e, e ∈ cs -> e.2 < n) ->
  foldM bfs_root cs (queue, replicate n 0) = Ok (queue ++ cs.*2, replicate n 0).
Proof.
  revert queue. induction cs as [|[c s] cs IH]; intros queue Hlt; simpl.
  - by rewrite app_nil_r.
  - assert (s < n) as Hs by (apply (Hlt (c, s)); by left).
    rewrite store_Ok by (by rewrite length_replicate). bind_ok.
    rewrite list_insert_id by (by apply lookup_replicate_2).
    rewrite IH by (intros e He; apply Hlt; by right).
    by rewrite <- app_assoc.
Qed.

Lemma root_queue_inv kids :
  NoDup kids ->
  (forall s, s ∈ kids <-> exists c, trie_get trie 0 c = Some s) ->
  queue_inv trie paths 1 [] kids [] /\
  links_inv paths own 1 [] (replicate (length paths) 0) own.
Proof.
  intros Hnd Hkids.
  assert (forall s w, paths !! s = Some w -> length w = 1 -> s ∈ kids) as Hone.
  { intros s w Hs Hlen. destruct w as [|a [|b w]]; try done.
    destruct (node_parent s [] a Hs) as (r0 & Hr0 & Hg0).
    apply (path_root trie paths wf) in Hr0. subst r0. apply Hkids. eauto. }
  split; split.
  - done.
  - simpl. by rewrite app_nil_r.
  - intros s Hs. by apply elem_of_nil in Hs.
  - intros s (c & Hc)%Hkids. exists ([] ++ [c]). split; [|done].
    eapply trie_get_path; [done..|apply wf].
  - intros s Hs. by apply elem_of_nil in Hs.
  - intros r w c s Hr Hw _. left. by eapply Hone.
  - intros r c s _ _ Hs. by apply elem_of_nil in Hs.
  - by rewrite length_replicate.
  - done.
  - intros s w Hs [Hlen|Hin]; [|by apply elem_of_nil in Hin].
    assert (s < length paths) as Hslt by (by eapply lookup_lt_Some).
    split.
    + intros w' Hs' Hne. rewrite Hs in Hs'. injection Hs' as <-.
      rewrite lookup_total_replicate_2 by done.
      destruct w as [|a [|b w]]; simpl in *; try lia; try done.
      apply (longest_node_nil trie paths wf).
    + rewrite decide_True by lia. rewrite app_nil_r.
      apply list_lookup_lookup_total_lt. lia.
  - done.
Qed.

Lemma build_failure_spec :
  exists failure out,
    build_failure range_order (mkGoto trie (length paths) own) = Ok (failure, out) /\
    links_final failure out.
Proof.
  unfold build_failure. cbn [g_trie g_count g_out].
  destruct (trie !! 0) as [rootTrans|] eqn:H0.
  - rewrite (bfs_root_spec _ _ []).
    2:{ intros [c s] Hin. apply (children_elem 0 rootTrans) in Hin; [|done].
        simpl. pose proof (twf_root _ _ wf) as Hroot.
        pose proof (trie_get_path _ _ wf _ _ _ _ Hin Hroot). by eapply lookup_lt_Some. }
    bind_ok. simpl app.
    destruct (root_queue_inv (range_order (map_to_list rootTrans)).*2) as [Hq Hl].
    { by eapply children_NoDup. }
    { intros s. rewrite list_elem_of_fmap. split.
      - intros ([c s'] & -> & Hin). exists c. by eapply children_elem.
      - intros (c & Hc). exists (c, s). split; [done|]. by eapply children_elem. }
    eapply (bfs_spec _ _ _ _ 1 [] _ []); [by rewrite app_nil_r|done|done|simpl; lia].
  - bind_ok.
    destruct (root_queue_inv []) as [Hq Hl].
    { apply NoDup_nil_2. }
    { intros s. split; [intros Hin; by apply elem_of_nil in Hin|].
      intros (c & Hc). by rewrite no_children in Hc. }
    eapply (bfs_spec _ _ _ _ 1 [] [] []); [done|done|done|simpl; lia].
Qed.

End Failure.


(** ** The dense transition table *)

Lemma seq_middle k pre x post :
  seq 0 k = pre ++ x :: post -> x = length pre /\ x < k.
Proof.
  intros Hs.
  assert (seq 0 k !! length pre = Some x) as Hlk.
  { rewrite Hs. by apply list_lookup_middle. }
  apply lookup_seq in Hlk as [-> ?]. done.
Qed.

Lemma cell_index_lt n asz s c : s < n -> c < asz -> s * asz + c < n * asz.
Proof. intros. nia. Qed.

Lemma cell_index_inj asz s c s' c' :
  c < asz -> c' < asz -> s * asz + c = s' * asz + c' -> s = s' /\ c = c'.
Proof.
  intros Hc Hc' Heq.
  destruct (Nat.lt_trichotomy s s') as [Hlt|[->|Hlt]].
  - pose proof (Nat.mul_le_mono_r (S s) s' asz Hlt). simpl in *. lia.
  - lia.
  - pose proof (Nat.mul_le_mono_r (S s') s asz Hlt). simpl in *. lia.
Qed.

Section Delta.

Variable trie : gmap nat (gmap nat nat).
Variable paths : list (list nat).
Variable failure : list nat.
Variable asz : nat.
Hypothesis wf : trie_wf trie paths.
Hypothesis failure_len : length failure = length paths.
Hypothesis failure_ok : forall s, fail_ok paths failure s.
Hypothesis asz_le : asz <= 256.

(** The cells of the table filled so far: the rows below [s] and the
    first [c] cells of row [s]. *)
Definition cells_ok (s c : nat) (tbl : list Z) : Prop :=
  length tbl = length paths * asz /\
  forall s' c' w, paths !! s' = Some w -> c' < asz ->
    s' < s \/ (s' = s /\ c' < c) ->
    exists t, tbl !! (s' * asz + c') = Some (int32 (Z.of_nat t)) /\
              longest_node paths (w ++ [c']) t.

Lemma delta_cell_spec g own s c tbl :
  g = mkGoto trie (length paths) own ->
  s < length paths -> c < asz ->
  cells_ok s c tbl ->
  exists tbl', delta_cell g asz failure s tbl c = Ok tbl' /\ cells_ok s (S c) tbl'.
Proof.
  intros -> Hs Hc [Hlen Hcells].
  destruct (lookup_lt_is_Some_2 paths s Hs) as [w Hw].
  destruct (delta_loop_spec trie paths wf failure (S (length paths)) c s w)
    as (t & Hrun & Ht); try done.
  { pose proof (twf_depth _ _ wf _ _ Hw). lia. }
  unfold uint8 in Ht. rewrite Nat.mod_small in Ht by lia.
  unfold delta_cell. cbn [g_count g_trie]. rewrite Hrun. bind_ok.
  pose proof (cell_index_lt _ _ _ _ Hs Hc) as Hidx.
  rewrite store_Ok by lia.
  eexists. split; [done|]. split; [by rewrite length_insert|].
  intros s' c' w' Hw' Hc' Hdone.
  destruct (decide (s' = s /\ c' = c)) as [[-> ->]|Hne].
  - simplify_eq. exists t. split; [|done]. apply list_lookup_insert_eq. lia.
  - rewrite list_lookup_insert_ne.
    + apply (Hcells s' c' w' Hw' Hc'). destruct Hdone as [?|[-> ?]]; [by left|].
      right. split; [done|]. destruct (decide (c' = c)); [|lia]. naive_solver.
    + intros Heq. apply Hne. symmetry in Heq. by apply cell_index_inj in Heq.
Qed.

Lemma delta_row_spec g own s tbl :
  g = mkGoto trie (length paths) own ->
  s < length paths ->
  cells_ok s 0 tbl ->
  exists tbl', foldM (delta_cell g asz failure s) (seq 0 asz) tbl = Ok tbl' /\
               cells_ok (S s) 0 tbl'.
Proof.
  intros Hg Hs Hcells.
  destruct (foldM_inv (delta_cell g asz failure s)
              (fun pre tbl => cells_ok s (length pre) tbl) (seq 0 asz) tbl)
    as (tbl' & Hrun & Hfin).
  - done.
  - intros pre c post tbl0 Hseq Hinv. apply seq_middle in Hseq as [-> Hc].
    destruct (delta_cell_spec g own s _ tbl0 Hg Hs Hc Hinv) as (tbl1 & Hstep & Hinv1).
    exists tbl1. split; [done|]. rewrite length_app. simpl. by rewrite Nat.add_1_r.
  - exists tbl'. split; [done|]. rewrite length_seq in Hfin.
    destruct Hfin as [Hlen Hcells']. split; [done|].
    intros s' c' w Hw Hc' Hdone. apply (Hcells' s' c' w Hw Hc').
    destruct Hdone as [Hlt|[_ ?]]; [|lia].
    destruct (decide (s' = s)) as [->|]; [right; done|left; lia].
Qed.

Lemma build_delta_spec own :
  exists tbl,
    build_delta (mkGoto trie (length paths) own) asz failure = Ok tbl /\
    length tbl = length paths * asz /\
    forall s c w, paths !! s = Some w -> c < asz ->
      exists t, tbl !! (s * asz + c) = Some (int32 (Z.of_nat t)) /\
                longest_node paths (w ++ [c]) t.
Proof.
  unfold build_delta. cbn [g_count].
  set (g := mkGoto trie (length paths) own).
  destruct (foldM_inv
              (fun tbl state => foldM (delta_cell g asz failure state) (seq 0 asz) tbl)
              (fun pre tbl => cells_ok (length pre) 0 tbl)
              (seq 0 (length paths)) (replicate (length paths * asz) 0%Z))
    as (tbl & Hrun & Hlen & Hcells).
  - split; [by rewrite length_replicate|]. intros s' c' w _ _ [?|[_ ?]]; simpl in *; lia.
  - intros pre s post tbl0 Hseq Hinv. apply seq_middle in Hseq as [-> Hs].
    destruct (delta_row_spec g own _ tbl0 eq_refl Hs Hinv) as (tbl1 & Hstep & Hinv1).
    exists tbl1. split; [done|]. rewrite length_app. simpl. by rewrite Nat.add_1_r.
  - exists tbl. split; [done|]. split; [done|].
    intros s c w Hw Hc. apply (Hcells s c w Hw Hc). left.
    rewrite length_seq. by eapply lookup_lt_Some.
Qed.

End Delta.


(** ** The merged output sets and the compiled matcher *)

Lemma tword_nil tr bs : tword tr bs = [] <-> bs = [].
Proof. unfold tword. split; [apply map_eq_nil | by intros ->]. Qed.

(** What the output set of each state contains. *)
Definition outputs_ok (tr : list nat) (ps : list Pattern) (paths : list (list nat))
    (out : list (list nat)) : Prop :=
  forall s w, paths !! s = Some w ->
    exists o, out !! s = Some o /\ NoDup o /\
      (forall k, k ∈ o ->
         exists p, ps !! k = Some p /\ tword tr (Content p) `suffix_of` w) /\
      (forall k p, ps !! k = Some p -> Content p <> [] ->
         tword tr (Content p) `suffix_of` w -> k ∈ o).

Lemma outputs_spec tr asz ps g paths failure out :
  goto_inv tr asz ps (length ps) g paths ->
  links_final paths (g_out g) failure out ->
  outputs_ok tr ps paths out.
Proof.
  intros [Hwf Hcount Hol Hlab Hnodes Hout] (Hfl & Holen & Hlinks).
  assert (forall s w, paths !! s = Some w ->
            g_out g !!! s = owners tr ps (length ps) w) as Hown.
  { intros s w Hs. apply list_lookup_total_correct. by apply Hout. }
  assert (forall k p w, ps !! k = Some p -> tword tr (Content p) = w ->
            k ∈ owners tr ps (length ps) w) as Hmine.
  { intros k p w Hp Hw. apply elem_of_owners. split; [by eapply lookup_lt_Some|eauto]. }
  intros s w. remember (length w) as m eqn:Hm.
  revert s w Hm. induction (lt_wf m) as [m _ IH]. intros s w -> Hs.
  destruct (Hlinks s w Hs) as [Hne Hnil].
  destruct (decide (w = [])) as [->|Hw].
  { exists (owners tr ps (length ps) []).
    split; [rewrite (Hnil eq_refl); by apply Hout|].
    split; [apply NoDup_owners|]. split.
    - intros k (_ & p & Hp & Heq)%elem_of_owners. exists p. by rewrite Heq.
    - intros k p Hp Hcont Hsuf%suffix_nil_inv. by apply tword_nil in Hsuf. }
  destruct (Hne Hw) as [Hfail Hos]. rewrite (Hown s w Hs) in Hos.
  case_decide as Hlen.
  { exists (owners tr ps (length ps) w). rewrite app_nil_r in Hos.
    split; [done|]. split; [apply NoDup_owners|]. split.
    - intros k (_ & p & Hp & Heq)%elem_of_owners. exists p. by rewrite Heq.
    - intros k p Hp Hcont Hsuf. apply (Hmine k p); [done|].
      apply suffix_length_eq; [done|].
      assert (tword tr (Content p) <> []) as Hnn by (by rewrite tword_nil).
      destruct (tword tr (Content p)); [done|]. simpl. lia. }
  destruct (fail_ok_shorter paths failure s w Hfail Hs Hw) as (v & Hv & Hsuf & Hlt).
  destruct (IH (length v) Hlt (failure !!! s) v eq_refl Hv)
    as (o & Ho & Hnd & Hsound & Hcompl).
  rewrite (list_lookup_total_correct _ _ _ Ho) in Hos.
  assert (v `suffix_of` w) as Hvw.
  { etrans; [done|]. destruct w; [done|]. by apply suffix_cons_r. }
  eexists. split; [done|]. split; [|split].
  - apply NoDup_app. split; [apply NoDup_owners|]. split; [|done].
    intros k (_ & p & Hp & Heq)%elem_of_owners Hin.
    destruct (Hsound k Hin) as (p' & Hp' & Hsuf'). simplify_eq.
    apply suffix_length in Hsuf'. lia.
  - intros k [(_ & p & Hp & Heq)%elem_of_owners|Hin]%elem_of_app.
    + exists p. by rewrite Heq.
    + destruct (Hsound k Hin) as (p & Hp & Hsuf'). exists p. split; [done|]. by etrans.
  - intros k p Hp Hcont Hpw. apply elem_of_app.
    destruct (decide (tword tr (Content p) = w)) as [Heq|Hneq].
    { left. by eapply Hmine. }
    right. apply (Hcompl k p Hp Hcont).
    assert (tword tr (Content p) ∈ paths) as Hnode.
    { apply (Hnodes k p); [by eapply lookup_lt_Some|done]. }
    apply list_elem_of_lookup in Hnode as [t Ht].
    apply (longest_node_suffix paths (tail w) (failure !!! s) v t);
      [exact (Hfail w Hs Hw)|done|done|].
    destruct w as [|a w]; [done|]. simpl.
    destruct (tword tr (Content p)) as [|b u] eqn:Hu; [apply suffix_nil|].
    apply suffix_cons_inv in Hpw as [Heq|?]; [|done]. by rewrite Heq in Hneq.
Qed.

(** The invariant of a compiled matcher: [paths] are the words of its
    states. *)
Record automaton (ps : list Pattern) (ac : ACKS)
    (trie : gmap nat (gmap nat nat)) (paths : list (list nat)) : Prop := {
  au_patterns : forall k p, ps !! k = Some p -> patterns ac !! k = Some p;
  au_xlat : xlat_ok ps (translateTable ac) (alphabetSize ac);
  au_wf : trie_wf trie paths;
  au_count : stateCount ac = length paths;
  au_out_len : length (outputTable ac) = length paths;
  au_table_len : length (stateTable ac) = length paths * alphabetSize ac;
  au_delta : forall s c w, paths !! s = Some w -> c < alphabetSize ac ->
    exists t, stateTable ac !! (s * alphabetSize ac + c) = Some (int32 (Z.of_nat t)) /\
              longest_node paths (w ++ [c]) t;
  au_nodes : forall k p, ps !! k = Some p ->
    tword (translateTable ac) (Content p) ∈ paths;
  au_out : outputs_ok (translateTable ac) ps paths (outputTable ac)
}.

Section BuildOk.

Variable range_order : list (nat * nat) -> list (nat * nat).
Hypothesis range_order_perm : forall l, range_order l ≡ₚ l.

Lemma Build_ok ac :
  length (translateTable ac) = 256 ->
  exists ac' trie paths,
    Build range_order ac = Ok ac' /\
    automaton (patterns ac) ac' trie paths /\
    size ac' = size ac /\ maxID ac' = maxID ac /\
    hasSingleMatch ac' = hasSingleMatch ac.
Proof.
  intros Hlen. unfold Build.
  pose proof (initTranslateTable_ok (patterns ac) (translateTable ac) Hlen) as Hx.
  destruct (initTranslateTable (patterns ac) (translateTable ac)) as [tr asz].
  cbn [fst snd] in Hx.
  destruct (build_goto_ok tr asz (patterns ac) (xl_lt _ _ _ Hx)) as (g & paths & Hg & Hinv).
  rewrite Hg. bind_ok.
  destruct g as [trie count own].
  pose proof Hinv as [Hwf Hcount Hol Hlab Hnodes Hout]. cbn [g_trie g_count g_out] in *.
  subst count.
  pose proof (xl_asz _ _ _ Hx) as Hasz.
  destruct (build_failure_spec range_order range_order_perm trie paths own Hwf Hol)
    as (failure & out & Hf & Hfin).
  { intros s c s' Hc. apply Hlab in Hc. lia. }
  rewrite Hf. bind_ok.
  pose proof Hfin as (Hfl & Holen & Hlinks).
  destruct (build_delta_spec trie paths failure asz Hwf Hfl) with (own := own)
    as (tbl & Ht & Htl & Hcells).
  { intros s w Hs Hne. by apply (Hlinks s w Hs). }
  { lia. }
  rewrite Ht. bind_ok.
  eexists _, trie, paths. split; [done|]. split; [|done].
  split; cbn; try done.
  - intros k p Hp. apply (Hnodes k p); [by eapply lookup_lt_Some|done].
  - by eapply outputs_spec.
Qed.

End BuildOk.


(** ** The search loop *)

(** *** The per-call record of reported ids *)

(** [rec] records exactly the ids of [marked]; [on] tells whether the
    record was allocated ([hasSingleMatch]). *)
Definition dedup_rep (on useSlice : bool) (rec : dedup) (marked : gset N) : Prop :=
  on = true ->
  if useSlice then
    forall id : N, N.to_nat (id / 64) < length (recordSlice rec) ->
      Z.testbit (recordSlice rec !!! N.to_nat (id / 64)) (Z.of_N (id mod 64)) = true
      <-> id ∈ marked
  else recordMap rec = Some marked.

(** The slice has a word for the id. *)
Definition dedup_room (useSlice : bool) (rec : dedup) (id : N) : Prop :=
  useSlice = true -> N.to_nat (id / 64) < length (recordSlice rec).

Lemma land_mask_testbit w j :
  (0 <= j)%Z -> (Z.land w (Z.shiftl 1 j) =? 0)%Z = negb (Z.testbit w j).
Proof.
  intros Hj. rewrite Z.shiftl_1_l.
  destruct (Z.testbit w j) eqn:Hb; simpl.
  - apply Z.eqb_neq. intros Hz.
    assert (Z.testbit (Z.land w (2 ^ j)) j = true) as Ht.
    { by rewrite Z.land_spec, Hb, Z.pow2_bits_true. }
    rewrite Hz, Z.bits_0 in Ht. done.
  - apply Z.eqb_eq. apply Z.bits_inj'. intros n Hn.
    rewrite Z.land_spec, Z.bits_0.
    destruct (decide (n = j)) as [->|Hne].
    + by rewrite Hb.
    + rewrite Z.pow2_bits_false by done. apply andb_false_r.
Qed.

Lemma id_split (id id' : N) :
  (id / 64 = id' / 64)%N -> (id mod 64 = id' mod 64)%N -> id = id'.
Proof.
  intros Hd Hm.
  rewrite (N.div_mod id 64), (N.div_mod id' 64) by done. by rewrite Hd, Hm.
Qed.

Lemma check_once_spec {E} on useSlice pat rec marked :
  dedup_rep on useSlice rec marked ->
  (has_flag (Flags pat) SingleMatch = true ->
   on = true /\ dedup_room useSlice rec (ID pat)) ->
  exists rec',
    check_once (E:=E) useSlice pat rec =
      Ok (has_flag (Flags pat) SingleMatch && bool_decide (ID pat ∈ marked), rec') /\
    length (recordSlice rec') = length (recordSlice rec) /\
    dedup_rep on useSlice rec'
      (if has_flag (Flags pat) SingleMatch then {[ID pat]} ∪ marked else marked).
Proof.
  intros Hrep Hroom. unfold check_once.
  destruct (has_flag (Flags pat) SingleMatch) eqn:Hsm; [|by exists rec].
  destruct (Hroom eq_refl) as [-> Hroom']. clear Hroom. rename Hroom' into Hroom.
  unfold dedup_rep, dedup_room in *. specialize (Hrep eq_refl).
  destruct useSlice; simpl.
  - specialize (Hroom eq_refl).
    set (idx := N.to_nat (ID pat / 64)) in *.
    rewrite (index_total (recordSlice rec) idx) by done. bind_ok.
    rewrite land_mask_testbit by apply N2Z.is_nonneg. rewrite negb_involutive.
    destruct (Z.testbit (recordSlice rec !!! idx) (Z.of_N (ID pat mod 64))) eqn:Hbit.
    + exists rec. assert (ID pat ∈ marked) as Hin by (by apply Hrep).
      rewrite bool_decide_eq_true_2 by done. split; [done|]. split; [done|].
      intros _ id Hid. rewrite Hrep by done. set_solver.
    + rewrite store_Ok by done. bind_ok. eexists. split.
      { rewrite bool_decide_eq_false_2; [done|]. intros Hin.
        destruct (Hrep (ID pat) Hroom) as [_ Hback]. fold idx in Hback.
        rewrite (Hback Hin) in Hbit. done. }
      cbn [recordSlice]. split; [by rewrite length_insert|].
      intros _ id Hid. rewrite length_insert in Hid.
      destruct (decide (N.to_nat (id / 64) = idx)) as [Heq|Hne].
      * assert (id / 64 = ID pat / 64)%N as Hdiv by (apply N2Nat.inj; exact Heq).
        rewrite Heq, list_lookup_total_insert_eq by done.
        rewrite Z.lor_spec, Z.shiftl_1_l.
        rewrite <- Heq in *. rewrite elem_of_union, elem_of_singleton.
        destruct (decide (id mod 64 = ID pat mod 64)%N) as [Hm|Hm].
        -- assert (id = ID pat) as -> by (by apply id_split).
           rewrite Z.pow2_bits_true by apply N2Z.is_nonneg.
           rewrite orb_true_r. naive_solver.
        -- rewrite Z.pow2_bits_false by (intros Hz%N2Z.inj; done).
           rewrite orb_false_r.
           rewrite Hrep by done. split; [by right|]. intros [->|?]; done.
      * rewrite list_lookup_total_insert_ne by done. rewrite Hrep by done.
        rewrite elem_of_union, elem_of_singleton. split; [by right|].
        intros [->|?]; done.
  - rewrite Hrep.
    destruct (decide (ID pat ∈ marked)) as [Hin|Hin].
    + exists rec. rewrite bool_decide_eq_true_2 by done. split; [done|]. split; [done|].
      intros _. rewrite Hrep. f_equal. set_solver.
    + eexists. rewrite bool_decide_eq_false_2 by done. split; [done|]. done.
Qed.

(** *** The match events of a text *)

(** The pattern [content] ends at index [i] of [text], byte for byte. *)
Definition exact_at (content text : list byte) (i : nat) : bool :=
  bool_decide (length content <= S i /\
               take (length content) (drop (S i - length content) text) = content).

(** What one pattern [k] of the output set does at index [i]: the ids
    marked afterwards and the event, if one is reported. *)
Definition hit (ps : list Pattern) (text : list byte) (i : nat)
    (marked : gset N) (k : nat) : gset N * list (nat * nat) :=
  match ps !! k with
  | None => (marked, [])
  | Some pat =>
      if has_flag (Flags pat) SingleMatch && bool_decide (ID pat ∈ marked)
      then (marked, [])
      else
        (if has_flag (Flags pat) SingleMatch then {[ID pat]} ∪ marked else marked,
         if has_flag (Flags pat) Caseless || exact_at (Content pat) text i
         then [(i, k)] else [])
  end.

Fixpoint out_events (ps : list Pattern) (text : list byte) (i : nat)
    (ids : list nat) (marked : gset N) : gset N * list (nat * nat) :=
  match ids with
  | [] => (marked, [])
  | k :: ids' =>
      let '(m1, e1) := hit ps text i marked k in
      let '(m2, e2) := out_events ps text i ids' m1 in
      (m2, e1 ++ e2)
  end.

(** The transition function read off the table. *)
Definition delta (ac : ACKS) (s : nat) (b : byte) : nat :=
  Z.to_nat (default 0%Z
    (stateTable ac !! (s * alphabetSize ac + sym (translateTable ac) b))).

(** The events [(i, k)] of the bytes [rest], which start at index [i] of
    [text]: pattern [k] is reported at index [i]. *)
Fixpoint text_events (ps : list Pattern) (ac : ACKS) (text : list byte) (i : nat)
    (rest : list byte) (s : nat) (marked : gset N) : list (nat * nat) :=
  match rest with
  | [] => []
  | b :: rest' =>
      let s' := delta ac s b in
      let '(m', e) := out_events ps text i (outputTable ac !!! s') marked in
      e ++ text_events ps ac text (S i) rest' s' m'
  end.

Definition events (ps : list Pattern) (ac : ACKS) (text : list byte)
  : list (nat * nat) :=
  text_events ps ac text 0 text 0 ∅.

(** The capacity of the [int32] entries of the state table. *)
Definition fits (ac : ACKS) : Prop := (Z.of_nat (stateCount ac) <= 2 ^ 31)%Z.

Section Deliver.

Context {St E : Type}.

(** The handler is called on the events in order, until it fails. *)
Fixpoint deliver (matched : @matchedPattern St E) (ps : list Pattern)
    (evs : list (nat * nat)) (h : St) : St * result E unit :=
  match evs with
  | [] => (h, Ok ())
  | e :: evs' =>
      match ps !! e.2 with
      | Some pat =>
          match call matched (S e.1) pat h with
          | (h', Ok _) => deliver matched ps evs' h'
          | (h', r) => (h', r)
          end
      | None => (h, Panic)
      end
  end.

Lemma deliver_app (matched : @matchedPattern St E) ps e1 e2 h :
  deliver matched ps (e1 ++ e2) h =
    match deliver matched ps e1 h with
    | (h', Ok _) => deliver matched ps e2 h'
    | (h', r) => (h', r)
    end.
Proof.
  revert h. induction e1 as [|e e1 IH]; intros h; simpl; [done|].
  destruct (ps !! e.2) as [pat|]; [|done].
  destruct (call matched (S e.1) pat h) as [h' [[]|err| |]]; try done.
Qed.

Lemma report_spec text (matched : @matchedPattern St E) i pat h :
  i < length text ->
  strlen pat = Z.of_nat (length (Content pat)) ->
  length (Content pat) <= S i ->
  report text matched i pat h =
    if has_flag (Flags pat) Caseless || exact_at (Content pat) text i
    then call matched (S i) pat h else (h, Ok ()).
Proof.
  intros Hi Hlen Hle. unfold report.
  destruct (has_flag (Flags pat) Caseless); [done|]. simpl.
  set (len := length (Content pat)) in *. rewrite Hlen.
  replace (Z.of_nat i - Z.of_nat len + 1)%Z with (Z.of_nat (S i - len)) by lia.
  destruct (Z.ltb_spec (Z.of_nat (S i - len)) 0); [lia|].
  destruct (Z.ltb_spec (Z.of_nat (length text)) (Z.of_nat (S i - len))); [lia|].
  simpl. rewrite Nat2Z.id. unfold memcmp. rewrite length_drop.
  destruct (Z.ltb_spec (Z.of_nat (length text - (S i - len))) (Z.of_nat len)); [lia|].
  fold len. destruct (Z.ltb_spec (Z.of_nat len) (Z.of_nat len)); [lia|]. simpl.
  destruct (Z.ltb_spec (Z.of_nat len) 0); [lia|].
  rewrite Nat2Z.id. rewrite (take_ge (Content pat)) by (fold len; lia).
  unfold exact_at. fold len.
  rewrite (bool_decide_ext _ (len <= S i /\ take len (drop (S i - len) text) = Content pat))
    by naive_solver.
  done.
Qed.

Lemma out_loop_spec ac ps on useSlice text (matched : @matchedPattern St E) i room ids :
  forall rec h marked,
  (forall k, k ∈ ids -> exists p,
     ps !! k = Some p /\ patterns ac !! k = Some p /\
     strlen p = Z.of_nat (length (Content p)) /\ length (Content p) <= S i /\
     (has_flag (Flags p) SingleMatch = true ->
      on = true /\ (useSlice = true -> N.to_nat (ID p / 64) < room))) ->
  i < length text ->
  length (recordSlice rec) = room ->
  dedup_rep on useSlice rec marked ->
  exists rec',
    out_loop ac useSlice text matched i ids rec h =
      (rec', (deliver matched ps (out_events ps text i ids marked).2 h).1,
             (deliver matched ps (out_events ps text i ids marked).2 h).2) /\
    ((deliver matched ps (out_events ps text i ids marked).2 h).2 = Ok () ->
     length (recordSlice rec') = room /\
     dedup_rep on useSlice rec' (out_events ps text i ids marked).1).
Proof.
  induction ids as [|k ids IH]; intros rec h marked Hids Hi Hroom Hrep.
  { exists rec. by split. }
  destruct (Hids k) as (p & Hp & Hpat & Hlen & Hle & Hcap); [by left|].
  destruct (check_once_spec (E:=E) on useSlice p rec marked Hrep)
    as (rec1 & Hchk & Hl1 & Hrep1).
  { intros Hsm. destruct (Hcap Hsm) as [Hon Hr]. split; [done|].
    intros Hus. rewrite Hroom. by apply Hr. }
  cbn [out_loop out_events]. rewrite (index_Ok _ _ _ Hpat), Hchk.
  unfold hit. rewrite Hp.
  destruct (has_flag (Flags p) SingleMatch && bool_decide (ID p ∈ marked)) eqn:Hskip.
  { destruct (IH rec1 h marked) as (rec' & Hrun & Hfin); try done.
    - intros k' Hk'. apply Hids. by right.
    - lia.
    - destruct (has_flag (Flags p) SingleMatch); [|done].
      simpl in Hskip. apply bool_decide_eq_true in Hskip.
      unfold dedup_rep in *. intros Hon. specialize (Hrep1 Hon). destruct useSlice.
      + intros id Hid. rewrite Hrep1 by done. set_solver.
      + rewrite Hrep1. f_equal. set_solver.
    - exists rec'. destruct (out_events ps text i ids marked) as [m2 e2]. done. }
  rewrite (report_spec text matched i p h Hi Hlen Hle).
  set (m1 := if has_flag (Flags p) SingleMatch then {[ID p]} ∪ marked else marked) in *.
  destruct (has_flag (Flags p) Caseless || exact_at (Content p) text i).
  - destruct (out_events ps text i ids m1) as [m2 e2] eqn:Hev. cbn [snd fst app deliver].
    rewrite Hp. destruct (call matched (S i) p h) as [h' r] eqn:Hcall.
    destruct r as [[]|err| |]; try (exists rec1; split; [done|]; cbn; done).
    destruct (IH rec1 h' m1) as (rec' & Hrun & Hfin); try done.
    + intros k' Hk'. apply Hids. by right.
    + lia.
    + exists rec'. rewrite Hev in Hrun, Hfin. done.
  - destruct (IH rec1 h m1) as (rec' & Hrun & Hfin); try done.
    + intros k' Hk'. apply Hids. by right.
    + lia.
    + exists rec'. destruct (out_events ps text i ids m1) as [m2 e2]. done.
Qed.

End Deliver.


(** *** The search loop computes the events *)

(** Every pattern has its cached length, and the per-call record has room
    for the ids of the [SingleMatch] patterns. *)
Record ids_ok (ps : list Pattern) (ac : ACKS) : Prop := {
  io_strlen : forall p, p ∈ ps -> strlen p = Z.of_nat (length (Content p));
  io_single : forall p, p ∈ ps -> has_flag (Flags p) SingleMatch = true ->
    hasSingleMatch ac = true /\ (ID p <= maxID ac)%N
}.

Lemma int32_small z : (0 <= z < 2 ^ 31)%Z -> int32 z = z.
Proof.
  intros Hz. unfold int32. rewrite Z.mod_small; lia.
Qed.

Section Refine.

Context {St E : Type}.
Variable ps : list Pattern.
Variable ac : ACKS.
Variable trie : gmap nat (gmap nat nat).
Variable paths : list (list nat).
Hypothesis Hauto : automaton ps ac trie paths.
Hypothesis Hfits : fits ac.

Lemma next_state_spec s w b :
  paths !! s = Some w ->
  exists t,
    next_state (E:=E) ac (Z.of_nat s) (sym (translateTable ac) b) = Ok (Z.of_nat t) /\
    delta ac s b = t /\
    longest_node paths (w ++ [sym (translateTable ac) b]) t.
Proof.
  intros Hs. set (c := sym (translateTable ac) b).
  assert (c < alphabetSize ac) as Hc by apply (xl_lt _ _ _ (au_xlat _ _ _ _ Hauto)).
  destruct (au_delta _ _ _ _ Hauto s c w Hs Hc) as (t & Hcell & Ht).
  exists t. pose proof (longest_node_lt _ _ _ Ht) as Htlt.
  assert (int32 (Z.of_nat t) = Z.of_nat t) as Hint.
  { apply int32_small. pose proof (au_count _ _ _ _ Hauto). unfold fits in Hfits. lia. }
  rewrite Hint in Hcell. split; [|split; [|done]].
  - unfold next_state.
    replace (Z.of_nat s * Z.of_nat (alphabetSize ac) + Z.of_nat c)%Z
      with (Z.of_nat (s * alphabetSize ac + c)) by lia.
    pose proof (lookup_lt_Some _ _ _ Hcell).
    destruct (Z.leb_spec (Z.of_nat (length (stateTable ac)))
                (Z.of_nat (s * alphabetSize ac + c))); [lia|].
    by apply indexZ_Ok.
  - unfold delta. fold c. rewrite Hcell. simpl. apply Nat2Z.id.
Qed.

Lemma text_loop_spec on useSlice text (matched : @matchedPattern St E) room :
  (forall p, p ∈ ps -> strlen p = Z.of_nat (length (Content p))) ->
  (forall p, p ∈ ps -> has_flag (Flags p) SingleMatch = true ->
     on = true /\ (useSlice = true -> N.to_nat (ID p / 64) < room)) ->
  forall rest pre s rec h marked,
    text = pre ++ rest ->
    longest_node paths (map (sym (translateTable ac)) pre) s ->
    length (recordSlice rec) = room ->
    dedup_rep on useSlice rec marked ->
    text_loop ac useSlice text matched (length pre) rest (Z.of_nat s) rec h =
      deliver matched ps (text_events ps ac text (length pre) rest s marked) h.
Proof.
  intros Hnorm Hcap.
  induction rest as [|b rest IH]; intros pre s rec h marked Htext Hs Hroom Hrep; [done|].
  cbn [text_loop text_events].
  destruct Hs as (w & Hw & Hsuf & Hmax).
  destruct (next_state_spec s w b Hw) as (t & Hnext & Hdelta & Ht).
  fold (sym (translateTable ac) b). rewrite Hnext, Hdelta.
  assert (longest_node paths (map (sym (translateTable ac)) (pre ++ [b])) t) as Hlong.
  { rewrite map_app. simpl.
    apply (longest_node_step trie paths (au_wf _ _ _ _ Hauto) _ s w); [|done..].
    by exists w. }
  destruct Hlong as (v & Hv & Hvsuf & Hvmax).
  destruct (au_out _ _ _ _ Hauto t v Hv) as (o & Ho & Hnd & Hsound & _).
  rewrite (indexZ_Ok _ _ _ Ho).
  rewrite (list_lookup_total_correct _ _ _ Ho).
  assert ((if 0 <? length o
           then out_loop ac useSlice text matched (length pre) o rec h
           else (rec, h, Ok ())) =
          out_loop ac useSlice text matched (length pre) o rec h) as ->.
  { by destruct o. }
  destruct (out_loop_spec ac ps on useSlice text matched (length pre) room o rec h marked)
    as (rec' & Hout & Hfin); try done.
  { intros k Hk. destruct (Hsound k Hk) as (p & Hp & Hpsuf). exists p.
    assert (p ∈ ps) as Hin by (by eapply list_elem_of_lookup_2).
    split; [done|]. split; [by apply (au_patterns _ _ _ _ Hauto)|].
    split; [by apply Hnorm|]. split; [|by apply Hcap].
    apply suffix_length in Hpsuf, Hvsuf.
    unfold tword in Hpsuf. rewrite length_map in Hpsuf, Hvsuf.
    rewrite length_app in Hvsuf. simpl in Hvsuf. lia. }
  { rewrite Htext, length_app. simpl. lia. }
  rewrite Hout.
  destruct (out_events ps text (length pre) o marked) as [m' e] eqn:Hev.
  cbn [fst snd] in *. rewrite deliver_app.
  destruct (deliver matched ps e h) as [h' r].
  destruct r as [[]|err| |]; try done.
  destruct (Hfin eq_refl) as [Hroom' Hrep'].
  specialize (IH (pre ++ [b]) t rec' h' m').
  rewrite length_app in IH. simpl in IH. rewrite Nat.add_1_r in IH.
  apply IH; try done.
  - by rewrite <- app_assoc.
  - by exists v.
Qed.

Lemma searchPatterns_with_spec threshold text (matched : @matchedPattern St E) h :
  ids_ok ps ac ->
  searchPatterns_with threshold ac text matched h =
    deliver matched ps (events ps ac text) h.
Proof.
  intros [Hnorm Hsingle]. unfold searchPatterns_with, events.
  set (useSlice := (maxID ac <=? threshold)%N).
  set (rec := if hasSingleMatch ac then _ else _).
  change 0%Z with (Z.of_nat 0). change 0 with (length (@nil byte)) at 1 3.
  apply (text_loop_spec (hasSingleMatch ac) useSlice text matched
           (length (recordSlice rec)) Hnorm); try done.
  - intros p Hp Hsm. destruct (Hsingle p Hp Hsm) as [Hon Hle].
    split; [done|]. intros Hus. unfold rec. rewrite Hon, Hus. cbn [recordSlice].
    rewrite length_replicate.
    pose proof (N.Div0.div_le_mono (ID p) (maxID ac) 64 Hle). lia.
  - apply (longest_node_nil trie paths), Hauto.
  - intros Hon. unfold rec. rewrite Hon. destruct useSlice; [|done].
    cbn [recordSlice]. intros id Hid. rewrite length_replicate in Hid.
    rewrite lookup_total_replicate_2 by done. rewrite Z.bits_0. set_solver.
Qed.

End Refine.


(** ** Registration and compilation *)

(** A pattern as [AddPattern] stores it. *)
Definition registered (p : Pattern) : Pattern :=
  {| Content := Content p; ID := ID p; Flags := Flags p;
     strlen := Z.of_nat (length (Content p)) |}.

(** The number of bytes of the patterns; the states of the trie are at
    most one more. *)
Definition pattern_bytes (ps : list Pattern) : nat :=
  sum_list (map (fun p => length (Content p)) ps).

(** The state table holds [int32] entries: the patterns must total fewer
    than 2^31 bytes. *)
Definition capacity (ps : list Pattern) : Prop :=
  (Z.of_nat (pattern_bytes ps) < 2 ^ 31)%Z.

Lemma AddPattern_spec {E} ac p :
  let ac' := (AddPattern (E:=E) ac p).1 in
  patterns ac' = patterns ac ++ [registered p] /\
  translateTable ac' = translateTable ac /\
  alphabetSize ac' = alphabetSize ac /\
  stateTable ac' = stateTable ac /\
  outputTable ac' = outputTable ac /\
  stateCount ac' = stateCount ac /\
  hasSingleMatch ac' =
    (if has_flag (Flags p) SingleMatch then true else hasSingleMatch ac) /\
  maxID ac' = (if (maxID ac <? ID p)%N then ID p else maxID ac).
Proof. by repeat split. Qed.

Lemma add_all_spec ps : forall ac,
  let ac' := add_all ac ps in
  patterns ac' = patterns ac ++ map registered ps /\
  translateTable ac' = translateTable ac /\
  alphabetSize ac' = alphabetSize ac /\
  stateTable ac' = stateTable ac /\
  outputTable ac' = outputTable ac /\
  stateCount ac' = stateCount ac /\
  (hasSingleMatch ac = true -> hasSingleMatch ac' = true) /\
  (maxID ac <= maxID ac')%N /\
  (forall p, p ∈ ps -> has_flag (Flags p) SingleMatch = true ->
     hasSingleMatch ac' = true /\ (ID p <= maxID ac')%N).
Proof.
  induction ps as [|p ps IH]; intros ac; cbn [add_all fold_left].
  { rewrite app_nil_r. repeat split; try done.
    all: match goal with H : _ ∈ [] |- _ => by apply elem_of_nil in H end. }
  destruct (AddPattern_spec (E:=Empty_set) ac p)
    as (Hpat1 & Htr1 & Hasz1 & Htbl1 & Hout1 & Hcnt1 & Hsm1 & Hmax1).
  destruct (IH (AddPattern (E:=Empty_set) ac p).1)
    as (Hpat & Htr & Hasz & Htbl & Hout & Hcnt & Hsm & Hmax & Hids).
  fold (add_all (AddPattern (E:=Empty_set) ac p).1 ps).
  set (ac1 := (AddPattern (E:=Empty_set) ac p).1) in *.
  set (ac2 := add_all ac1 ps) in *.
  assert (maxID ac <= maxID ac1)%N as Hle1.
  { rewrite Hmax1. destruct (N.ltb_spec (maxID ac) (ID p)); lia. }
  split; [by rewrite Hpat, Hpat1, <- app_assoc|].
  split; [congruence|]. split; [congruence|]. split; [congruence|].
  split; [congruence|]. split; [congruence|].
  split.
  { intros Hon. apply Hsm. rewrite Hsm1, Hon. by destruct (has_flag _ _). }
  split; [by etrans|].
  intros q [->|Hq]%elem_of_cons Hflag; [|by apply Hids].
  split.
  - apply Hsm. by rewrite Hsm1, Hflag.
  - etrans; [|apply Hmax]. rewrite Hmax1.
    destruct (N.ltb_spec (maxID ac) (ID p)); lia.
Qed.

Lemma goto_byte_count tr g cur b :
  g_count (goto_byte tr (g, cur) b).1 <= S (g_count g).
Proof.
  destruct g as [trie count out]. rewrite goto_byte_eq.
  destruct (trie_get trie cur _); simpl; lia.
Qed.

Lemma goto_bytes_count tr bs : forall g cur,
  g_count (fold_left (goto_byte tr) bs (g, cur)).1 <= g_count g + length bs.
Proof.
  induction bs as [|b bs IH]; intros g cur; cbn [fold_left]; [simpl; lia|].
  pose proof (goto_byte_count tr g cur b).
  destruct (goto_byte tr (g, cur) b) as [g1 cur1]. cbn [fst] in *.
  specialize (IH g1 cur1). simpl. lia.
Qed.

Lemma goto_pattern_count tr g kp g' :
  goto_pattern tr g kp = Ok g' -> g_count g' <= g_count g + length (Content kp.2).
Proof.
  unfold goto_pattern. pose proof (goto_bytes_count tr (Content kp.2) g 0) as Hle.
  destruct (fold_left (goto_byte tr) (Content kp.2) (g, 0)) as [g1 cur].
  cbn [fst] in Hle.
  destruct (index (g_out g1) cur) as [o|e| |]; try done. bind_ok.
  destruct (store (g_out g1) cur (o ++ [kp.1])) as [out|e| |]; try done. bind_ok.
  intros [= <-]. done.
Qed.

Lemma build_goto_count tr (l : list (nat * Pattern)) : forall g g',
  foldM (goto_pattern tr) l g = Ok g' ->
  g_count g' <= g_count g + pattern_bytes l.*2.
Proof.
  induction l as [|kp l IH]; intros g g'; cbn [foldM].
  - intros [= <-]. unfold pattern_bytes. simpl. lia.
  - destruct (goto_pattern tr g kp) as [g1|e| |] eqn:Hstep; try done. bind_ok.
    intros Hrest. apply IH in Hrest. apply goto_pattern_count in Hstep.
    rewrite fmap_cons.
    change (pattern_bytes (kp.2 :: l.*2))
      with (length (Content kp.2) + pattern_bytes l.*2). lia.
Qed.

Section Compile.

Variable range_order : list (nat * nat) -> list (nat * nat).
Hypothesis range_order_perm : forall l, range_order l ≡ₚ l.

(** Compilation succeeds, and yields a matcher that satisfies the
    invariants the search relies on. *)
Lemma compile_ok ps :
  capacity ps ->
  exists ac trie paths,
    compile range_order ps = Ok ac /\
    patterns ac = map registered ps /\
    automaton (map registered ps) ac trie paths /\
    ids_ok (map registered ps) ac /\
    fits ac.
Proof.
  intros Hcap. unfold compile.
  destruct (add_all_spec ps NewACKS)
    as (Hpat & Htr & _ & _ & _ & _ & _ & _ & Hids).
  cbn [patterns NewACKS app translateTable] in Hpat, Htr.
  destruct (Build_ok range_order range_order_perm (add_all NewACKS ps))
    as (ac & trie & paths & Hbuild & Hauto & _ & HmaxID & Hsingle).
  { rewrite Htr. by rewrite length_replicate. }
  assert (patterns ac = map registered ps) as Hpats.
  { unfold Build in Hbuild.
    destruct (initTranslateTable _ _) as [tr asz].
    destruct (build_goto _ _) as [g|e| |]; try done. revert Hbuild. bind_ok.
    destruct (build_failure _ _) as [[f o]|e| |]; try done. bind_ok.
    destruct (build_delta _ _ _) as [tbl|e| |]; try done. bind_ok.
    intros [= <-]. done. }
  rewrite Hpat in Hauto.
  exists ac, trie, paths. split; [done|]. split; [done|]. split; [done|]. split.
  - split.
    + intros p (q & -> & _)%list_elem_of_fmap. done.
    + intros p (q & -> & Hq)%list_elem_of_fmap Hflag.
      rewrite Hsingle, HmaxID. by apply (Hids q).
  - unfold fits.
    assert (stateCount ac <= 1 + pattern_bytes ps) as Hle; [|unfold capacity in Hcap; lia].
    unfold Build in Hbuild.
    destruct (initTranslateTable _ _) as [tr asz].
    destruct (build_goto tr _) as [g|e| |] eqn:Hg; try done. revert Hbuild. bind_ok.
    destruct (build_failure _ _) as [[f o]|e| |]; try done. bind_ok.
    destruct (build_delta _ _ _) as [tbl|e| |]; try done. bind_ok.
    intros [= <-]. cbn [stateCount].
    apply build_goto_count in Hg. cbn [g_count] in Hg.
    rewrite snd_zip in Hg by (rewrite length_seq; lia).
    rewrite Hpat in Hg. unfold pattern_bytes in *. rewrite map_map in Hg. done.
Qed.

End Compile.


(** ** Occurrences of a pattern in a text *)

(** [pat] occurs in [text], byte for byte, and ends at index [i]. *)
Definition occurs_at (pat text : list byte) (i : nat) : Prop :=
  exists pre post, text = pre ++ pat ++ post /\ length (pre ++ pat) = S i.

Definition is_lower (n : nat) : bool := (97 <=? n) && (n <=? 122).

(** [b] is [a], or [a] is an ASCII letter and [b] is [a] in the other
    case. *)
Definition case_variant (a b : byte) : Prop :=
  a = b \/
  (is_upper (Byte.to_nat a) = true /\ Byte.to_nat b = Byte.to_nat a + 32) \/
  (is_lower (Byte.to_nat a) = true /\ Byte.to_nat a = Byte.to_nat b + 32).

(** An ASCII-case variant of [pat] occurs in [text] and ends at index
    [i]. *)
Definition variant_at (pat text : list byte) (i : nat) : Prop :=
  exists pre mid post,
    text = pre ++ mid ++ post /\ length (pre ++ mid) = S i /\
    Forall2 case_variant pat mid.

(** The automaton recognises pattern [p] at index [i]: its word of symbols
    ends there. *)
Definition hits_at (tr : list nat) (p : Pattern) (text : list byte) (i : nat) : Prop :=
  i < length text /\
  tword tr (Content p) `suffix_of` map (sym tr) (take (S i) text).

Lemma case_variant_toLower a b : case_variant a b <-> toLower a = toLower b.
Proof.
  unfold case_variant, is_lower. split.
  - intros [->|[[Hu Hb]|[Hl Ha]]]; [done| |]; apply to_nat_inj;
      rewrite !to_nat_toLower.
    + rewrite Hu. apply is_upper_true in Hu.
      destruct (is_upper (Byte.to_nat b)) eqn:Hub; [|done].
      apply is_upper_true in Hub. lia.
    + apply andb_prop in Hl as [H1%Nat.leb_le H2%Nat.leb_le].
      destruct (is_upper (Byte.to_nat a)) eqn:Hua.
      { apply is_upper_true in Hua. lia. }
      destruct (is_upper (Byte.to_nat b)) eqn:Hub; [done|].
      apply is_upper_false in Hub. lia.
  - intros Heq. apply (f_equal Byte.to_nat) in Heq. rewrite !to_nat_toLower in Heq.
    destruct (is_upper (Byte.to_nat a)) eqn:Hua, (is_upper (Byte.to_nat b)) eqn:Hub.
    + left. apply to_nat_inj. lia.
    + right. left. split; [done|lia].
    + right. right. apply is_upper_true in Hub. split; [|lia].
      apply andb_true_intro. split; apply Nat.leb_le; lia.
    + left. by apply to_nat_inj.
Qed.

Lemma Forall2_case_variant pat mid :
  Forall2 case_variant pat mid <-> map toLower pat = map toLower mid.
Proof.
  split.
  - induction 1 as [|a b pat mid Hab _ IH]; [done|].
    simpl. f_equal; [by apply case_variant_toLower|done].
  - revert mid. induction pat as [|a pat IH]; intros [|b mid] Heq; try done.
    injection Heq as Hab Hrest. constructor; [by apply case_variant_toLower|by apply IH].
Qed.

Lemma take_split {A} (l : list A) n len :
  len <= n -> take n l = take (n - len) l ++ take len (drop (n - len) l).
Proof. intros Hle. rewrite take_take_drop. f_equal. lia. Qed.

Lemma window_eq {A} (l : list A) i len :
  len <= S i -> take len (drop (S i - len) l) = drop (S i - len) (take (S i) l).
Proof. intros Hle. rewrite take_drop_commute. do 2 f_equal. lia. Qed.

Lemma occurs_at_window pat text i :
  occurs_at pat text i <->
  length pat <= S i /\ S i <= length text /\
  take (length pat) (drop (S i - length pat) text) = pat.
Proof.
  split.
  - intros (pre & post & -> & Hlen). rewrite length_app in Hlen.
    split; [lia|]. split; [rewrite !length_app; lia|].
    replace (S i - length pat) with (length pre) by lia.
    rewrite drop_app_length. by rewrite take_app_length.
  - intros (Hle & Hi & Hwin).
    exists (take (S i - length pat) text), (drop (S i) text). split.
    + rewrite <- Hwin at 2. rewrite app_assoc, <- take_split by done.
      by rewrite take_drop.
    + rewrite length_app, length_take. lia.
Qed.

Lemma exact_at_occurs pat text i :
  i < length text -> exact_at pat text i = true <-> occurs_at pat text i.
Proof.
  intros Hi. unfold exact_at. rewrite bool_decide_eq_true, occurs_at_window.
  naive_solver lia.
Qed.

Lemma variant_at_window pat text i :
  variant_at pat text i <->
  length pat <= S i /\ S i <= length text /\
  map toLower (take (length pat) (drop (S i - length pat) text)) = map toLower pat.
Proof.
  split.
  - intros (pre & mid & post & -> & Hlen & Hvar).
    pose proof (Forall2_length _ _ _ Hvar) as Hl.
    apply Forall2_case_variant in Hvar. rewrite length_app in Hlen.
    split; [lia|]. split; [rewrite !length_app; lia|].
    replace (S i - length pat) with (length pre) by lia.
    rewrite drop_app_length, Hl. by rewrite take_app_length.
  - intros (Hle & Hi & Hwin).
    exists (take (S i - length pat) text),
           (take (length pat) (drop (S i - length pat) text)), (drop (S i) text).
    split; [|split].
    + rewrite app_assoc, <- take_split by done. by rewrite take_drop.
    + rewrite length_app, !length_take, length_drop. lia.
    + by apply Forall2_case_variant.
Qed.

Lemma suffix_map_window {A B} (f : A -> B) (w : list B) (l : list A) :
  w `suffix_of` map f l <->
  length w <= length l /\ map f (drop (length l - length w) l) = w.
Proof.
  split.
  - intros [u Hu]. pose proof (f_equal length Hu) as Hlen.
    rewrite length_map, length_app in Hlen. split; [lia|].
    rewrite <- (take_drop (length l - length w) l) in Hu.
    rewrite map_app in Hu. apply app_inj_2 in Hu as [_ ?]; [done|].
    rewrite length_map, length_drop. lia.
  - intros [Hle Heq]. exists (map f (take (length l - length w) l)).
    rewrite <- (take_drop (length l - length w) l) at 1.
    rewrite map_app. by rewrite Heq.
Qed.

Lemma hits_at_variant ps tr asz p text i :
  xlat_ok ps tr asz -> p ∈ ps ->
  hits_at tr p text i <-> i < length text /\ variant_at (Content p) text i.
Proof.
  intros Hx Hp. unfold hits_at. rewrite variant_at_window, suffix_map_window.
  unfold tword. rewrite !length_map.
  assert (forall b, b ∈ Content p -> sym tr b <> 0) as Hused
    by (intros b Hb; by eapply (xl_used _ _ _ Hx)).
  split.
  - intros (Hi & Hle & Heq). rewrite length_take_le in Hle, Heq by lia.
    split; [done|]. split; [done|]. split; [lia|].
    rewrite window_eq by done.
    revert Heq. generalize (drop (S i - length (Content p)) (take (S i) text)).
    clear Hle. induction (Content p) as [|c cs IH]; intros [|m mid] Hmid; try done.
    injection Hmid as Hc Hrest. simpl. f_equal.
    + rewrite <- (toLower_idem c). apply (xl_inj _ _ _ Hx); [done|].
      rewrite Hc, (xl_fold _ _ _ Hx). apply Hused. by left.
    + apply IH; [|done]. intros b Hb. apply Hused. by right.
  - intros (Hi & Hle & _ & Heq). split; [done|]. rewrite length_take_le by lia.
    split; [done|]. rewrite <- window_eq by done.
    rewrite <- (map_map toLower (sym tr)), <- Heq, map_map.
    apply map_ext. intros b. by rewrite (xl_fold _ _ _ Hx).
Qed.


(** ** Properties of the events *)

(** The pattern is reported at index [i] once the automaton has
    recognised it: unconditionally when it is case-insensitive, after the
    byte-for-byte comparison otherwise. *)
Definition verified (p : Pattern) (text : list byte) (i : nat) : bool :=
  has_flag (Flags p) Caseless || exact_at (Content p) text i.

(** The id of an event of a [SingleMatch] pattern. *)
Definition sm_id (ps : list Pattern) (e : nat * nat) : option N :=
  match ps !! e.2 with
  | Some p => if has_flag (Flags p) SingleMatch then Some (ID p) else None
  | None => None
  end.

(** The output set of the state reached at index [i] holds the patterns
    that the automaton recognises there. *)
Record ids_at (ps : list Pattern) (tr : list nat) (text : list byte) (i : nat)
    (ids : list nat) : Prop := {
  ia_nodup : NoDup ids;
  ia_sound : forall k, k ∈ ids -> exists p, ps !! k = Some p /\ hits_at tr p text i;
  ia_complete : forall k p, ps !! k = Some p -> Content p <> [] ->
    hits_at tr p text i -> k ∈ ids
}.

Section OutEvents.

Variable ps : list Pattern.
Variable text : list byte.
Variable i : nat.

Lemma out_events_cons k ids M :
  out_events ps text i (k :: ids) M =
    ((out_events ps text i ids (hit ps text i M k).1).1,
     (hit ps text i M k).2 ++ (out_events ps text i ids (hit ps text i M k).1).2).
Proof.
  cbn [out_events]. destruct (hit ps text i M k) as [m1 e1]. cbn [fst snd].
  by destruct (out_events ps text i ids m1).
Qed.

Lemma hit_mono M k : M ⊆ (hit ps text i M k).1.
Proof.
  unfold hit. destruct (ps !! k) as [p|]; [|done].
  destruct (has_flag (Flags p) SingleMatch); simpl; [|done].
  case_bool_decide; simpl; set_solver.
Qed.

Lemma hit_mark M k p :
  ps !! k = Some p -> has_flag (Flags p) SingleMatch = true ->
  ID p ∈ (hit ps text i M k).1.
Proof.
  intros Hp Hsm. unfold hit. rewrite Hp, Hsm. simpl.
  case_bool_decide; simpl; set_solver.
Qed.

Lemma hit_elem M k e :
  e ∈ (hit ps text i M k).2 ->
  e = (i, k) /\ exists p, ps !! k = Some p /\ verified p text i = true /\
    (has_flag (Flags p) SingleMatch = true -> ID p ∉ M).
Proof.
  unfold hit. destruct (ps !! k) as [p|]; [|by intros ?%elem_of_nil].
  destruct (has_flag (Flags p) SingleMatch && bool_decide (ID p ∈ M)) eqn:Hskip;
    [by intros ?%elem_of_nil|].
  cbn [snd]. fold (verified p text i).
  destruct (verified p text i) eqn:Hv; [|by intros ?%elem_of_nil].
  intros ->%list_elem_of_singleton. split; [done|]. exists p.
  split; [done|]. split; [done|]. intros Hsm. rewrite Hsm in Hskip. simpl in Hskip.
  by apply bool_decide_eq_false in Hskip.
Qed.

Lemma hit_report M k p :
  ps !! k = Some p -> verified p text i = true ->
  has_flag (Flags p) SingleMatch = false \/ ID p ∉ M ->
  (hit ps text i M k).2 = [(i, k)].
Proof.
  intros Hp Hv Hfree. unfold hit. rewrite Hp. fold (verified p text i). rewrite Hv.
  destruct Hfree as [->|Hnot]; [done|].
  rewrite (bool_decide_eq_false_2 _ Hnot). by rewrite andb_false_r.
Qed.

Lemma out_events_mono ids : forall M, M ⊆ (out_events ps text i ids M).1.
Proof.
  induction ids as [|k ids IH]; intros M; [done|].
  rewrite out_events_cons. cbn [fst]. etrans; [apply (hit_mono M k)|apply IH].
Qed.

Lemma out_events_mark ids k p : forall M,
  k ∈ ids -> ps !! k = Some p -> has_flag (Flags p) SingleMatch = true ->
  ID p ∈ (out_events ps text i ids M).1.
Proof.
  induction ids as [|k' ids IH]; intros M Hk Hp Hsm; [by apply elem_of_nil in Hk|].
  rewrite out_events_cons. cbn [fst].
  apply elem_of_cons in Hk as [->|Hk]; [|by apply IH].
  apply out_events_mono. by apply hit_mark.
Qed.

Lemma out_events_elem ids e : forall M,
  e ∈ (out_events ps text i ids M).2 ->
  e.1 = i /\ e.2 ∈ ids /\ exists p,
    ps !! e.2 = Some p /\ verified p text i = true /\
    (has_flag (Flags p) SingleMatch = true -> ID p ∉ M).
Proof.
  induction ids as [|k ids IH]; intros M; [by intros ?%elem_of_nil|].
  rewrite out_events_cons. cbn [snd]. intros [He|He]%elem_of_app.
  - apply hit_elem in He as (-> & p & Hp & Hv & Hm). simpl.
    split; [done|]. split; [by left|]. by exists p.
  - apply IH in He as (Hi & Hin & p & Hp & Hv & Hm).
    split; [done|]. split; [by right|]. exists p.
    split; [done|]. split; [done|]. intros Hsm Hid. apply (Hm Hsm).
    by apply hit_mono.
Qed.

Lemma out_events_complete ids k p : forall M,
  k ∈ ids -> ps !! k = Some p -> has_flag (Flags p) SingleMatch = false ->
  verified p text i = true -> (i, k) ∈ (out_events ps text i ids M).2.
Proof.
  induction ids as [|k' ids IH]; intros M Hk Hp Hsm Hv; [by apply elem_of_nil in Hk|].
  rewrite out_events_cons. cbn [snd]. apply elem_of_app.
  apply elem_of_cons in Hk as [->|Hk]; [left|right; by apply IH].
  rewrite (hit_report M k' p) by auto. by left.
Qed.

Lemma out_events_NoDup ids : forall M,
  NoDup ids -> NoDup (out_events ps text i ids M).2.
Proof.
  induction ids as [|k ids IH]; intros M Hnd; [apply NoDup_nil_2|].
  apply NoDup_cons in Hnd as [Hk Hnd].
  rewrite out_events_cons. cbn [snd]. apply NoDup_app. split; [|split; [|by apply IH]].
  - unfold hit. destruct (ps !! k); [|apply NoDup_nil_2].
    destruct (_ && _); [apply NoDup_nil_2|]. cbn [snd].
    destruct (_ || _); [apply NoDup_singleton|apply NoDup_nil_2].
  - intros e (-> & _)%hit_elem (_ & Hin & _)%out_events_elem. done.
Qed.

Lemma out_events_sm ids : forall M,
  NoDup (omap (sm_id ps) (out_events ps text i ids M).2) /\
  forall id, (id ∈ omap (sm_id ps) (out_events ps text i ids M).2) ->
    (id ∉ M) /\ (id ∈ (out_events ps text i ids M).1).
Proof.
  induction ids as [|k ids IH]; intros M.
  { split; [apply NoDup_nil_2|]. by intros id ?%elem_of_nil. }
  rewrite out_events_cons. cbn [fst snd]. rewrite omap_app.
  destruct (IH (hit ps text i M k).1) as [Hnd Hids].
  assert (forall id, (id ∈ omap (sm_id ps) (hit ps text i M k).2) ->
            (id ∉ M) /\ (id ∈ (hit ps text i M k).1)) as Hhit.
  { intros id (e & He & Hid)%list_elem_of_omap.
    apply hit_elem in He as (-> & p & Hp & _ & Hm).
    unfold sm_id in Hid. cbn [snd] in Hid. rewrite Hp in Hid.
    destruct (has_flag (Flags p) SingleMatch) eqn:Hsm; [|done].
    injection Hid as <-. split; [by apply Hm|]. by apply hit_mark. }
  split.
  - apply NoDup_app. split; [|split; [|done]].
    + unfold hit. destruct (ps !! k); [|apply NoDup_nil_2].
      destruct (_ && _); [apply NoDup_nil_2|]. cbn [snd].
      destruct (_ || _); [|apply NoDup_nil_2]. simpl.
      destruct (sm_id ps (i, k)); [apply NoDup_singleton|apply NoDup_nil_2].
    + intros id [_ Hin]%Hhit [Hnot _]%Hids. done.
  - intros id [Hin|Hin]%elem_of_app.
    + destruct (Hhit id Hin) as [Hnot Hin']. split; [done|].
      by apply out_events_mono.
    + destruct (Hids id Hin) as [Hnot Hin']. split; [|done].
      intros HM. apply Hnot. by apply hit_mono.
Qed.

End OutEvents.

Section Events.

Variable ps : list Pattern.
Variable ac : ACKS.
Variable trie : gmap nat (gmap nat nat).
Variable paths : list (list nat).
Hypothesis Hauto : automaton ps ac trie paths.
Hypothesis Hfits : fits ac.
Variable text : list byte.

Lemma step_ids pre b rest s :
  text = pre ++ b :: rest ->
  longest_node paths (map (sym (translateTable ac)) pre) s ->
  longest_node paths (map (sym (translateTable ac)) (pre ++ [b])) (delta ac s b) /\
  ids_at ps (translateTable ac) text (length pre) (outputTable ac !!! delta ac s b).
Proof.
  intros Htext Hs. pose proof Hs as (w & Hw & _).
  destruct (next_state_spec (E:=Empty_set) ps ac trie paths Hauto Hfits s w b Hw)
    as (t & _ & -> & Ht).
  assert (longest_node paths (map (sym (translateTable ac)) (pre ++ [b])) t) as Hlong.
  { rewrite map_app. simpl.
    by apply (longest_node_step trie paths (au_wf _ _ _ _ Hauto) _ s w). }
  split; [done|].
  pose proof Hlong as (v & Hv & Hvsuf & _).
  destruct (au_out _ _ _ _ Hauto t v Hv) as (o & Ho & Hnd & Hsound & Hcompl).
  rewrite (list_lookup_total_correct _ _ _ Ho).
  assert (take (S (length pre)) text = pre ++ [b]) as Htake.
  { rewrite Htext. replace (S (length pre)) with (length pre + 1) by lia.
    by rewrite take_app_add. }
  assert (length pre < length text) as Hlt.
  { rewrite Htext, length_app. simpl. lia. }
  split; [done| |].
  - intros k Hk. destruct (Hsound k Hk) as (p & Hp & Hsuf). exists p.
    split; [done|]. split; [done|]. rewrite Htake. by etrans.
  - intros k p Hp Hne [_ Hhit]. apply (Hcompl k p Hp Hne). rewrite Htake in Hhit.
    pose proof (au_nodes _ _ _ _ Hauto k p Hp) as Hnode.
    apply list_elem_of_lookup in Hnode as [t' Ht'].
    by eapply (longest_node_suffix paths _ t v t').
Qed.

(** Induction over the positions of the text. *)
Lemma events_ind (P : nat -> gset N -> list (nat * nat) -> Prop) :
  (forall M, P (length text) M []) ->
  (forall i M ids E,
     i < length text ->
     ids_at ps (translateTable ac) text i ids ->
     P (S i) (out_events ps text i ids M).1 E ->
     P i M ((out_events ps text i ids M).2 ++ E)) ->
  P 0 ∅ (events ps ac text).
Proof.
  intros Hbase Hstep.
  assert (forall rest pre s M,
            text = pre ++ rest ->
            longest_node paths (map (sym (translateTable ac)) pre) s ->
            P (length pre) M (text_events ps ac text (length pre) rest s M)) as Hgen.
  { induction rest as [|b rest IH]; intros pre s M Htext Hs.
    - rewrite app_nil_r in Htext. subst pre. apply Hbase.
    - cbn [text_events].
      destruct (step_ids pre b rest s Htext Hs) as [Hs' Hids].
      destruct (out_events ps text (length pre) _ M) as [m' e] eqn:Hev.
      pose proof (Hstep (length pre) M (outputTable ac !!! delta ac s b)
                    (text_events ps ac text (S (length pre)) rest (delta ac s b) m')) as Hst.
      rewrite Hev in Hst. cbn [fst snd] in Hst. apply Hst.
      + rewrite Htext, length_app. simpl. lia.
      + done.
      + specialize (IH (pre ++ [b]) (delta ac s b) m').
        rewrite length_app in IH. simpl in IH. rewrite Nat.add_1_r in IH.
        apply IH; [by rewrite <- app_assoc|done]. }
  apply (Hgen text [] 0 ∅); [done|].
  apply (longest_node_nil trie paths), Hauto.
Qed.

(** Every event is a verified recognition, and events come in the order
    of the text. *)
Lemma events_sound e :
  e ∈ events ps ac text ->
  exists p, ps !! e.2 = Some p /\ hits_at (translateTable ac) p text e.1 /\
            verified p text e.1 = true.
Proof.
  intros He.
  cut (0 <= e.1 /\ exists p, ps !! e.2 = Some p /\
         hits_at (translateTable ac) p text e.1 /\ verified p text e.1 = true);
    [by intros [_ ?]|].
  revert e He.
  apply (events_ind (fun i M E => forall e, e ∈ E -> i <= e.1 /\ exists p,
           ps !! e.2 = Some p /\ hits_at (translateTable ac) p text e.1 /\
           verified p text e.1 = true)).
  - by intros M e ?%elem_of_nil.
  - intros i M ids E Hi Hids IH e [He|He]%elem_of_app.
    + apply out_events_elem in He as (Hei & Hin & p & Hp & Hv & _).
      split; [lia|]. exists p. rewrite Hei. split; [done|]. split; [|done].
      destruct (ia_sound _ _ _ _ _ Hids _ Hin) as (p' & Hp' & Hhit). congruence.
    + destruct (IH e He) as [Hle Hrest]. split; [lia|done].
Qed.

(** A recognition of a pattern without [SingleMatch] is reported when it
    is verified. *)
Lemma events_complete i k p :
  ps !! k = Some p -> has_flag (Flags p) SingleMatch = false ->
  Content p <> [] -> hits_at (translateTable ac) p text i ->
  verified p text i = true -> (i, k) ∈ events ps ac text.
Proof.
  intros Hp Hsm Hne Hhit Hv.
  cut (0 <= i -> (i, k) ∈ events ps ac text); [intros H; apply H; lia|].
  apply (events_ind (fun j M E => j <= i -> (i, k) ∈ E)).
  - intros M Hle. destruct Hhit as [Hlt _]. lia.
  - intros j M ids E Hj Hids IH Hle. apply elem_of_app.
    destruct (decide (j = i)) as [->|Hne'].
    + left. apply (out_events_complete ps text i ids k p); try done.
      by apply (ia_complete _ _ _ _ _ Hids k p).
    + right. apply IH. lia.
Qed.

Lemma events_NoDup : NoDup (events ps ac text).
Proof.
  cut (NoDup (events ps ac text) /\ forall e, e ∈ events ps ac text -> 0 <= e.1);
    [by intros [? _]|].
  apply (events_ind (fun i M E => NoDup E /\ forall e, e ∈ E -> i <= e.1)).
  - intros M. split; [apply NoDup_nil_2|]. by intros e ?%elem_of_nil.
  - intros i M ids E Hi Hids [Hnd Hge]. split.
    + apply NoDup_app. split; [apply out_events_NoDup, Hids|]. split; [|done].
      intros e (Hei & _)%out_events_elem He. apply Hge in He. lia.
    + intros e [(Hei & _)%out_events_elem|He%Hge]%elem_of_app; lia.
Qed.

(** The events of [SingleMatch] patterns carry pairwise distinct ids. *)
Lemma events_single : NoDup (omap (sm_id ps) (events ps ac text)).
Proof.
  cut (NoDup (omap (sm_id ps) (events ps ac text)) /\
       forall id, (id ∈ omap (sm_id ps) (events ps ac text)) -> id ∉ (∅ : gset N));
    [by intros [? _]|].
  apply (events_ind (fun i M E =>
           NoDup (omap (sm_id ps) E) /\ forall id, (id ∈ omap (sm_id ps) E) -> id ∉ M)).
  - intros M. split; [apply NoDup_nil_2|]. by intros id ?%elem_of_nil.
  - intros i M ids E Hi Hids [Hnd Hnot]. rewrite omap_app.
    destruct (out_events_sm ps text i ids M) as [Hnd1 Hids1]. split.
    + apply NoDup_app. split; [done|]. split; [|done].
      intros id [_ Hin]%Hids1 Hin'%Hnot. done.
    + intros id [[? _]%Hids1|Hin%Hnot]%elem_of_app; [done|].
      intros HM. apply Hin. by apply out_events_mono.
Qed.

(** A [SingleMatch] pattern that is recognised first at an index where the
    byte-for-byte comparison fails is never reported: its id is marked
    there. *)
Lemma events_first_miss i0 p :
  p ∈ ps ->
  has_flag (Flags p) SingleMatch = true ->
  has_flag (Flags p) Caseless = false ->
  hits_at (translateTable ac) p text i0 ->
  exact_at (Content p) text i0 = false ->
  (forall j, j < i0 -> ~ hits_at (translateTable ac) p text j) ->
  (forall q, q ∈ ps -> ID q = ID p -> q = p) ->
  forall e q, e ∈ events ps ac text -> ps !! e.2 = Some q -> ID q <> ID p.
Proof.
  intros Hp Hsm Hcl Hhit Hexact Hfirst Huniq.
  assert (Content p <> []) as Hne.
  { intros Hnil. unfold exact_at in Hexact. rewrite Hnil in Hexact.
    apply bool_decide_eq_false in Hexact. apply Hexact.
    split; [simpl; lia|done]. }
  apply list_elem_of_lookup in Hp as [k Hk].
  cut ((0 <= i0 \/ ID p ∈ (∅ : gset N)) ->
       forall e q, e ∈ events ps ac text -> ps !! e.2 = Some q -> ID q <> ID p);
    [intros H; apply H; left; lia|].
  apply (events_ind (fun i M E => i <= i0 \/ ID p ∈ M ->
           forall e q, e ∈ E -> ps !! e.2 = Some q -> ID q <> ID p)).
  - by intros M _ e q ?%elem_of_nil.
  - intros i M ids E Hi Hids IH Hcase e q [He|He]%elem_of_app Hq Hid.
    + apply out_events_elem in He as (Hei & Hin & q' & Hq' & Hv & Hm).
      assert (q' = q) as -> by congruence.
      assert (q = p) as ->.
      { apply Huniq; [by eapply list_elem_of_lookup_2|done]. }
      destruct (ia_sound _ _ _ _ _ Hids _ Hin) as (p' & Hp' & Hhit').
      assert (p' = p) as -> by congruence.
      destruct Hcase as [Hle|HM]; [|by apply (Hm Hsm)].
      destruct (decide (i = i0)) as [->|Hne'].
      * unfold verified in Hv. by rewrite Hcl, Hexact in Hv.
      * apply (Hfirst i); [lia|done].
    + apply (IH) with (e := e) (q := q); try done.
      destruct Hcase as [Hle|HM]; [|right; by apply out_events_mono].
      destruct (decide (i = i0)) as [->|Hne']; [right|left; lia].
      apply (out_events_mark ps text i0 ids k p); try done.
      by apply (ia_complete _ _ _ _ _ Hids k p).
Qed.

End Events.


(** ** What Search and Scan deliver *)

(** The ids and the callback arguments of a list of events. *)
Definition event_ids (ps : list Pattern) (evs : list (nat * nat)) : list N :=
  omap (fun e => ID <$> ps !! e.2) evs.

Definition event_calls (ps : list Pattern) (evs : list (nat * nat))
  : list (N * nat * nat) :=
  omap (fun e => (fun p => (ID p, 0, S e.1)) <$> ps !! e.2) evs.

(** A callback that also records its invocations [(id, from, to)]. *)
Definition logged {St E} (m : @MatchedHandler St E)
  : @MatchedHandler (St * list (N * nat * nat)) E :=
  fun id from to sl =>
    let '(s', r) := m id from to sl.1 in
    ((s', sl.2 ++ [(id, from, to)]), r).

(** The invocations that [Scan] makes of a callback that never fails. *)
Definition scan_log (ac : ACKS) (text : list byte) : list (N * nat * nat) :=
  (Scan (E:=Empty_set) ac text
     (fun id from to log => (log ++ [(id, from, to)], None)) []).1.

(** The results of the invocations [calls], made in order from state
    [s]. *)
Fixpoint replay {St E} (m : @MatchedHandler St E) (calls : list (N * nat * nat))
    (s : St) : St * list (option E) :=
  match calls with
  | [] => (s, [])
  | c :: calls' =>
      let '(s', r) := m c.1.1 c.1.2 c.2 s in
      let '(s'', rs) := replay m calls' s' in
      (s'', r :: rs)
  end.

(** A pattern matches at index [i]: in any case variant when it is
    case-insensitive, byte for byte otherwise. *)
Definition matches_at (p : Pattern) (text : list byte) (i : nat) : Prop :=
  if has_flag (Flags p) Caseless then variant_at (Content p) text i
  else occurs_at (Content p) text i.

#[global] Instance occurs_at_dec pat text i : Decision (occurs_at pat text i).
Proof.
  refine (cast_if (decide (length pat <= S i /\ S i <= length text /\
            take (length pat) (drop (S i - length pat) text) = pat)));
    by rewrite occurs_at_window.
Defined.

#[global] Instance Pattern_inhabited : Inhabited Pattern :=
  populate (mkPattern [] 0%N 0%N 0%Z).

Lemma event_ids_cons ps e evs p :
  ps !! e.2 = Some p -> event_ids ps (e :: evs) = ID p :: event_ids ps evs.
Proof. intros Hp. unfold event_ids. simpl. by rewrite Hp. Qed.

Lemma event_calls_cons ps e evs p :
  ps !! e.2 = Some p ->
  event_calls ps (e :: evs) = (ID p, 0, S e.1) :: event_calls ps evs.
Proof. intros Hp. unfold event_calls. simpl. by rewrite Hp. Qed.

Lemma deliver_search {E} ps evs : forall acc,
  (forall e, e ∈ evs -> is_Some (ps !! e.2)) ->
  deliver (E:=E) (fun (pos : nat) (pat : Pattern) (matches : list N) =>
                    (matches ++ [ID pat], None)) ps evs acc
    = (acc ++ event_ids ps evs, Ok ()).
Proof.
  induction evs as [|e evs IH]; intros acc Hval.
  { simpl. by rewrite app_nil_r. }
  destruct (Hval e) as [p Hp]; [by left|]. rewrite (event_ids_cons _ _ _ _ Hp).
  cbn [deliver]. rewrite Hp. unfold call.
  rewrite IH by (intros e' He'; apply Hval; by right).
  by rewrite <- app_assoc.
Qed.

Lemma replay_app {St E} (m : @MatchedHandler St E) c1 c2 s :
  replay m (c1 ++ c2) s =
    ((replay m c2 (replay m c1 s).1).1,
     (replay m c1 s).2 ++ (replay m c2 (replay m c1 s).1).2).
Proof.
  revert s. induction c1 as [|c c1 IH]; intros s; simpl.
  { by destruct (replay m c2 s). }
  destruct (m c.1.1 c.1.2 c.2 s) as [s' r]. rewrite IH.
  destruct (replay m c1 s') as [s1 r1]. simpl.
  by destruct (replay m c2 s1).
Qed.

(** [Scan] calls the callback on the events in order; the calls made are
    those of a prefix of the events, all successful except, when the scan
    fails, the last. *)
Lemma deliver_logged {St E} (m : @MatchedHandler St E) ps evs : forall s log,
  (forall e, e ∈ evs -> is_Some (ps !! e.2)) ->
  exists evs1 evs2 s' r,
    evs = evs1 ++ evs2 /\
    deliver (fun pos pat => logged m (ID pat) 0 pos) ps evs (s, log)
      = ((s', log ++ event_calls ps evs1), r) /\
    (replay m (event_calls ps evs1) s).1 = s' /\
    (forall err rest, r = Err err ->
       deliver (fun pos pat => logged m (ID pat) 0 pos) ps (evs1 ++ rest) (s, log)
         = ((s', log ++ event_calls ps evs1), r)) /\
    match r with
    | Ok _ => evs2 = [] /\
              (replay m (event_calls ps evs1) s).2
                = replicate (length (event_calls ps evs1)) None
    | Err err => exists evs0 ev, evs1 = evs0 ++ [ev] /\
              (replay m (event_calls ps evs1) s).2
                = replicate (length (event_calls ps evs0)) None ++ [Some err]
    | _ => False
    end.
Proof.
  induction evs as [|e evs IH]; intros s log Hval.
  { exists [], [], s, (Ok ()). simpl. by rewrite app_nil_r. }
  destruct (Hval e) as [p Hp]; [by left|].
  cbn [deliver]. rewrite Hp. unfold call, logged at 1. cbn [fst snd].
  destruct (m (ID p) 0 (S e.1) s) as [s1 [err|]] eqn:Hm.
  - exists [e], evs, s1, (Err err). split; [done|].
    rewrite (event_calls_cons _ _ _ _ Hp). simpl. rewrite Hm. simpl.
    split; [done|]. split; [done|]. split.
    { intros err' rest _. cbn [app deliver]. rewrite Hp. unfold call, logged at 1.
      cbn [fst snd]. by rewrite Hm. }
    exists [], e. done.
  - destruct (IH s1 (log ++ [(ID p, 0, S e.1)]))
      as (evs1 & evs2 & s' & r & -> & Hrun & Hs' & Hcut & Hr).
    { intros e' He'. apply Hval. by right. }
    exists (e :: evs1), evs2, s', r. split; [done|].
    rewrite (event_calls_cons _ _ _ _ Hp). split.
    { rewrite Hrun. by rewrite <- app_assoc. }
    cbn [replay fst snd]. rewrite Hm.
    destruct (replay m (event_calls ps evs1) s1) as [s2 rs] eqn:Hrep.
    cbn [fst snd] in *. split; [done|]. split.
    { intros err rest Hr'. rewrite <- app_comm_cons. cbn [deliver]. rewrite Hp.
      unfold call, logged at 1. cbn [fst snd]. rewrite Hm.
      rewrite (Hcut err rest Hr'). by rewrite <- app_assoc. }
    destruct r as [[]|err| |]; try done.
    + destruct Hr as [-> ->]. done.
    + destruct Hr as (evs0 & ev & -> & ->). exists (e :: evs0), ev. split; [done|].
      by rewrite (event_calls_cons _ _ _ _ Hp).
Qed.

Section Delivered.

Variable range_order : list (nat * nat) -> list (nat * nat).
Hypothesis range_order_perm : forall l, range_order l ≡ₚ l.

(** The compiled matcher, and what its searches compute. *)
Lemma compiled ps :
  capacity ps ->
  exists ac trie paths,
    compile range_order ps = Ok ac /\
    patterns ac = map registered ps /\
    automaton (patterns ac) ac trie paths /\
    ids_ok (patterns ac) ac /\
    fits ac /\
    (forall St E threshold text (matched : @matchedPattern St E) h,
       searchPatterns_with threshold ac text matched h =
         deliver matched (patterns ac) (events (patterns ac) ac text) h) /\
    (forall E text,
       Search (E:=E) ac text = Ok (event_ids (patterns ac) (events (patterns ac) ac text))) /\
    (forall text,
       scan_log ac text = event_calls (patterns ac) (events (patterns ac) ac text)).
Proof.
  intros Hcap.
  destruct (compile_ok range_order range_order_perm ps Hcap)
    as (ac & trie & paths & Hc & Hpats & Hauto & Hids & Hfits).
  rewrite <- Hpats in Hauto, Hids.
  exists ac, trie, paths. repeat (split; [done|]).
  assert (forall St E threshold text (matched : @matchedPattern St E) h,
            searchPatterns_with threshold ac text matched h =
              deliver matched (patterns ac) (events (patterns ac) ac text) h) as Hsearch.
  { intros. by eapply searchPatterns_with_spec. }
  assert (forall text e, e ∈ events (patterns ac) ac text ->
            is_Some (patterns ac !! e.2)) as Hval.
  { intros text e He.
    destruct (events_sound _ _ _ _ Hauto Hfits text e He) as (p & Hp & _). eauto. }
  split; [done|]. split.
  - intros E text. unfold Search, searchPatterns. rewrite Hsearch.
    rewrite deliver_search by apply Hval. done.
  - intros text. unfold scan_log, Scan, searchPatterns. rewrite Hsearch.
    generalize (Hval text). generalize (events (patterns ac) ac text).
    intros evs Hv.
    assert (forall acc,
              (deliver (E:=Empty_set)
                 (fun (pos : nat) (ps0 : Pattern) (s : list (N * nat * nat)) =>
                    (s ++ [(ID ps0, 0, pos)], None)) (patterns ac) evs acc).1
              = acc ++ event_calls (patterns ac) evs) as Hgen; [|apply (Hgen [])].
    induction evs as [|e evs IH]; intros acc.
    { simpl. by rewrite app_nil_r. }
    destruct (Hv e) as [p Hp]; [by left|]. rewrite (event_calls_cons _ _ _ _ Hp).
    cbn [deliver]. rewrite Hp. unfold call.
    rewrite IH by (intros e' He'; apply Hv; by right).
    by rewrite <- app_assoc.
Qed.

End Delivered.


(** ** The events are the matches *)

Lemma occurs_at_variant pat text i : occurs_at pat text i -> variant_at pat text i.
Proof.
  intros (pre & post & -> & Hlen). exists pre, pat, post.
  split; [done|]. split; [done|].
  apply Forall2_case_variant. done.
Qed.

Lemma foldM_app {E A B} (f : A -> B -> result E A) l1 l2 a :
  foldM f (l1 ++ l2) a = foldM f l1 a ≫= foldM f l2.
Proof.
  revert a. induction l1 as [|x l1 IH]; intros a; [done|].
  simpl. destruct (f a x) as [a'|e| |]; try done. bind_ok. apply IH.
Qed.

Section Matches.

Variable ps : list Pattern.
Variable ac : ACKS.
Variable trie : gmap nat (gmap nat nat).
Variable paths : list (list nat).
Hypothesis Hauto : automaton ps ac trie paths.
Hypothesis Hfits : fits ac.

Lemma hits_matches p text i :
  p ∈ ps -> hits_at (translateTable ac) p text i -> verified p text i = true ->
  i < length text /\ matches_at p text i.
Proof.
  intros Hp Hhit Hv.
  apply (hits_at_variant ps _ _ p text i (au_xlat _ _ _ _ Hauto) Hp) in Hhit as [Hi Hvar].
  split; [done|]. unfold matches_at, verified in *.
  destruct (has_flag (Flags p) Caseless); [done|]. simpl in Hv.
  by apply exact_at_occurs.
Qed.

Lemma matches_hits p text i :
  p ∈ ps -> i < length text -> matches_at p text i ->
  hits_at (translateTable ac) p text i /\ verified p text i = true.
Proof.
  intros Hp Hi Hm. unfold matches_at, verified in *.
  destruct (has_flag (Flags p) Caseless) eqn:Hcl.
  - split; [|done]. by apply (hits_at_variant ps _ _ p text i (au_xlat _ _ _ _ Hauto) Hp).
  - split.
    + apply (hits_at_variant ps _ _ p text i (au_xlat _ _ _ _ Hauto) Hp).
      split; [done|]. by apply occurs_at_variant.
    + simpl. by apply exact_at_occurs.
Qed.

Lemma events_matches text e :
  e ∈ events ps ac text ->
  exists p, ps !! e.2 = Some p /\ e.1 < length text /\ matches_at p text e.1.
Proof.
  intros He. destruct (events_sound _ _ _ _ Hauto Hfits text e He) as (p & Hp & Hhit & Hv).
  exists p. split; [done|]. apply hits_matches; try done.
  by eapply list_elem_of_lookup_2.
Qed.

Lemma matches_events text i k p :
  ps !! k = Some p -> has_flag (Flags p) SingleMatch = false -> Content p <> [] ->
  i < length text -> matches_at p text i -> (i, k) ∈ events ps ac text.
Proof.
  intros Hp Hsm Hne Hi Hm.
  destruct (matches_hits p text i) as [Hhit Hv]; try done.
  { by eapply list_elem_of_lookup_2. }
  by eapply events_complete.
Qed.

(** The state of the loop after a text. *)
Lemma dfa_run_spec text :
  exists s, dfa_run (E:=Empty_set) ac text = Ok (Z.of_nat s) /\
            longest_node paths (map (sym (translateTable ac)) text) s /\
            s = fold_left (delta ac) text 0.
Proof.
  unfold dfa_run.
  assert (forall rest pre s,
            longest_node paths (map (sym (translateTable ac)) pre) s ->
            exists s', foldM (fun cs b =>
                         next_state (E:=Empty_set) ac cs (translateTable ac !!! Byte.to_nat b))
                         rest (Z.of_nat s) = Ok (Z.of_nat s') /\
                       longest_node paths (map (sym (translateTable ac)) (pre ++ rest)) s' /\
                       s' = fold_left (delta ac) rest s) as Hgen.
  { induction rest as [|b rest IH]; intros pre s Hs.
    - exists s. rewrite app_nil_r. by split.
    - pose proof Hs as (w & Hw & _).
      destruct (next_state_spec (E:=Empty_set) ps ac trie paths Hauto Hfits s w b Hw)
        as (t & Hnext & Hdelta & Ht).
      destruct (IH (pre ++ [b]) t) as (s' & Hrun & Hlong & Hfold).
      { rewrite map_app. simpl.
        by apply (longest_node_step trie paths (au_wf _ _ _ _ Hauto) _ s w). }
      exists s'. cbn [foldM fold_left]. fold (sym (translateTable ac) b).
      rewrite Hnext. bind_ok. rewrite Hdelta. rewrite <- app_assoc in Hlong. done. }
  apply (Hgen text [] 0). apply (longest_node_nil trie paths), Hauto.
Qed.

(** The output set of the state reached at index [i]. *)
Lemma dfa_run_ids text i :
  i < length text ->
  exists s, dfa_run (E:=Empty_set) ac (take (S i) text) = Ok (Z.of_nat s) /\
            s < length paths /\
            ids_at ps (translateTable ac) text i (outputTable ac !!! s).
Proof.
  intros Hi. destruct (lookup_lt_is_Some_2 text i Hi) as [b Hb].
  pose proof (take_drop_middle text i b Hb) as Htext.
  assert (take (S i) text = take i text ++ [b]) as Htake by (by apply take_S_r).
  destruct (dfa_run_spec (take i text)) as (s & Hrun & Hs & _).
  destruct (step_ids ps ac trie paths Hauto Hfits text (take i text) b (drop (S i) text) s)
    as [Hs' Hids]; [done|done|].
  rewrite length_take_le in Hids by lia.
  exists (delta ac s b). split; [|split; [by eapply longest_node_lt|done]].
  rewrite Htake. unfold dfa_run in *. rewrite foldM_app, Hrun. bind_ok. cbn [foldM].
  pose proof Hs as (w & Hw & _).
  destruct (next_state_spec (E:=Empty_set) ps ac trie paths Hauto Hfits s w b Hw)
    as (t & Hnext & Hdelta & _).
  fold (sym (translateTable ac) b). rewrite Hnext. bind_ok. by rewrite Hdelta.
Qed.

End Matches.


(** * The claims of the specification *)

(** [mkPat] of the test file. *)
Definition mkPat (content : String.string) (id : N) (flags : Flag) : Pattern :=
  let bytes := String.list_byte_of_string content in
  mkPattern bytes id flags (Z.of_nat (length bytes)).

(** [[]byte(s)] of a string literal. *)
Definition bytes (s : String.string) : list byte := String.list_byte_of_string s.

(** The patterns of the first scenario of the specification. *)
Definition ushers_patterns : list Pattern :=
  [mkPat "he" 1 0%N; mkPat "she" 2 0%N; mkPat "his" 3 0%N].

(** The patterns of the fourth scenario. *)
Definition mixed_patterns : list Pattern :=
  [mkPat "foo" 1 SingleMatch; mkPat "bar" 2 Caseless].

Lemma events_ext ps ac ac' text :
  translateTable ac' = translateTable ac -> alphabetSize ac' = alphabetSize ac ->
  stateTable ac' = stateTable ac -> outputTable ac' = outputTable ac ->
  events ps ac' text = events ps ac text.
Proof.
  intros Htr Hasz Htbl Hout. unfold events.
  generalize 0 at 2 4. generalize (∅ : gset N). generalize 0.
  generalize text at 2 4.
  induction text0 as [|b rest IH]; intros i M s; [done|].
  cbn [text_events].
  assert (delta ac' s b = delta ac s b) as ->.
  { unfold delta. by rewrite Htr, Hasz, Htbl. }
  rewrite Hout. destruct (out_events ps text i _ M) as [m' e]. by rewrite IH.
Qed.

Lemma automaton_ext ps ac ac' trie paths :
  automaton ps ac trie paths ->
  translateTable ac' = translateTable ac -> alphabetSize ac' = alphabetSize ac ->
  stateTable ac' = stateTable ac -> outputTable ac' = outputTable ac ->
  stateCount ac' = stateCount ac ->
  (forall k p, ps !! k = Some p -> patterns ac' !! k = Some p) ->
  automaton ps ac' trie paths.
Proof.
  intros [Hpat Hx Hwf Hcount Hol Htl Hdelta Hnodes Hout] Htr Hasz Htbl Ho Hc Hp.
  split; rewrite ?Htr, ?Hasz, ?Htbl, ?Ho, ?Hc; done.
Qed.

Section Claims.

Variable range_order : list (nat * nat) -> list (nat * nat).
Hypothesis range_order_perm : forall l, range_order l ≡ₚ l.

(** C8. The threshold that selects the record of reported ids (the
    bit-indexed slice at or below it, the map above it) does not change
    what a search computes: for any two thresholds the handler receives the
    same events and the search returns the same result. *)
Theorem C8_threshold_irrelevant ps :
  capacity ps ->
  exists ac, compile range_order ps = Ok ac /\
    forall (St E : Type) (t1 t2 : N) text (matched : @matchedPattern St E) h,
      searchPatterns_with t1 ac text matched h =
      searchPatterns_with t2 ac text matched h.
Proof.
  intros Hcap.
  destruct (compiled range_order range_order_perm ps Hcap)
    as (ac & trie & paths & Hc & _ & _ & _ & _ & Hsearch & _).
  exists ac. split; [done|]. intros. by rewrite !Hsearch.
Qed.

(** C7. [AddPattern] returns a nil error for every pattern; and after
    [Build], registering one more pattern leaves the translation,
    transition and output tables as they are and does not change what
    [searchPatterns], [Search] and [Scan] compute on any text. *)
Theorem C7_add_after_build ps :
  capacity ps ->
  (forall (E : Type) ac p, (AddPattern (E:=E) ac p).2 = None) /\
  exists ac, compile range_order ps = Ok ac /\
    forall p, let ac' := (AddPattern (E:=Empty_set) ac p).1 in
      translateTable ac' = translateTable ac /\
      stateTable ac' = stateTable ac /\
      outputTable ac' = outputTable ac /\
      (forall (St E : Type) text (matched : @matchedPattern St E) h,
         searchPatterns ac' text matched h = searchPatterns ac text matched h) /\
      (forall (E : Type) text, Search (E:=E) ac' text = Search ac text) /\
      (forall (St E : Type) text (m : @MatchedHandler St E) s,
         Scan ac' text m s = Scan ac text m s).
Proof.
  intros Hcap. split; [done|].
  destruct (compiled range_order range_order_perm ps Hcap)
    as (ac & trie & paths & Hc & _ & Hauto & Hids & Hfits & Hsearch & _).
  exists ac. split; [done|]. intros p ac'.
  destruct (AddPattern_spec (E:=Empty_set) ac p)
    as (Hpat & Htr & Hasz & Htbl & Hout & Hcnt & Hsm & Hmax). fold ac' in Hpat, Htr, Hasz, Htbl, Hout, Hcnt, Hsm, Hmax.
  split; [done|]. split; [done|]. split; [done|].
  assert (forall (St E : Type) text (matched : @matchedPattern St E) h,
            searchPatterns ac' text matched h = searchPatterns ac text matched h) as Heq.
  { intros St E text matched h. unfold searchPatterns. rewrite Hsearch.
    rewrite (searchPatterns_with_spec (patterns ac) ac' trie paths).
    - by rewrite (events_ext _ ac ac').
    - apply (automaton_ext _ ac); try done.
      intros k q Hq. rewrite Hpat. by apply lookup_app_l_Some.
    - unfold fits in *. by rewrite Hcnt.
    - destruct Hids as [Hlen Hsingle]. split; [done|].
      intros q Hq Hflag. destruct (Hsingle q Hq Hflag) as [Hon Hle].
      rewrite Hsm, Hmax, Hon. split; [by destruct (has_flag _ _)|].
      destruct (N.ltb_spec (maxID ac) (ID p)); lia. }
  split; [done|]. split.
  - intros E text. unfold Search. by rewrite Heq.
  - intros St E text m s. unfold Scan. by rewrite Heq.
Qed.

End Claims.


(** ** The events of a text depend on the bytes read so far *)

Lemma exact_at_prefix content t1 t2 i :
  take (S i) t1 = take (S i) t2 -> exact_at content t1 i = exact_at content t2 i.
Proof.
  intros Heq. unfold exact_at. apply bool_decide_ext.
  split; intros [Hle Hw]; (split; [done|]).
  - rewrite window_eq by done. rewrite window_eq in Hw by done. by rewrite <- Heq.
  - rewrite window_eq by done. rewrite window_eq in Hw by done. by rewrite Heq.
Qed.

Lemma out_events_prefix ps t1 t2 i ids :
  take (S i) t1 = take (S i) t2 ->
  forall M, out_events ps t1 i ids M = out_events ps t2 i ids M.
Proof.
  intros Heq. induction ids as [|k ids IH]; intros M; [done|].
  rewrite !out_events_cons.
  assert (hit ps t1 i M k = hit ps t2 i M k) as ->.
  { unfold hit. destruct (ps !! k) as [p|]; [|done].
    by rewrite (exact_at_prefix _ t1 t2). }
  by rewrite IH.
Qed.

Lemma text_events_index ps ac text rest : forall i s M e,
  e ∈ text_events ps ac text i rest s M -> i <= e.1 < i + length rest.
Proof.
  induction rest as [|b rest IH]; intros i s M e; cbn [text_events].
  { by intros ?%elem_of_nil. }
  destruct (out_events ps text i (outputTable ac !!! delta ac s b) M) as [m' ev] eqn:Hev.
  intros [He|He]%elem_of_app.
  - pose proof (out_events_elem ps text i (outputTable ac !!! delta ac s b) e M) as Hel.
    rewrite Hev in Hel. destruct (Hel He) as [-> _]. simpl. lia.
  - apply IH in He. simpl. lia.
Qed.

Lemma text_events_prefix ps ac t1 t2 r : forall pre post1 post2 s M,
  t1 = pre ++ r ++ post1 -> t2 = pre ++ r ++ post2 ->
  exists evs s' M',
    text_events ps ac t1 (length pre) (r ++ post1) s M
      = evs ++ text_events ps ac t1 (length pre + length r) post1 s' M' /\
    text_events ps ac t2 (length pre) (r ++ post2) s M
      = evs ++ text_events ps ac t2 (length pre + length r) post2 s' M'.
Proof.
  induction r as [|b r IH]; intros pre post1 post2 s M H1 H2.
  { exists [], s, M. simpl. by rewrite Nat.add_0_r. }
  rewrite <- !app_comm_cons. cbn [text_events].
  assert (take (S (length pre)) t1 = take (S (length pre)) t2) as Heq.
  { rewrite H1, H2.
    change ((b :: r) ++ post1) with ([b] ++ (r ++ post1)).
    change ((b :: r) ++ post2) with ([b] ++ (r ++ post2)).
    rewrite !(app_assoc pre [b]).
    rewrite !take_app_length'; [done|..]; rewrite length_app; simpl; lia. }
  rewrite (out_events_prefix ps t1 t2 _ _ Heq).
  destruct (out_events ps t2 (length pre) (outputTable ac !!! delta ac s b) M)
    as [m' ev].
  destruct (IH (pre ++ [b]) post1 post2 (delta ac s b) m') as (evs & s' & M' & Hr1 & Hr2).
  { by rewrite H1, <- app_assoc. }
  { by rewrite H2, <- app_assoc. }
  rewrite length_app in Hr1, Hr2. simpl in Hr1, Hr2.
  replace (length pre + 1) with (S (length pre)) in Hr1, Hr2 by lia.
  replace (S (length pre) + length r) with (length pre + S (length r)) in Hr1, Hr2 by lia.
  exists (ev ++ evs), s', M'. simpl. rewrite Hr1, Hr2. by rewrite !app_assoc.
Qed.

(** Two texts that agree on their first [n] bytes have the same events
    before index [n]. *)
Lemma events_prefix ps ac text text' n :
  n <= length text -> take n text' = take n text ->
  exists evs R R',
    events ps ac text = evs ++ R /\ events ps ac text' = evs ++ R' /\
    (forall e, e ∈ R -> n <= e.1) /\ (forall e, e ∈ R' -> n <= e.1).
Proof.
  intros Hn Heq.
  assert (n <= length text') as Hn'.
  { apply (f_equal length) in Heq. rewrite !length_take in Heq. lia. }
  destruct (text_events_prefix ps ac text text' (take n text) []
              (drop n text) (drop n text') 0 ∅) as (evs & s' & M' & H1 & H2).
  { simpl. by rewrite take_drop. }
  { simpl. by rewrite <- Heq, take_drop. }
  simpl in H1, H2. rewrite take_drop in H1. rewrite <- Heq, take_drop in H2.
  rewrite Heq in H2. rewrite length_take_le in H1, H2 by done.
  eexists evs, _, _. split; [exact H1|]. split; [exact H2|].
  split; intros e He; apply text_events_index in He; lia.
Qed.

(** ** Scan and its callback *)

(** Recording the invocations does not change the scan. *)
Lemma deliver_unlogged {St E} (m : @MatchedHandler St E) ps evs : forall s log,
  exists log',
    deliver (fun pos pat => logged m (ID pat) 0 pos) ps evs (s, log)
      = (((deliver (fun pos pat => m (ID pat) 0 pos) ps evs s).1, log'),
         (deliver (fun pos pat => m (ID pat) 0 pos) ps evs s).2).
Proof.
  induction evs as [|e evs IH]; intros s log; [by exists log|].
  cbn [deliver]. destruct (ps !! e.2) as [p|]; [|by exists log].
  unfold call, logged at 1. cbn [fst snd].
  destruct (m (ID p) 0 (S e.1) s) as [s1 [err|]]; [by eexists|].
  apply IH.
Qed.

Lemma elem_of_event_calls ps evs c :
  c ∈ event_calls ps evs ->
  exists e p, e ∈ evs /\ ps !! e.2 = Some p /\ c = (ID p, 0, S e.1).
Proof.
  unfold event_calls. intros (e & He & Hc)%list_elem_of_omap.
  destruct (ps !! e.2) as [p|] eqn:Hp; [|done].
  injection Hc as <-. by exists e, p.
Qed.

Lemma matches_at_registered q text i :
  matches_at (registered q) text i <-> matches_at q text i.
Proof. done. Qed.

Lemma last_in_tail {A} (l0 : list A) x pre k :
  l0 ++ [x] = pre ++ k -> k <> [] -> x ∈ k.
Proof.
  intros Heq Hk. destruct k as [|y k _] using rev_ind; [done|].
  rewrite app_assoc in Heq. apply app_inj_tail in Heq as [_ ->].
  apply elem_of_app. right. by left.
Qed.

(** The handler that [Scan] passes to [searchPatterns]. *)
Ltac scan_handler m :=
  unfold Scan, searchPatterns;
  repeat match goal with
  | |- context [@deliver ?St ?E ?f] =>
      progress change f with (fun (pos : nat) (pat : Pattern) => m (ID pat) 0 pos)
  | |- context [@searchPatterns_with ?St ?E ?t ?ac ?text ?f] =>
      progress change f with (fun (pos : nat) (pat : Pattern) => m (ID pat) 0 pos)
  end.

Section ClaimsScan.

Variable range_order : list (nat * nat) -> list (nat * nat).
Hypothesis range_order_perm : forall l, range_order l ≡ₚ l.

(** C4. Every invocation of the callback that [Scan] makes has [from = 0]
    and [to = i + 1], where [i] is the index of the last byte of a match of
    a registered pattern [p] whose id is the first argument. *)
Theorem C4_scan_offsets ps :
  capacity ps ->
  exists ac, compile range_order ps = Ok ac /\
    forall (St E : Type) text (m : @MatchedHandler St E) s id from to,
      (id, from, to) ∈ (Scan ac text (logged m) (s, [])).1.2 ->
      from = 0 /\
      exists i p, to = S i /\ i < length text /\ p ∈ ps /\ ID p = id /\
                  matches_at p text i.
Proof.
  intros Hcap.
  destruct (compiled range_order range_order_perm ps Hcap)
    as (ac & trie & paths & Hc & Hpats & Hauto & Hids & Hfits & Hsearch & _).
  exists ac. split; [done|]. intros St E text m s id from to.
  scan_handler (logged m). rewrite Hsearch.
  destruct (deliver_logged m (patterns ac) (events (patterns ac) ac text) s [])
    as (evs1 & evs2 & s' & r & Hsplit & Hrun & _).
  { intros e He.
    destruct (events_sound _ _ _ _ Hauto Hfits text e He) as (p & Hp & _). eauto. }
  rewrite Hrun. cbn [fst snd app].
  intros (e & p & He & Hp & [= -> -> ->])%elem_of_event_calls.
  split; [done|].
  destruct (events_matches _ _ _ _ Hauto Hfits text e) as (p' & Hp' & Hi & Hm).
  { rewrite Hsplit. apply elem_of_app. by left. }
  assert (p' = p) as -> by congruence.
  assert (p ∈ patterns ac) as Hin by (by eapply list_elem_of_lookup_2).
  rewrite Hpats in Hin. apply list_elem_of_fmap in Hin as (q & -> & Hq).
  exists e.1, q. done.
Qed.

(** C5. The invocations of the callback are recorded in [log].  When one
    of them returns an error, [Scan] returns that error, the failing
    invocation is the last one, and the outcome does not depend on the
    bytes of the text from offset [to] of that invocation on.  Otherwise
    every invocation returned nil and [Scan] returns nil. *)
Theorem C5_scan_error ps :
  capacity ps ->
  exists ac, compile range_order ps = Ok ac /\
    forall (St E : Type) text (m : @MatchedHandler St E) s,
    exists s' log r,
      Scan ac text (logged m) (s, []) = ((s', log), r) /\
      Scan ac text m s = (s', r) /\
      (replay m log s).1 = s' /\
      match r with
      | Ok _ => (replay m log s).2 = replicate (length log) None
      | Err err =>
          exists log0 c, log = log0 ++ [c] /\
            (replay m log s).2 = replicate (length log0) None ++ [Some err] /\
            forall text', take c.2 text' = take c.2 text ->
              Scan ac text' (logged m) (s, []) = ((s', log), Err err)
      | _ => False
      end.
Proof.
  intros Hcap.
  destruct (compiled range_order range_order_perm ps Hcap)
    as (ac & trie & paths & Hc & Hpats & Hauto & Hids & Hfits & Hsearch & _).
  exists ac. split; [done|]. intros St E text m s.
  assert (forall text e, e ∈ events (patterns ac) ac text ->
            is_Some (patterns ac !! e.2)) as Hval.
  { intros t e He.
    destruct (events_sound _ _ _ _ Hauto Hfits t e He) as (p & Hp & _). eauto. }
  unfold Scan, searchPatterns. rewrite !Hsearch.
  change (fun (pos : nat) (ps0 : Pattern) (s0 : St * list (N * nat * nat)) =>
            logged m (ID ps0) 0 pos s0)
    with (fun (pos : nat) (pat : Pattern) => logged m (ID pat) 0 pos).
  change (fun (pos : nat) (ps0 : Pattern) (s0 : St) => m (ID ps0) 0 pos s0)
    with (fun (pos : nat) (pat : Pattern) => m (ID pat) 0 pos).
  destruct (deliver_logged m (patterns ac) (events (patterns ac) ac text) s [] (Hval text))
    as (evs1 & evs2 & s' & r & Hsplit & Hrun & Hs' & Hcut & Hr).
  cbn [app] in Hrun, Hcut.
  exists s', (event_calls (patterns ac) evs1), r. split; [done|]. split.
  { destruct (deliver_unlogged m (patterns ac) (events (patterns ac) ac text) s [])
      as (log' & Hun).
    rewrite Hrun in Hun. injection Hun as Hs1 _ Hr1. rewrite Hs1, Hr1.
    by destruct (deliver _ _ _ s). }
  split; [done|].
  destruct r as [[]|err| |]; try done.
  { by destruct Hr as [_ ->]. }
  destruct Hr as (evs0 & ev & -> & Hres).
  destruct (Hval text ev) as [p Hp].
  { rewrite Hsplit. apply elem_of_app. left. apply elem_of_app. right. by left. }
  assert (event_calls (patterns ac) (evs0 ++ [ev])
          = event_calls (patterns ac) evs0 ++ [(ID p, 0, S ev.1)]) as Hcalls.
  { unfold event_calls. rewrite omap_app. simpl. by rewrite Hp. }
  exists (event_calls (patterns ac) evs0), (ID p, 0, S ev.1).
  split; [done|]. split; [done|]. cbn [snd]. intros text' Htake.
  rewrite Hsearch.
  assert (ev.1 < length text) as Hev.
  { assert (ev ∈ events (patterns ac) ac text) as Hin.
    { rewrite Hsplit. apply elem_of_app. left. apply elem_of_app. right. by left. }
    apply text_events_index in Hin. lia. }
  destruct (events_prefix (patterns ac) ac text text' (S ev.1))
    as (evsP & R & R' & HE & HE' & HR & _); [lia|done|].
  assert (exists k, evsP = (evs0 ++ [ev]) ++ k) as [k ->].
  { rewrite Hsplit in HE. apply app_eq_inv in HE as [(k & Hk1 & Hk2)|(k & Hk1 & Hk2)].
    - destruct (decide (k = [])) as [->|Hne].
      + exists []. rewrite app_nil_r in Hk1. by rewrite Hk1, app_nil_r.
      + assert (ev ∈ k) as Hin by (by eapply last_in_tail).
        assert (ev ∈ R) as HinR by (rewrite Hk2; apply elem_of_app; by left).
        apply HR in HinR. lia.
    - exists k. done. }
  rewrite HE', <- app_assoc. by apply (Hcut err).
Qed.

(** C6. The state table of a compiled matcher has
    [stateCount * alphabetSize] entries, each of them a state below
    [stateCount].  After any text the current state [s] of the search loop
    is below [stateCount]; for any next byte the index
    [s * alphabetSize + tc] is inside the table, so the test of the
    defensive reset is false and the transition reads the table. *)
Theorem C6_table_closed ps :
  capacity ps ->
  exists ac, compile range_order ps = Ok ac /\
    length (stateTable ac) = stateCount ac * alphabetSize ac /\
    Forall (fun z => (0 <= z < Z.of_nat (stateCount ac))%Z) (stateTable ac) /\
    forall text b,
      exists s, dfa_run (E:=Empty_set) ac text = Ok (Z.of_nat s) /\
        s < stateCount ac /\
        translateTable ac !!! Byte.to_nat b < alphabetSize ac /\
        s * alphabetSize ac + translateTable ac !!! Byte.to_nat b
          < length (stateTable ac) /\
        (Z.of_nat (length (stateTable ac)) <=?
           Z.of_nat s * Z.of_nat (alphabetSize ac)
           + Z.of_nat (translateTable ac !!! Byte.to_nat b))%Z = false /\
        next_state (E:=Empty_set) ac (Z.of_nat s) (translateTable ac !!! Byte.to_nat b)
          = indexZ (stateTable ac)
              (Z.of_nat (s * alphabetSize ac + translateTable ac !!! Byte.to_nat b)).
Proof.
  intros Hcap.
  destruct (compiled range_order range_order_perm ps Hcap)
    as (ac & trie & paths & Hc & Hpats & Hauto & Hids & Hfits & Hsearch & _).
  exists ac. split; [done|].
  pose proof (au_count _ _ _ _ Hauto) as Hcount.
  pose proof (au_table_len _ _ _ _ Hauto) as Hlen.
  pose proof (xl_asz _ _ _ (au_xlat _ _ _ _ Hauto)) as Hasz.
  split; [by rewrite Hcount|]. split.
  { apply Forall_lookup. intros j z Hj.
    pose proof (lookup_lt_Some _ _ _ Hj) as Hjlt. rewrite Hlen in Hjlt.
    set (asz := alphabetSize ac) in *.
    assert (j = j / asz * asz + j mod asz) as Hdm.
    { rewrite (Nat.div_mod j asz) at 1 by lia. lia. }
    assert (j / asz < length paths) as Hs.
    { apply Nat.Div0.div_lt_upper_bound. lia. }
    assert (j mod asz < asz) as Hcl by (apply Nat.mod_upper_bound; lia).
    destruct (lookup_lt_is_Some_2 paths (j / asz) Hs) as [w Hw].
    destruct (au_delta _ _ _ _ Hauto (j / asz) (j mod asz) w Hw Hcl) as (t & Hcell & Ht).
    fold asz in Hcell. rewrite <- Hdm, Hj in Hcell. injection Hcell as ->.
    apply longest_node_lt in Ht. unfold fits in Hfits.
    rewrite int32_small by lia. lia. }
  intros text b.
  destruct (dfa_run_spec _ _ _ _ Hauto Hfits text) as (s & Hrun & Hs & _).
  exists s. split; [done|].
  apply longest_node_lt in Hs.
  pose proof (xl_lt _ _ _ (au_xlat _ _ _ _ Hauto) b) as Htc. unfold sym in Htc.
  set (tc := translateTable ac !!! Byte.to_nat b) in *.
  assert (s * alphabetSize ac + tc < length (stateTable ac)) as Hidx.
  { rewrite Hlen.
    pose proof (Nat.mul_le_mono_r (S s) (length paths) (alphabetSize ac)). lia. }
  split; [lia|]. split; [done|]. split; [done|].
  assert ((Z.of_nat (length (stateTable ac)) <=?
           Z.of_nat s * Z.of_nat (alphabetSize ac) + Z.of_nat tc)%Z = false) as Htest.
  { apply Z.leb_gt. lia. }
  split; [done|]. unfold next_state. rewrite Htest. f_equal. lia.
Qed.

(** C9. When the search loop has consumed the byte at index [i], every
    pattern in the output set of the current state has at most [i + 1]
    bytes: the start [i - strlen + 1] of the window is between 0 and the
    length of the text, the slice expression and [memcmp] do not go out of
    bounds, and [memcmp] tells whether the pattern ends at [i].  No search
    panics. *)
Theorem C9_window_in_bounds ps :
  capacity ps ->
  exists ac, compile range_order ps = Ok ac /\
    (forall text i, i < length text ->
      exists s out,
        dfa_run (E:=Empty_set) ac (take (S i) text) = Ok (Z.of_nat s) /\
        outputTable ac !! s = Some out /\
        forall k, k ∈ out ->
          exists pat, patterns ac !! k = Some pat /\
            (0 <= Z.of_nat i - strlen pat + 1 <= Z.of_nat (length text))%Z /\
            memcmp (E:=Empty_set) (Content pat)
              (drop (Z.to_nat (Z.of_nat i - strlen pat + 1)) text) (strlen pat)
              = Ok (exact_at (Content pat) text i)) /\
    (forall (St E : Type) text (matched : @matchedPattern St E) h,
       (searchPatterns ac text matched h).2 <> Panic).
Proof.
  intros Hcap.
  destruct (compiled range_order range_order_perm ps Hcap)
    as (ac & trie & paths & Hc & Hpats & Hauto & Hids & Hfits & Hsearch & _).
  exists ac. split; [done|]. split.
  - intros text i Hi.
    destruct (dfa_run_ids _ _ _ _ Hauto Hfits text i Hi) as (s & Hrun & Hs & Hat).
    assert (is_Some (outputTable ac !! s)) as [out Hout].
    { apply lookup_lt_is_Some. by rewrite (au_out_len _ _ _ _ Hauto). }
    rewrite (list_lookup_total_correct _ _ _ Hout) in Hat.
    exists s, out. split; [done|]. split; [done|]. intros k Hk.
    destruct (ia_sound _ _ _ _ _ Hat k Hk) as (pat & Hpat & _ & Hsuf).
    exists pat. split; [done|].
    assert (pat ∈ patterns ac) as Hin by (by eapply list_elem_of_lookup_2).
    pose proof (io_strlen _ _ Hids pat Hin) as Hlen.
    apply suffix_length in Hsuf. unfold tword in Hsuf.
    rewrite !length_map, length_take_le in Hsuf by lia.
    set (len := length (Content pat)) in *. rewrite Hlen. split; [lia|].
    replace (Z.of_nat i - Z.of_nat len + 1)%Z with (Z.of_nat (S i - len)) by lia.
    rewrite Nat2Z.id. unfold memcmp. rewrite length_drop. fold len.
    destruct (Z.ltb_spec (Z.of_nat (length text - (S i - len))) (Z.of_nat len)); [lia|].
    destruct (Z.ltb_spec (Z.of_nat len) (Z.of_nat len)); [lia|]. simpl.
    destruct (Z.ltb_spec (Z.of_nat len) 0); [lia|].
    rewrite Nat2Z.id. rewrite (take_ge (Content pat)) by (fold len; lia).
    f_equal. unfold exact_at. fold len. apply bool_decide_ext. naive_solver.
  - intros St E text matched h. unfold searchPatterns. rewrite Hsearch.
    assert (forall evs h0,
              (forall e, e ∈ evs -> is_Some (patterns ac !! e.2)) ->
              (deliver matched (patterns ac) evs h0).2 <> Panic) as Hgen.
    { induction evs as [|e evs IH]; intros h0 Hv; [done|].
      cbn [deliver]. destruct (Hv e) as [p Hp]; [by left|]. rewrite Hp.
      unfold call. destruct (matched (S e.1) p h0) as [h1 [err|]]; [done|].
      apply IH. intros e' He'. apply Hv. by right. }
    apply Hgen. intros e He.
    destruct (events_sound _ _ _ _ Hauto Hfits text e He) as (p & Hp & _). eauto.
Qed.

End ClaimsScan.


(** ** The matches of a text, enumerated *)

#[global] Instance variant_at_dec pat text i : Decision (variant_at pat text i).
Proof.
  refine (cast_if (decide (length pat <= S i /\ S i <= length text /\
            map toLower (take (length pat) (drop (S i - length pat) text))
              = map toLower pat)));
    by rewrite variant_at_window.
Defined.

#[global] Instance matches_at_dec p text i : Decision (matches_at p text i).
Proof. unfold matches_at. destruct (has_flag (Flags p) Caseless); apply _. Defined.

(** The pairs [(i, k)] such that pattern [k] matches at index [i], by
    increasing index. *)
Definition expected (ps : list Pattern) (text : list byte) : list (nat * nat) :=
  seq 0 (length text) ≫= fun i =>
    omap (fun k => ps !! k ≫= fun p =>
            if decide (matches_at p text i) then Some (i, k) else None)
         (seq 0 (length ps)).

Lemma omap_ext_in {A B} (f g : A -> option B) (l : list A) :
  (forall x, x ∈ l -> f x = g x) -> omap f l = omap g l.
Proof.
  induction l as [|x l IH]; intros Hfg; [done|]. csimpl.
  rewrite (Hfg x) by by left. rewrite IH; [done|].
  intros y Hy. apply Hfg. by right.
Qed.

Lemma omap_omap {A B C} (f : A -> option B) (g : B -> option C) (l : list A) :
  omap g (omap f l) = omap (fun x => f x ≫= g) l.
Proof.
  induction l as [|x l IH]; [done|]. csimpl.
  destruct (f x) as [y|]; csimpl; [|done]. by rewrite IH.
Qed.

Lemma omap_lookup_seq {A B} (g : A -> option B) (l : list A) :
  omap (fun k => l !! k ≫= g) (seq 0 (length l)) = omap g l.
Proof.
  induction l as [|x l IH] using rev_ind; [done|].
  rewrite length_app, Nat.add_1_r, seq_S, !omap_app. f_equal.
  - rewrite <- IH. apply omap_ext_in. intros k Hk%elem_of_seq.
    by rewrite lookup_app_l by lia.
  - csimpl. rewrite list_lookup_middle by done. simpl. by destruct (g x).
Qed.

Lemma NoDup_omap {A B} (f : A -> option B) (l : list A) :
  (forall x1 x2 y, f x1 = Some y -> f x2 = Some y -> x1 = x2) ->
  NoDup l -> NoDup (omap f l).
Proof.
  intros Hinj. induction 1 as [|x l Hx Hnd IH]; csimpl; [constructor|].
  destruct (f x) as [y|] eqn:Hy; [|done]. constructor; [|done].
  intros (x' & Hx' & Hy')%list_elem_of_omap.
  by rewrite (Hinj x x' y) in Hx.
Qed.

Lemma bind_ext_all {A B} (f g : A -> list B) (l : list A) :
  (forall x, f x = g x) -> l ≫= f = l ≫= g.
Proof.
  intros Hfg. induction l as [|x l IH]; [done|]. by rewrite !bind_cons, Hfg, IH.
Qed.

Lemma omap_bind {A B C} (f : A -> list B) (g : B -> option C) (l : list A) :
  omap g (l ≫= f) = l ≫= fun x => omap g (f x).
Proof.
  induction l as [|x l IH]; [done|]. by rewrite !bind_cons, omap_app, IH.
Qed.

Lemma omap_submseteq {A B} (f : A -> option B) (l1 l2 : list A) :
  l1 ⊆+ l2 -> omap f l1 ⊆+ omap f l2.
Proof.
  induction 1 as [|x l1 l2 _ IH|x y l|x l1 l2 _ IH|l1 l2 l3 _ IH1 _ IH2]; csimpl.
  - done.
  - destruct (f x); [by constructor|done].
  - destruct (f x), (f y); try done. apply submseteq_swap.
  - destruct (f x); [by constructor|done].
  - by etrans.
Qed.

Lemma elem_of_expected ps text e :
  e ∈ expected ps text <->
  e.1 < length text /\ exists p, ps !! e.2 = Some p /\ matches_at p text e.1.
Proof.
  unfold expected. rewrite list_elem_of_bind. split.
  - intros (i & (k & Hk & Hf)%list_elem_of_omap & Hi%elem_of_seq).
    destruct (ps !! k) as [p|] eqn:Hp; [|done]. simpl in Hf.
    destruct (decide (matches_at p text i)); [|done].
    injection Hf as <-. simpl. split; [lia|]. eauto.
  - intros [Hi (p & Hp & Hm)]. exists e.1. split; [|apply elem_of_seq; lia].
    apply list_elem_of_omap. exists e.2. split.
    + apply elem_of_seq. apply lookup_lt_Some in Hp. lia.
    + rewrite Hp. simpl. rewrite decide_True by done. by destruct e.
Qed.

Lemma NoDup_expected ps text : NoDup (expected ps text).
Proof.
  unfold expected. apply NoDup_bind; [| |apply NoDup_seq].
  - intros i1 i2 e _ _ (k1 & _ & Hf1)%list_elem_of_omap (k2 & _ & Hf2)%list_elem_of_omap.
    destruct (ps !! k1) as [p1|]; [|done]. destruct (ps !! k2) as [p2|]; [|done].
    simpl in Hf1, Hf2.
    destruct (decide (matches_at p1 text i1)); [|done].
    destruct (decide (matches_at p2 text i2)); [|done]. congruence.
  - intros i _. apply NoDup_omap; [|apply NoDup_seq].
    intros k1 k2 e Hf1 Hf2.
    destruct (ps !! k1) as [p1|]; [|done]. destruct (ps !! k2) as [p2|]; [|done].
    simpl in Hf1, Hf2.
    destruct (decide (matches_at p1 text i)); [|done].
    destruct (decide (matches_at p2 text i)); [|done]. congruence.
Qed.

(** What is delivered for the expected pairs: [g i p] for each index [i]
    and each pattern [p] that matches there, in the order of
    registration. *)
Lemma omap_expected {B} (g : nat -> Pattern -> B) ps text :
  omap (fun e => g e.1 <$> ps !! e.2) (expected ps text) =
    seq 0 (length text) ≫= fun i =>
      omap (fun p => if decide (matches_at p text i) then Some (g i p) else None) ps.
Proof.
  unfold expected. rewrite omap_bind. apply bind_ext_all. intros i.
  rewrite omap_omap.
  rewrite <- (omap_lookup_seq
                (fun p => if decide (matches_at p text i) then Some (g i p) else None) ps).
  apply omap_ext_in.
  intros k _. destruct (ps !! k) as [p|] eqn:Hp; [|done]. simpl.
  destruct (decide (matches_at p text i)); [|done]. simpl. by rewrite Hp.
Qed.

Lemma omap_registered {B} (Q' Q : Pattern -> Prop)
    `{!forall p, Decision (Q' p)} `{!forall p, Decision (Q p)}
    (g : Pattern -> B) (ps : list Pattern) :
  (forall p, p ∈ ps -> Q' (registered p) <-> Q p) ->
  omap (fun p => if decide (Q' p) then Some (g (registered p)) else None)
       (registered <$> ps)
    = (fun p => g (registered p)) <$> filter Q ps.
Proof.
  induction ps as [|p ps IH]; intros HQ; [done|]. csimpl.
  rewrite filter_cons.
  assert (Q' (registered p) <-> Q p) as Hp by (apply HQ; by left).
  rewrite IH by (intros q Hq; apply HQ; by right).
  destruct (decide (Q' (registered p))), (decide (Q p)); try done; tauto.
Qed.

Lemma NoDup_all_eq {A} (l : list A) a :
  NoDup l -> (forall x, x ∈ l -> x = a) -> length l <= 1.
Proof.
  intros Hnd Hall. destruct l as [|x [|y l]]; simpl; [lia..|].
  apply NoDup_cons in Hnd as [Hx _]. exfalso. apply Hx.
  rewrite (Hall x), (Hall y); [by left| |by left]. right. by left.
Qed.

Lemma event_calls_ids ps evs :
  (fun c : N * nat * nat => c.1.1) <$> event_calls ps evs = event_ids ps evs.
Proof.
  unfold event_calls, event_ids. rewrite list_fmap_omap. apply omap_ext_in.
  intros e _. by destruct (ps !! e.2).
Qed.

(** The events of patterns that share their id only with [SingleMatch]
    patterns. *)
Lemma filter_event_ids ps evs id :
  (forall e q, e ∈ evs -> ps !! e.2 = Some q -> ID q = id ->
     has_flag (Flags q) SingleMatch = true) ->
  filter (eq id) (event_ids ps evs) = filter (eq id) (omap (sm_id ps) evs).
Proof.
  induction evs as [|e evs IH]; intros Hsm; [done|].
  unfold event_ids in *. csimpl. unfold sm_id at 1.
  specialize (IH (fun e' q He' => Hsm e' q (list_elem_of_further _ _ _ He'))).
  destruct (ps !! e.2) as [q|] eqn:Hq; [|done]. simpl.
  destruct (decide (id = ID q)) as [Heq|Hne].
  - rewrite (Hsm e q) by (done || by left). rewrite !filter_cons_True by done.
    by rewrite IH.
  - rewrite filter_cons_False by done.
    destruct (has_flag (Flags q) SingleMatch); [|done].
    by rewrite filter_cons_False by done.
Qed.

Section EventsPerm.

Variable ps : list Pattern.
Variable ac : ACKS.
Variable trie : gmap nat (gmap nat nat).
Variable paths : list (list nat).
Hypothesis Hauto : automaton ps ac trie paths.
Hypothesis Hfits : fits ac.

(** Without [SingleMatch], the events are the matches. *)
Lemma events_perm text :
  (forall p, p ∈ ps -> has_flag (Flags p) SingleMatch = false /\ Content p <> []) ->
  events ps ac text ≡ₚ expected ps text.
Proof.
  intros Hall. apply NoDup_Permutation.
  - by eapply events_NoDup.
  - apply NoDup_expected.
  - intros e. rewrite elem_of_expected. split.
    + intros He. destruct (events_matches _ _ _ _ Hauto Hfits text e He)
        as (p & Hp & Hi & Hm). eauto.
    + intros [Hi (p & Hp & Hm)].
      destruct (Hall p) as [Hsm Hne]; [by eapply list_elem_of_lookup_2|].
      destruct e as [i k]. by eapply matches_events.
Qed.

(** The events of one pattern, at the indices where it matches. *)
Lemma events_sub text k p :
  ps !! k = Some p -> has_flag (Flags p) SingleMatch = false -> Content p <> [] ->
  (fun i => (i, k)) <$> filter (fun i => matches_at p text i) (seq 0 (length text))
    ⊆+ events ps ac text.
Proof.
  intros Hp Hsm Hne. apply NoDup_submseteq.
  - apply NoDup_fmap_2; [by intros i j [= ->]|]. apply NoDup_filter, NoDup_seq.
  - intros e (i & -> & [Hm Hi%elem_of_seq]%list_elem_of_filter)%list_elem_of_fmap.
    eapply matches_events; try done. lia.
Qed.

End EventsPerm.

Lemma event_ids_replicate ps k p (l : list nat) :
  ps !! k = Some p ->
  event_ids ps ((fun i => (i, k)) <$> l) = replicate (length l) (ID p).
Proof.
  intros Hp. induction l as [|i l IH]; [done|].
  rewrite fmap_cons, (event_ids_cons _ _ _ p) by done. simpl. by rewrite IH.
Qed.


Lemma omap_registered' {B} (Q' Q : Pattern -> Prop)
    `{!forall p, Decision (Q' p)} `{!forall p, Decision (Q p)}
    (g' g : Pattern -> B) (ps : list Pattern) :
  (forall p, p ∈ ps -> (Q' (registered p) <-> Q p) /\ g' (registered p) = g p) ->
  omap (fun p => if decide (Q' p) then Some (g' p) else None) (registered <$> ps)
    = g <$> filter Q ps.
Proof.
  induction ps as [|p ps IH]; intros HQ; [done|]. csimpl.
  rewrite filter_cons.
  destruct (HQ p) as [Hp Hg]; [by left|].
  rewrite IH by (intros q Hq; apply HQ; by right).
  destruct (decide (Q' (registered p))), (decide (Q p)); try tauto.
  by rewrite Hg.
Qed.

Lemma has_flag_0 f : has_flag 0%N f = false.
Proof. done. Qed.

Section ClaimsMatch.

Variable range_order : list (nat * nat) -> list (nat * nat).
Hypothesis range_order_perm : forall l, range_order l ≡ₚ l.

(** C1. For patterns without flags (and with non-empty content, as the
    data model requires), the ids that [Search] returns are, up to the
    order of the events, one id for each index [i] of the text and each
    pattern whose bytes occur in the text ending at [i], and nothing else;
    [Scan] calls back with [(id, 0, i + 1)] for the same pairs. *)
Theorem C1_exact_occurrences ps :
  capacity ps ->
  (forall p, p ∈ ps -> Flags p = 0%N /\ Content p <> []) ->
  exists ac, compile range_order ps = Ok ac /\
    forall text, exists ids,
      Search (E:=Empty_set) ac text = Ok ids /\
      ids ≡ₚ seq 0 (length text) ≫= (fun i =>
               ID <$> filter (fun p => occurs_at (Content p) text i) ps) /\
      scan_log ac text ≡ₚ seq 0 (length text) ≫= (fun i =>
               (fun p => (ID p, 0, S i)) <$>
                 filter (fun p => occurs_at (Content p) text i) ps).
Proof.
  intros Hcap Hflags.
  destruct (compiled range_order range_order_perm ps Hcap)
    as (ac & trie & paths & Hc & Hpats & Hauto & Hids & Hfits & _ & HSearch & Hscan).
  exists ac. split; [done|]. intros text.
  exists (event_ids (patterns ac) (events (patterns ac) ac text)).
  split; [apply HSearch|].
  assert (events (patterns ac) ac text ≡ₚ expected (patterns ac) text) as Hperm.
  { apply (events_perm _ _ _ _ Hauto Hfits). intros p Hp.
    rewrite Hpats in Hp. apply list_elem_of_fmap in Hp as (q & -> & Hq).
    destruct (Hflags q Hq) as [Hf Hne]. cbn [Flags Content registered].
    by rewrite Hf. }
  assert (forall i q, q ∈ ps ->
            matches_at (registered q) text i <-> occurs_at (Content q) text i) as Hm.
  { intros i q Hq. destruct (Hflags q Hq) as [Hf _].
    unfold matches_at. cbn [Flags Content registered]. by rewrite Hf. }
  split.
  - unfold event_ids. rewrite Hperm.
    pose proof (omap_expected (fun _ => ID) (patterns ac) text) as Hx.
    cbv beta in Hx. rewrite Hx. clear Hx.
    erewrite bind_ext_all; [done|]. intros i. cbv beta. rewrite Hpats.
    apply (omap_registered' (fun p => matches_at p text i)
             (fun p => occurs_at (Content p) text i) ID ID).
    intros q Hq. split; [by apply Hm|done].
  - rewrite Hscan. unfold event_calls. rewrite Hperm.
    pose proof (omap_expected (fun i p => (ID p, 0, S i)) (patterns ac) text) as Hx.
    cbv beta in Hx. rewrite Hx. clear Hx.
    erewrite bind_ext_all; [done|]. intros i. cbv beta. rewrite Hpats.
    apply (omap_registered' (fun p => matches_at p text i)
             (fun p => occurs_at (Content p) text i)
             (fun p => (ID p, 0, S i)) (fun p => (ID p, 0, S i))).
    intros q Hq. split; [by apply Hm|done].
Qed.

(** C2 (amended). A pattern with non-empty content registered with
    [Caseless] and without [SingleMatch] is reported at every index where
    an ASCII-case variant of its bytes ends: [Scan] calls back with
    [(id, 0, i + 1)] for each such [i], and the result of [Search] holds
    the id at least once for each. *)
Theorem C2_caseless_positions ps p :
  capacity ps -> p ∈ ps ->
  has_flag (Flags p) Caseless = true ->
  has_flag (Flags p) SingleMatch = false ->
  Content p <> [] ->
  exists ac, compile range_order ps = Ok ac /\
    forall text,
      (forall i, variant_at (Content p) text i -> (ID p, 0, S i) ∈ scan_log ac text) /\
      exists ids, Search (E:=Empty_set) ac text = Ok ids /\
        replicate (length (filter (fun i => variant_at (Content p) text i)
                                  (seq 0 (length text)))) (ID p) ⊆+ ids.
Proof.
  intros Hcap Hp Hcl Hsm Hne.
  destruct (compiled range_order range_order_perm ps Hcap)
    as (ac & trie & paths & Hc & Hpats & Hauto & Hids & Hfits & _ & HSearch & Hscan).
  exists ac. split; [done|]. intros text.
  apply list_elem_of_lookup_1 in Hp as [k Hk].
  assert (patterns ac !! k = Some (registered p)) as Hk'.
  { rewrite Hpats. change (map registered ps) with (registered <$> ps).
    by rewrite list_lookup_fmap, Hk. }
  assert (forall i, matches_at (registered p) text i <-> variant_at (Content p) text i)
    as Hm.
  { intros i. unfold matches_at. cbn [Flags Content registered]. by rewrite Hcl. }
  split.
  - intros i Hv. rewrite Hscan. unfold event_calls. apply list_elem_of_omap.
    exists (i, k). split.
    + eapply (matches_events _ _ _ _ Hauto Hfits text i k (registered p)); try done.
      * apply variant_at_window in Hv. lia.
      * by apply Hm.
    + cbn [fst snd]. by rewrite Hk'.
  - exists (event_ids (patterns ac) (events (patterns ac) ac text)).
    split; [apply HSearch|].
    rewrite <- (list_filter_iff (fun i => matches_at (registered p) text i) _ _
                  (fun i => Hm i)).
    change (ID p) with (ID (registered p)).
    rewrite <- (event_ids_replicate (patterns ac) k (registered p) _ Hk').
    unfold event_ids. apply omap_submseteq.
    by apply (events_sub _ _ _ _ Hauto Hfits text k (registered p)).
Qed.

(** C3 (amended). When every pattern registered under the id of a
    [SingleMatch] pattern carries [SingleMatch], one call of [Search] or
    [Scan] produces at most one event with that id; and it produces none
    when no pattern registered under the id matches anywhere in the
    text. *)
Theorem C3_single_match_once ps p :
  capacity ps -> p ∈ ps ->
  has_flag (Flags p) SingleMatch = true ->
  (forall q, q ∈ ps -> ID q = ID p -> has_flag (Flags q) SingleMatch = true) ->
  exists ac, compile range_order ps = Ok ac /\
    forall text, exists ids,
      Search (E:=Empty_set) ac text = Ok ids /\
      (fun c : N * nat * nat => c.1.1) <$> scan_log ac text = ids /\
      length (filter (eq (ID p)) ids) <= 1 /\
      ((forall q i, q ∈ ps -> ID q = ID p -> ~ matches_at q text i) -> ID p ∉ ids).
Proof.
  intros Hcap Hp Hsm Hall.
  destruct (compiled range_order range_order_perm ps Hcap)
    as (ac & trie & paths & Hc & Hpats & Hauto & Hids & Hfits & _ & HSearch & Hscan).
  exists ac. split; [done|]. intros text.
  exists (event_ids (patterns ac) (events (patterns ac) ac text)).
  split; [apply HSearch|]. split; [by rewrite Hscan, event_calls_ids|]. split.
  - rewrite (filter_event_ids _ _ (ID p)).
    + apply (NoDup_all_eq _ (ID p)).
      * apply NoDup_filter. by eapply events_single.
      * by intros x [-> _]%list_elem_of_filter.
    + intros e q _ Hq Hid.
      assert (q ∈ patterns ac) as Hin by (by eapply list_elem_of_lookup_2).
      rewrite Hpats in Hin. apply list_elem_of_fmap in Hin as (q' & -> & Hq').
      by apply (Hall q').
  - intros Hno (e & He & Hf)%list_elem_of_omap.
    destruct (events_matches _ _ _ _ Hauto Hfits text e He) as (q & Hq & _ & Hm).
    rewrite Hq in Hf. injection Hf as Hid.
    assert (q ∈ patterns ac) as Hin by (by eapply list_elem_of_lookup_2).
    rewrite Hpats in Hin. apply list_elem_of_fmap in Hin as (q' & -> & Hq').
    by apply (Hno q' e.1 Hq').
Qed.

(** C10. For a pattern with [SingleMatch] and without [Caseless] that is
    the only one registered under its id, the mark is set when the
    automaton first recognises the pattern, before the comparison of the
    bytes: if the first index at which a case variant of the pattern ends
    is not an exact occurrence, the call produces no event for the pattern,
    whatever occurs later in the text. *)
Theorem C10_mark_before_verification ps p :
  capacity ps -> p ∈ ps ->
  has_flag (Flags p) SingleMatch = true ->
  has_flag (Flags p) Caseless = false ->
  (forall q, q ∈ ps -> ID q = ID p -> q = p) ->
  exists ac, compile range_order ps = Ok ac /\
    forall text i0,
      variant_at (Content p) text i0 ->
      ~ occurs_at (Content p) text i0 ->
      (forall j, j < i0 -> ~ variant_at (Content p) text j) ->
      exists ids, Search (E:=Empty_set) ac text = Ok ids /\
        (fun c : N * nat * nat => c.1.1) <$> scan_log ac text = ids /\
        ID p ∉ ids.
Proof.
  intros Hcap Hp Hsm Hcl Huniq.
  destruct (compiled range_order range_order_perm ps Hcap)
    as (ac & trie & paths & Hc & Hpats & Hauto & Hids & Hfits & _ & HSearch & Hscan).
  exists ac. split; [done|]. intros text i0 Hvar Hnot Hfirst.
  exists (event_ids (patterns ac) (events (patterns ac) ac text)).
  split; [apply HSearch|]. split; [by rewrite Hscan, event_calls_ids|].
  assert (registered p ∈ patterns ac) as Hin.
  { rewrite Hpats. by apply list_elem_of_fmap_2. }
  pose proof (au_xlat _ _ _ _ Hauto) as Hx.
  assert (i0 < length text) as Hi0 by (apply variant_at_window in Hvar; lia).
  intros (e & He & Hf)%list_elem_of_omap.
  destruct (patterns ac !! e.2) as [q|] eqn:Hq; [|done]. injection Hf as Hid.
  refine (events_first_miss _ _ _ _ Hauto Hfits text i0 (registered p)
            Hin Hsm Hcl _ _ _ _ e q He Hq Hid).
  - by apply (hits_at_variant _ _ _ _ text i0 Hx Hin).
  - apply not_true_is_false. intros Hex. apply Hnot.
    by apply (exact_at_occurs (Content p) text i0 Hi0).
  - intros j Hj Hhit.
    apply (hits_at_variant _ _ _ _ text j Hx Hin) in Hhit as [_ Hv].
    by apply (Hfirst j).
  - intros q' Hq' Hid'. rewrite Hpats in Hq'.
    apply list_elem_of_fmap in Hq' as (q0 & -> & Hq0).
    by rewrite (Huniq q0 Hq0 Hid').
Qed.

End ClaimsMatch.


(** * The claims on concrete matchers *)

(** Iteration over a map in the order of its sorted keys. *)
Definition in_order (l : list (nat * nat)) : list (nat * nat) := l.

Lemma in_order_perm l : in_order l ≡ₚ l.
Proof. done. Qed.

(** A pattern with both flags. *)
Definition once_caseless_patterns : list Pattern :=
  [mkPat "ab" 7 (N.lor Caseless SingleMatch)].

(** Two patterns registered under one id, only the first with
    [SingleMatch]. *)
Definition shared_id_patterns : list Pattern :=
  [mkPat "a" 1 SingleMatch; mkPat "b" 1 0%N].

Definition foo_once_patterns : list Pattern := [mkPat "foo" 1 SingleMatch].

Ltac in_patterns H :=
  repeat (apply elem_of_cons in H as [->|H]); [..|by apply elem_of_nil in H].

Ltac by_decide :=
  match goal with |- ?P => apply (bool_decide_unpack P) end; vm_compute; exact I.

(** A pattern with [Caseless] and [SingleMatch] is reported once, although
    case variants of it end at indices 1 and 3 of the text. *)
Lemma C2_counterexample :
  exists ac, compile in_order once_caseless_patterns = Ok ac /\
    has_flag (N.lor Caseless SingleMatch) Caseless = true /\
    variant_at (bytes "ab") (bytes "abab") 1 /\
    variant_at (bytes "ab") (bytes "abab") 3 /\
    Search (E:=Empty_set) ac (bytes "abab") = Ok [7%N] /\
    scan_log ac (bytes "abab") = [(7%N, 0, 2)].
Proof.
  eexists. split; [vm_compute; reflexivity|].
  split; [done|]. split; [by_decide|]. split; [by_decide|].
  split; vm_compute; reflexivity.
Qed.

(** The id of the [SingleMatch] pattern ["a"] is reported twice on a text
    in which ["a"] does not occur. *)
Lemma C3_counterexample :
  exists ac, compile in_order shared_id_patterns = Ok ac /\
    Search (E:=Empty_set) ac (bytes "bb") = Ok [1%N; 1%N] /\
    scan_log ac (bytes "bb") = [(1%N, 0, 1); (1%N, 0, 2)].
Proof.
  eexists. split; [vm_compute; reflexivity|].
  split; vm_compute; reflexivity.
Qed.

Lemma capacity_ushers : capacity ushers_patterns.
Proof. vm_compute. reflexivity. Qed.

Lemma capacity_mixed : capacity mixed_patterns.
Proof. vm_compute. reflexivity. Qed.

Lemma capacity_foo_once : capacity foo_once_patterns.
Proof. vm_compute. reflexivity. Qed.

Lemma C1_witness :
  capacity ushers_patterns /\
  exists ac, compile in_order ushers_patterns = Ok ac /\
    forall text, exists ids,
      Search (E:=Empty_set) ac text = Ok ids /\
      ids ≡ₚ seq 0 (length text) ≫= (fun i =>
               ID <$> filter (fun p => occurs_at (Content p) text i) ushers_patterns) /\
      scan_log ac text ≡ₚ seq 0 (length text) ≫= (fun i =>
               (fun p => (ID p, 0, S i)) <$>
                 filter (fun p => occurs_at (Content p) text i) ushers_patterns).
Proof.
  split; [exact capacity_ushers|].
  apply (C1_exact_occurrences in_order in_order_perm ushers_patterns capacity_ushers).
  intros p Hp. in_patterns Hp; (split; [reflexivity|discriminate]).
Defined.

Lemma C2_witness :
  capacity mixed_patterns /\
  exists ac, compile in_order mixed_patterns = Ok ac /\
    forall text,
      (forall i, variant_at (bytes "bar") text i -> (2%N, 0, S i) ∈ scan_log ac text) /\
      exists ids, Search (E:=Empty_set) ac text = Ok ids /\
        replicate (length (filter (fun i => variant_at (bytes "bar") text i)
                                  (seq 0 (length text)))) 2%N ⊆+ ids.
Proof.
  split; [exact capacity_mixed|].
  apply (C2_caseless_positions in_order in_order_perm mixed_patterns
           (mkPat "bar" 2 Caseless) capacity_mixed).
  - right. left.
  - reflexivity.
  - reflexivity.
  - discriminate.
Defined.

Lemma C3_witness :
  capacity mixed_patterns /\
  exists ac, compile in_order mixed_patterns = Ok ac /\
    forall text, exists ids,
      Search (E:=Empty_set) ac text = Ok ids /\
      (fun c : N * nat * nat => c.1.1) <$> scan_log ac text = ids /\
      length (filter (eq 1%N) ids) <= 1 /\
      ((forall q i, q ∈ mixed_patterns -> ID q = 1%N -> ~ matches_at q text i) ->
       1%N ∉ ids).
Proof.
  split; [exact capacity_mixed|].
  apply (C3_single_match_once in_order in_order_perm mixed_patterns
           (mkPat "foo" 1 SingleMatch) capacity_mixed).
  - left.
  - reflexivity.
  - intros q Hq Hid. in_patterns Hq; [reflexivity|discriminate].
Defined.

Lemma C4_witness :
  capacity ushers_patterns /\
  exists ac, compile in_order ushers_patterns = Ok ac /\
    forall (St E : Type) text (m : @MatchedHandler St E) s id from to,
      (id, from, to) ∈ (Scan ac text (logged m) (s, [])).1.2 ->
      from = 0 /\
      exists i p, to = S i /\ i < length text /\ p ∈ ushers_patterns /\ ID p = id /\
                  matches_at p text i.
Proof.
  split; [exact capacity_ushers|].
  exact (C4_scan_offsets in_order in_order_perm ushers_patterns capacity_ushers).
Defined.

Lemma C5_witness :
  capacity ushers_patterns /\
  exists ac, compile in_order ushers_patterns = Ok ac /\
    forall (St E : Type) text (m : @MatchedHandler St E) s,
    exists s' log r,
      Scan ac text (logged m) (s, []) = ((s', log), r) /\
      Scan ac text m s = (s', r) /\
      (replay m log s).1 = s' /\
      match r with
      | Ok _ => (replay m log s).2 = replicate (length log) None
      | Err err =>
          exists log0 c, log = log0 ++ [c] /\
            (replay m log s).2 = replicate (length log0) None ++ [Some err] /\
            forall text', take c.2 text' = take c.2 text ->
              Scan ac text' (logged m) (s, []) = ((s', log), Err err)
      | _ => False
      end.
Proof.
  split; [exact capacity_ushers|].
  exact (C5_scan_error in_order in_order_perm ushers_patterns capacity_ushers).
Defined.

Lemma C6_witness :
  capacity ushers_patterns /\
  exists ac, compile in_order ushers_patterns = Ok ac /\
    length (stateTable ac) = stateCount ac * alphabetSize ac /\
    Forall (fun z => (0 <= z < Z.of_nat (stateCount ac))%Z) (stateTable ac) /\
    forall text b,
      exists s, dfa_run (E:=Empty_set) ac text = Ok (Z.of_nat s) /\
        s < stateCount ac /\
        translateTable ac !!! Byte.to_nat b < alphabetSize ac /\
        s * alphabetSize ac + translateTable ac !!! Byte.to_nat b
          < length (stateTable ac) /\
        (Z.of_nat (length (stateTable ac)) <=?
           Z.of_nat s * Z.of_nat (alphabetSize ac)
           + Z.of_nat (translateTable ac !!! Byte.to_nat b))%Z = false /\
        next_state (E:=Empty_set) ac (Z.of_nat s) (translateTable ac !!! Byte.to_nat b)
          = indexZ (stateTable ac)
              (Z.of_nat (s * alphabetSize ac + translateTable ac !!! Byte.to_nat b)).
Proof.
  split; [exact capacity_ushers|].
  exact (C6_table_closed in_order in_order_perm ushers_patterns capacity_ushers).
Defined.

Lemma C7_witness :
  capacity ushers_patterns /\
  (forall (E : Type) ac p, (AddPattern (E:=E) ac p).2 = None) /\
  exists ac, compile in_order ushers_patterns = Ok ac /\
    forall p, let ac' := (AddPattern (E:=Empty_set) ac p).1 in
      translateTable ac' = translateTable ac /\
      stateTable ac' = stateTable ac /\
      outputTable ac' = outputTable ac /\
      (forall (St E : Type) text (matched : @matchedPattern St E) h,
         searchPatterns ac' text matched h = searchPatterns ac text matched h) /\
      (forall (E : Type) text, Search (E:=E) ac' text = Search ac text) /\
      (forall (St E : Type) text (m : @MatchedHandler St E) s,
         Scan ac' text m s = Scan ac text m s).
Proof.
  split; [exact capacity_ushers|].
  exact (C7_add_after_build in_order in_order_perm ushers_patterns capacity_ushers).
Defined.

Lemma C8_witness :
  capacity mixed_patterns /\
  exists ac, compile in_order mixed_patterns = Ok ac /\
    forall (St E : Type) (t1 t2 : N) text (matched : @matchedPattern St E) h,
      searchPatterns_with t1 ac text matched h =
      searchPatterns_with t2 ac text matched h.
Proof.
  split; [exact capacity_mixed|].
  exact (C8_threshold_irrelevant in_order in_order_perm mixed_patterns capacity_mixed).
Defined.

Lemma C9_witness :
  capacity ushers_patterns /\
  exists ac, compile in_order ushers_patterns = Ok ac /\
    (forall text i, i < length text ->
      exists s out,
        dfa_run (E:=Empty_set) ac (take (S i) text) = Ok (Z.of_nat s) /\
        outputTable ac !! s = Some out /\
        forall k, k ∈ out ->
          exists pat, patterns ac !! k = Some pat /\
            (0 <= Z.of_nat i - strlen pat + 1 <= Z.of_nat (length text))%Z /\
            memcmp (E:=Empty_set) (Content pat)
              (drop (Z.to_nat (Z.of_nat i - strlen pat + 1)) text) (strlen pat)
              = Ok (exact_at (Content pat) text i)) /\
    (forall (St E : Type) text (matched : @matchedPattern St E) h,
       (searchPatterns ac text matched h).2 <> Panic).
Proof.
  split; [exact capacity_ushers|].
  exact (C9_window_in_bounds in_order in_order_perm ushers_patterns capacity_ushers).
Defined.

(** ["foo"] occurs at the end of ["FOOfoo"], but the variant ["FOO"] is
    recognised first and marks the pattern. *)
Lemma C10_witness :
  occurs_at (bytes "foo") (bytes "FOOfoo") 5 /\
  exists ac, compile in_order foo_once_patterns = Ok ac /\
    exists ids, Search (E:=Empty_set) ac (bytes "FOOfoo") = Ok ids /\
      (fun c : N * nat * nat => c.1.1) <$> scan_log ac (bytes "FOOfoo") = ids /\
      1%N ∉ ids.
Proof.
  split; [by_decide|].
  destruct (C10_mark_before_verification in_order in_order_perm foo_once_patterns
              (mkPat "foo" 1 SingleMatch) capacity_foo_once) as (ac & Hc & Hmiss).
  - left.
  - reflexivity.
  - reflexivity.
  - intros q Hq _. by in_patterns Hq.
  - exists ac. split; [exact Hc|]. apply (Hmiss (bytes "FOOfoo") 2).
    + by_decide.
    + by_decide.
    + intros j Hj. destruct j as [|[|j]]; [by_decide|by_decide|lia].
Defined.

